(** * python-ssdb: the wire parser, the command encoder, the response
      interpreter and the asyncio connection pool, embedded in Rocq.

    Source files embedded here:
    - [ssdb/core/parser.pyx]       (Buffer, Parser, Reader)
    - [ssdb/core/encode.pyx]       (utf8_encode, encode_command)
    - [ssdb/core/response.pyx]     (wrap_response and the shaping helpers)
    - [ssdb/asyncio/connection.pyx] (Connection, ConnectionPool)

    Conventions.
    - A byte ([uint8_t], an element of a Python [bytes]) is a [Z] in
      [0, 256).  C integers are [Z] with the wrap-around of their width
      written out ([wrap_int], [wrap_long], [wrap_size_t]).
    - A Python [str] is represented by the [string] of its UTF-8 code units,
      so [s.encode("utf-8")] is the list of the character codes.  This covers
      every [str] that [encode] accepts.
    - A call ends in one of four ways, [res]: it returns, it raises a Python
      exception, it runs into behaviour that C leaves undefined (a read
      outside the buffer, an unchecked list index), or it never returns. *)

From Stdlib Require Import ZArith Lia List String Ascii Bool.
From Stdlib Require Import Decimal DecimalString DecimalFacts DecimalPos DecimalN.
From stdpp Require Import base tactics option list gmap strings.

Local Open Scope Z_scope.

(** ** Bytes *)

Abbreviation byte := Z (only parsing).
Abbreviation bytes := (list Z) (only parsing).

Definition LF : byte := 10.
Definition CR : byte := 13.

Definition byte_of_ascii (a : ascii) : byte := Z.of_N (N_of_ascii a).

Fixpoint bytes_of_string (s : string) : bytes :=
  match s with
  | EmptyString => []
  | String a s' => byte_of_ascii a :: bytes_of_string s'
  end.

(** [wire s] writes a byte string with the escapes [\n] and [\r], to keep
    the examples readable. *)
Fixpoint wire (s : string) : bytes :=
  match s with
  | EmptyString => []
  | String "\" (String "n" s') => LF :: wire s'
  | String "\" (String "r" s') => CR :: wire s'
  | String a s' => byte_of_ascii a :: wire s'
  end.

Definition is_digit (b : byte) : bool := (48 <=? b) && (b <=? 57).

(** The number that a string of decimal digits stands for. *)
Definition decimal_value (v : bytes) : Z :=
  fold_left (fun acc b => acc * 10 + (b - 48)) v 0.

(** ** C integer types *)

Definition wrap_size_t (z : Z) : Z := z mod 2 ^ 64.
Definition wrap_signed (w : Z) (z : Z) : Z :=
  (z + 2 ^ (w - 1)) mod 2 ^ w - 2 ^ (w - 1).
Definition wrap_int (z : Z) : Z := wrap_signed 32 z.
Definition wrap_long (z : Z) : Z := wrap_signed 64 z.

Definition INT32_MAX : Z := 2147483647.
Definition LONG_MAX : Z := 2 ^ 63 - 1.
Definition LONG_MIN : Z := - 2 ^ 63.

(** ** Python exceptions

    Only the classes this code raises or tells apart.  [ConnectionError]
    carries the message given by this code; [ConnectionSubclassError] stands
    for the operating system's subclasses of it (reset, refused, aborted,
    broken pipe).  [CancelledError] derives from [BaseException] only
    (Python 3.8 and later, which [pyproject.toml] requires).
    [TimeoutError] is [asyncio.TimeoutError], taken as in Python 3.8 to
    3.10, where it is not an [OSError]. *)

Inductive exn :=
| ConnectionError (msg : string)
| ConnectionSubclassError (msg : string)
| OSError (msg : string)
| RuntimeError (msg : string)
| PlainException (msg : string)
| TypeError
| AttributeError
| ValueError
| UnicodeDecodeError
| OverflowError
| TimeoutError
| CancelledError
| NoMemoryError
| BadFormatError.

Definition is_Exception (e : exn) : bool :=
  match e with CancelledError => false | _ => true end.

Definition is_ConnectionError (e : exn) : bool :=
  match e with
  | ConnectionError _ | ConnectionSubclassError _ => true
  | _ => false
  end.

Definition is_OSError (e : exn) : bool :=
  match e with
  | ConnectionError _ | ConnectionSubclassError _ | OSError _ => true
  | _ => false
  end.

(** ** Results of a call *)

Inductive res (A : Type) :=
| Ret (a : A)
| Raise (e : exn)
| Undef
| Hang.
Arguments Ret {A} a.
Arguments Raise {A} e.
Arguments Undef {A}.
Arguments Hang {A}.

Definition res_bind {A B} (f : A -> res B) (m : res A) : res B :=
  match m with
  | Ret a => f a
  | Raise e => Raise e
  | Undef => Undef
  | Hang => Hang
  end.

#[global] Instance res_mret : MRet res := @Ret.
#[global] Instance res_mbind : MBind res := @res_bind.

(** The result is a [ConnectionError] raised by this code. *)
Definition conn_raise {A} (r : res A) : bool :=
  match r with Raise (ConnectionError _) => true | _ => false end.

(** * The wire parser ([ssdb/core/parser.pyx]) *)

Module Parser.

Definition INITIAL_BUF_SIZE : Z := 8192.
Definition BUF_MAX_SIZE : Z := 16 * 1024 * 1024.

Inductive Status := OK | ENOMEM | EBADFMT | EUNFINISH.

(** [data] is the storage behind the pointer, [cap] bytes long; a NULL
    pointer is the empty storage.  Only the first [size] bytes hold data, the
    rest is whatever the storage held before. *)
Record Buffer := mkBuffer { data : bytes; size : Z; cap : Z }.

(** Storage obtained from [malloc] or by extending with [realloc] has
    indeterminate contents; it is modelled as zero bytes, and
    [parse_agree] shows that no result depends on it.  Allocation itself
    is taken to succeed. *)
Definition fresh_storage (n : Z) : bytes := repeat 0 (Z.to_nat n).

Definition realloc (old : bytes) (n : Z) : bytes :=
  take (Z.to_nat n) old ++ fresh_storage (n - Z.of_nat (length old)).

Definition Buffer_new : Buffer :=
  {| data := fresh_storage INITIAL_BUF_SIZE; size := 0; cap := INITIAL_BUF_SIZE |}.

Definition clear (b : Buffer) : Buffer :=
  {| data := []; size := 0; cap := 0 |}.

(** The doubling loop of [grow]: [while cap < size: cap *= 2]. *)
Fixpoint grow_loop (fuel : nat) (cap size : Z) : res Z :=
  match fuel with
  | O => Hang
  | S fuel' =>
      if cap <? size then grow_loop fuel' (wrap_size_t (cap * 2)) size
      else Ret cap
  end.

(** After 64 doublings a [size_t] is 0, so a loop that has not stopped
    within 65 tests never stops ([grow_loop_fuel_exact]). *)
Definition GROW_FUEL : nat := 65.

Definition grow (b : Buffer) (sz : Z) : res (Status * Buffer) :=
  if BUF_MAX_SIZE <? sz then Ret (ENOMEM, b)
  else if sz <=? cap b then Ret (OK, b)
  else
    cap' ← grow_loop GROW_FUEL (cap b) sz;
    Ret (OK, {| data := realloc (data b) cap'; size := size b; cap := cap' |}).

Definition memcpy_at (mem : bytes) (off : Z) (src : bytes) : bytes :=
  take (Z.to_nat off) mem ++ src ++ drop (Z.to_nat off + length src)%nat mem.

Definition put (b : Buffer) (src : bytes) : res (Status * Buffer) :=
  '(st, b1) ← grow b (wrap_size_t (size b + Z.of_nat (length src)));
  match st with
  | OK =>
      Ret (OK, {| data := memcpy_at (data b1) (size b1) src;
                  size := wrap_size_t (size b1 + Z.of_nat (length src));
                  cap := cap b1 |})
  | _ => Ret (st, b1)
  end.

(** [memmove(data, data + n, len)] *)
Definition memmove_front (mem : bytes) (n len : Z) : bytes :=
  take (Z.to_nat len) (drop (Z.to_nat n) mem) ++ drop (Z.to_nat len) mem.

Definition remove (b : Buffer) (n : Z) : Buffer :=
  if size b <? n then {| data := data b; size := 0; cap := cap b |}
  else
    let size' := size b - n in
    {| data := memmove_front (data b) n size'; size := size'; cap := cap b |}.

(** *** Reads *)

Definition peek (mem : bytes) (p : Z) : res byte :=
  if p <? 0 then Undef
  else match mem !! Z.to_nat p with
       | Some b => Ret b
       | None => Undef
       end.

(** [memchr(p, c, n)]: the offset of the first [c] among the [n] bytes from
    [p]. *)
Fixpoint memchr (mem : bytes) (p : Z) (c : byte) (n : nat) : res (option Z) :=
  match n with
  | O => Ret None
  | S n' =>
      b ← peek mem p;
      if b =? c then Ret (Some p) else memchr mem (p + 1) c n'
  end.

(** The [n] bytes from [p], as [memcpy] out of the buffer and [ch[:sz]]
    read them. *)
Definition slice (mem : bytes) (p n : Z) : res bytes :=
  if (p <? 0) || (n <? 0) || (Z.of_nat (length mem) <? p + n) then Undef
  else Ret (take (Z.to_nat n) (drop (Z.to_nat p) mem)).

(** *** atoi *)

Definition is_space (b : byte) : bool := (b =? 32) || ((9 <=? b) && (b <=? 13)).

Fixpoint skip_spaces (s : bytes) : bytes :=
  match s with
  | b :: s' => if is_space b then skip_spaces s' else s
  | [] => []
  end.

Fixpoint digits_value (acc : Z) (s : bytes) : Z :=
  match s with
  | b :: s' => if is_digit b then digits_value (acc * 10 + (b - 48)) s' else acc
  | [] => acc
  end.

Definition strtol (s : bytes) : Z :=
  let s := skip_spaces s in
  let v := match s with
           | 45 :: s' => - digits_value 0 s'
           | 43 :: s' => digits_value 0 s'
           | _ => digits_value 0 s
           end in
  Z.max LONG_MIN (Z.min LONG_MAX v).

(** [atoi] is [(int) strtol(s, NULL, 10)]: a value outside [int] wraps, which
    is what the test [sz < 0] of the parser looks for. *)
Definition atoi (s : bytes) : Z := wrap_int (strtol s).

(** *** Parser.parse *)

Inductive exit := Found (consumed : Z) | Bad | Unfinished.

Inductive step :=
| Exit (e : exit)
| Next (ptr length : Z) (value : bytes).

(** One turn of the [while] loop, from the call of [memchr] to
    [values.append(value)].  [ptr] is an offset from [start], [end_] is
    [self.buf.size]. *)
Definition parse_step (mem : bytes) (end_ ptr length : Z) : res step :=
  ch ← memchr mem ptr LF (Z.to_nat length);
  match ch with
  | None => Ret (Exit Unfinished)
  | Some ch =>
      let ch := ch + 1 in
      let dis := wrap_int (ch - ptr) in
      if dis =? 1 then Ret (Exit (Found (wrap_size_t ch)))
      else
      p0 ← peek mem ptr;
      if (dis =? 2) && (p0 =? CR) then Ret (Exit (Found (wrap_size_t ch)))
      else if (p0 <? 48) || (57 <? p0) then Ret (Exit Bad)
      else if 19 <? dis then Ret (Exit Bad)
      else
        size_str ← slice mem ptr (dis - 1);
        let sz := atoi size_str in
        if sz <? 0 then Ret (Exit Bad)
        else
          let length := wrap_long (length - wrap_int (dis + sz)) in
          let ptr := ptr + wrap_int (dis + sz) in
          if (length <? 0) || (end_ <? ptr) then Ret (Exit Unfinished)
          else
            t ← (if 1 <=? length then
                    q0 ← peek mem ptr;
                    if q0 =? LF then Ret 1
                    else if (2 <=? length) && (q0 =? CR) then
                      q1 ← peek mem (ptr + 1);
                      Ret (if q1 =? LF then 2 else 0)
                    else Ret 0
                  else Ret 0);
            if t =? 0 then Ret (Exit Unfinished)
            else
              value ← slice mem ch sz;
              Ret (Next (ptr + t) (wrap_long (length - t)) value)
  end.

Fixpoint parse_loop (fuel : nat) (mem : bytes) (end_ ptr length : Z)
    (values : list bytes) : res (exit * list bytes) :=
  match fuel with
  | O => Hang
  | S fuel' =>
      if 0 <? length then
        s ← parse_step mem end_ ptr length;
        match s with
        | Exit e => Ret (e, values)
        | Next ptr' length' value =>
            parse_loop fuel' mem end_ ptr' length' (values ++ [value])
        end
      else Ret (Unfinished, values)
  end.

(** Every turn that goes on shortens [length], so [size + 1] turns are
    enough ([parse_loop_total]). *)
Definition parse (b : Buffer) (values : list bytes)
    : res (Status * Buffer * list bytes) :=
  '(e, values') ← parse_loop (S (Z.to_nat (size b))) (data b) (size b) 0
                    (wrap_long (size b)) values;
  match e with
  | Found n => Ret (OK, remove b n, values')
  | Bad => Ret (EBADFMT, b, values')
  | Unfinished => Ret (EUNFINISH, b, values')
  end.

Record Parser := mkParser { buf : Buffer }.
Record Reader := mkReader { parser : Parser }.

Definition Reader_new : Reader := {| parser := {| buf := Buffer_new |} |}.

Definition Parser_clear (p : Parser) : Parser := {| buf := clear (buf p) |}.
Definition Parser_feed (p : Parser) (src : bytes) : res (Status * Parser) :=
  '(st, b) ← put (buf p) src; Ret (st, {| buf := b |}).

Definition Reader_clear (r : Reader) : Reader :=
  {| parser := Parser_clear (parser r) |}.

(** [Reader.feed] returns the new size, or raises [NoMemoryError]; the
    reader keeps the buffer either way. *)
Definition Reader_feed (r : Reader) (value : bytes) : res Z * Reader :=
  match Parser_feed (parser r) value with
  | Ret (OK, p) => (Ret (wrap_int (size (buf p))), {| parser := p |})
  | Ret (_, p) => (Raise NoMemoryError, {| parser := p |})
  | Raise e => (Raise e, r)
  | Undef => (Undef, r)
  | Hang => (Hang, r)
  end.

(** [Reader.get]: the frame, [None] when it is not complete yet, or
    [BadFormatError]. *)
Definition Reader_get (r : Reader) : res (option (list bytes)) * Reader :=
  match parse (buf (parser r)) [] with
  | Ret (OK, b, values) => (Ret (Some values), {| parser := {| buf := b |} |})
  | Ret (EBADFMT, b, _) => (Raise BadFormatError, {| parser := {| buf := b |} |})
  | Ret (_, b, _) => (Ret None, {| parser := {| buf := b |} |})
  | Raise e => (Raise e, r)
  | Undef => (Undef, r)
  | Hang => (Hang, r)
  end.

(** *** Notions used to state and prove the properties of the parser *)

(** The bytes the buffer holds. *)
Definition contents (b : Buffer) : bytes := take (Z.to_nat (size b)) (data b).

(** The invariant of [Buffer]: the storage has [cap] bytes, [size] of
    them in use, within the limits [grow] enforces. *)
Definition wf (b : Buffer) : Prop :=
  0 <= size b <= cap b
  /\ Z.of_nat (length (data b)) = cap b
  /\ size b <= BUF_MAX_SIZE
  /\ cap b <= 2 * BUF_MAX_SIZE.

(** [cap] after [n] doublings *)
Fixpoint doubled (n : nat) (c : Z) : Z :=
  match n with O => c | S n' => doubled n' (wrap_size_t (c * 2)) end.

(** A read that is known to be in range. *)
Definition rd (m : bytes) (p : Z) : Z := default 0 (m !! Z.to_nat p).

(** The length of the line end at [p], 0 when there is none before [e]. *)
Definition terminator (m : bytes) (e p : Z) : Z :=
  if p <? e then
    if rd m p =? LF then 1
    else if (p + 1 <? e) && (rd m p =? CR) && (rd m (p + 1) =? LF) then 2
    else 0
  else 0.

(** One turn of the loop once [memchr] has found the line feed at [q],
    with every read in range ([parse_step_eval]). *)
Definition blob_step (m : bytes) (e ptr q : Z) : res step :=
  let dis := q + 1 - ptr in
  if dis =? 1 then Ret (Exit (Found (q + 1)))
  else if (dis =? 2) && (rd m ptr =? CR) then Ret (Exit (Found (q + 1)))
  else if (rd m ptr <? 48) || (57 <? rd m ptr) then Ret (Exit Bad)
  else if 19 <? dis then Ret (Exit Bad)
  else
    let sz := atoi (take (Z.to_nat (dis - 1)) (drop (Z.to_nat ptr) m)) in
    if sz <? 0 then Ret (Exit Bad)
    else if 2 ^ 31 <=? dis + sz then Undef
    else
      let p := q + 1 + sz in
      if e <? p then Ret (Exit Unfinished)
      else
        let t := terminator m e p in
        if t =? 0 then Ret (Exit Unfinished)
        else Ret (Next (p + t) (e - (p + t))
                    (take (Z.to_nat sz) (drop (Z.to_nat (q + 1)) m))).

(** Two memories hold the same first [e] bytes. *)
Definition agree (e : Z) (m1 m2 : bytes) : Prop :=
  take (Z.to_nat e) m1 = take (Z.to_nat e) m2.

Definition unfinished (r : res (exit * list bytes)) : Prop :=
  exists vs, r = Ret (Unfinished, vs).

Definition incomplete (b : Buffer) (r : res (Status * Buffer * list bytes)) : Prop :=
  exists vs, r = Ret (EUNFINISH, b, vs).

Definition rbuf (r : Reader) : Buffer := buf (parser r).

(** A reader whose buffer has its storage. *)
Definition ready (r : Reader) : Prop := wf (rbuf r) /\ 0 < cap (rbuf r).

(** Feeding chunks in order; after a chunk marked [true] the caller tries
    [get], and stops at the first frame or error, as [read_response]
    does.  After the last chunk it calls [get]. *)
Fixpoint drive (r : Reader) (steps : list (bytes * bool))
    : res (option (list bytes)) * Reader :=
  match steps with
  | [] => Reader_get r
  | (chunk, attempt) :: rest =>
      match Reader_feed r chunk with
      | (Ret _, r1) =>
          if attempt then
            match Reader_get r1 with
            | (Ret None, r2) => drive r2 rest
            | other => other
            end
          else drive r1 rest
      | (Raise e, r1) => (Raise e, r1)
      | (Undef, r1) => (Undef, r1)
      | (Hang, r1) => (Hang, r1)
      end
  end.

End Parser.


(** * Python values *)

(** The objects a caller can pass as a command argument.  [bool] is a
    subclass of [int] in Python. *)
#[local] Set Warnings "-register-all".

Inductive pyobj :=
| PyStr (s : string)
| PyInt (n : Z)
| PyBool (b : bool)
| PyBytes (b : bytes)
| PyNone
| PyTuple (items : list pyobj).

(** [str(n)] and [b"%d" % n]: the decimal numeral, with [-] for a negative
    number. *)
Definition str_of_int (n : Z) : string :=
  DecimalString.NilZero.string_of_int (Z.to_int n).

(** * The command encoder ([ssdb/core/encode.pyx]) *)

Module Encode.

(** [cdef inline bytes utf8_encode(object s)]: the declared return type
    lets [None] through and rejects any other object that is not [bytes]. *)
Definition utf8_encode (s : pyobj) : res pyobj :=
  let s := match s with
           | PyInt n => PyStr (str_of_int n)
           | PyBool true => PyStr "True"
           | PyBool false => PyStr "False"
           | _ => s
           end in
  match s with
  | PyStr t => Ret (PyBytes (bytes_of_string t))
  | PyBytes b => Ret (PyBytes b)
  | PyNone => Ret PyNone
  | _ => Raise TypeError
  end.

(** [b"%d\n%s\n" % (len(byte), byte)] for the loop variable [cdef bytes byte];
    [len(None)] is a [TypeError]. *)
Definition format_token (byte : pyobj) : res bytes :=
  match byte with
  | PyBytes b =>
      Ret (bytes_of_string (str_of_int (Z.of_nat (length b))) ++ [LF] ++ b ++ [LF])
  | _ => Raise TypeError
  end.

Fixpoint mapM {A B} (f : A -> res B) (l : list A) : res (list B) :=
  match l with
  | [] => Ret []
  | x :: l' => y ← f x; ys ← mapM f l'; Ret (y :: ys)
  end.

Definition encode_command (command : string) (args : list pyobj) : res bytes :=
  let command := if String.eqb command "delete" then "del"%string else command in
  b0 ← utf8_encode (PyStr command);
  bs ← mapM utf8_encode args;
  parts ← mapM format_token (b0 :: bs);
  Ret (concat parts ++ [LF]).

(** *** The wire format, in the words of the protocol *)



Definition decimal_ascii (n : nat) : bytes :=
  bytes_of_string (str_of_int (Z.of_nat n)).


(** The command name on the wire. *)
Definition wire_name (command : string) : string :=
  if String.eqb command "delete" then "del"%string else command.

(** The value of the digits of [d] read after [acc]. *)
Fixpoint uint_value (acc : Z) (d : Decimal.uint) : Z :=
  match d with
  | Decimal.Nil => acc
  | Decimal.D0 d => uint_value (acc * 10 + 0) d
  | Decimal.D1 d => uint_value (acc * 10 + 1) d
  | Decimal.D2 d => uint_value (acc * 10 + 2) d
  | Decimal.D3 d => uint_value (acc * 10 + 3) d
  | Decimal.D4 d => uint_value (acc * 10 + 4) d
  | Decimal.D5 d => uint_value (acc * 10 + 5) d
  | Decimal.D6 d => uint_value (acc * 10 + 6) d
  | Decimal.D7 d => uint_value (acc * 10 + 7) d
  | Decimal.D8 d => uint_value (acc * 10 + 8) d
  | Decimal.D9 d => uint_value (acc * 10 + 9) d
  end.

End Encode.

(** * The response interpreter ([ssdb/core/response.pyx]) *)

Module Response.

Definition REQUEST_FOR_NO_RESPONSE : list string := ["ping"; "qset"]%string.

Definition REQUEST_FOR_INT_RESPONSE : list string :=
  ["auth"; "dbsize";
   "set"; "setx"; "setnx"; "expire"; "ttl";
   "del"; "incr"; "decr"; "exists"; "getbit"; "setbit";
   "bitcount"; "countbit"; "strlen"; "multi_set"; "multi_del";
   "hset"; "hdel"; "hincr"; "hdecr"; "hexists"; "hsize"; "hclear";
   "multi_hset"; "multi_hdel";
   "zset"; "zget"; "zdel"; "zincr"; "zdecr"; "zexists"; "zsize"; "zrank";
   "zrrank"; "zclear";
   "zcount"; "zsum"; "zremrangebyrank"; "zremrangebyscore"; "multi_zset";
   "multi_zdel";
   "qsize"; "qclear"; "qpush"; "qpush_front"; "qpush_back"; "qtrim_front";
   "qtrim_back"]%string.

Definition REQUEST_FOR_FLOAT_RESPONSE : list string := ["zavg"]%string.

Definition REQUEST_FOR_BYTE_RESPONSE : list string :=
  ["version"; "get"; "getset"; "substr"; "hget"; "qfront"; "qback"; "qget"]%string.

Definition REQUEST_FOR_LIST_RESPONSE : list string :=
  ["info"; "keys"; "rkeys"; "hlist"; "hrlist"; "hkeys"; "zlist"; "zrlist";
   "zkeys"; "qlist"; "qrlist"; "qrange"; "qslice"; "qpop"; "qpop_front";
   "qpop_back"]%string.

Definition REQUEST_FOR_STR_MAP_RESPONSE : list string :=
  ["multi_get"; "hgetall"; "multi_hget"]%string.

Definition REQUEST_FOR_INT_MAP_RESPONSE : list string :=
  ["multi_exists"; "multi_hexists"; "multi_hsize"; "zrange"; "zrrange";
   "zpop_front"; "zpop_back"; "multi_zget"; "multi_zexists"; "multi_zsize"]%string.

Definition REQUEST_FOR_STR_MAP_SCAN_RESPONSE : list string :=
  ["scan"; "rscan"; "hscan"; "hrscan"]%string.

Definition REQUEST_FOR_INT_MAP_SCAN_RESPONSE : list string :=
  ["zscan"; "zrscan"]%string.

(** [cmd in S] for a set of [str]. *)
Definition member (cmd : string) (S : list string) : bool :=
  existsb (String.eqb cmd) S.

(** ** Dictionaries

    A Python [dict] keeps its keys in the order of their first insertion;
    storing under a key that is present replaces the value in place. *)
Definition dict (V : Type) := list (bytes * V).

Fixpoint dict_set {V} (k : bytes) (v : V) (d : dict V) : dict V :=
  match d with
  | [] => [(k, v)]
  | (k', v') :: d' =>
      if decide (k' = k) then (k, v) :: d' else (k', v') :: dict_set k v d'
  end.

Fixpoint dict_get {V} (k : bytes) (d : dict V) : option V :=
  match d with
  | [] => None
  | (k', v') :: d' => if decide (k' = k) then Some v' else dict_get k d'
  end.

Definition dict_keys {V} (d : dict V) : list bytes := map fst d.

(** ** Builtins on [bytes] *)

(** [v.isdigit()]: not empty, and every byte an ASCII digit. *)
Definition isdigit (v : bytes) : bool :=
  match v with [] => false | _ => forallb is_digit v end.

(** [int(v)] for [bytes]: optional blanks around an optional sign and
    decimal digits, where single underscores may separate digits. *)
Fixpoint int_digits (acc : Z) (after_digit : bool) (s : bytes) : option Z :=
  match s with
  | [] => if after_digit then Some acc else None
  | b :: s' =>
      if is_digit b then int_digits (acc * 10 + (b - 48)) true s'
      else if b =? 95 then
        if after_digit then int_digits acc false s' else None
      else if Parser.is_space b then
        if after_digit && forallb Parser.is_space s' then Some acc else None
      else None
  end.

Definition py_int (v : bytes) : res Z :=
  let s := Parser.skip_spaces v in
  let r := match s with
           | 45 :: s' => Z.opp <$> int_digits 0 false s'
           | 43 :: s' => int_digits 0 false s'
           | _ => int_digits 0 false s
           end in
  match r with Some n => Ret n | None => Raise ValueError end.

(** [b.decode("utf-8")]: the strict decoder accepts the well-formed
    sequences of the Unicode standard and nothing else. *)
Definition is_cont (b : byte) : bool := (128 <=? b) && (b <=? 191).
Definition between (lo hi b : byte) : bool := (lo <=? b) && (b <=? hi).

Fixpoint utf8_valid (s : bytes) : bool :=
  match s with
  | [] => true
  | b0 :: s1 =>
      if between 0 127 b0 then utf8_valid s1
      else match s1 with
      | [] => false
      | b1 :: s2 =>
          if between 194 223 b0 then is_cont b1 && utf8_valid s2
          else match s2 with
          | [] => false
          | b2 :: s3 =>
              if between 224 239 b0 then
                (if b0 =? 224 then between 160 191 b1
                 else if b0 =? 237 then between 128 159 b1
                 else is_cont b1)
                && is_cont b2 && utf8_valid s3
              else match s3 with
              | [] => false
              | b3 :: s4 =>
                  between 240 244 b0
                  && (if b0 =? 240 then between 144 191 b1
                      else if b0 =? 244 then between 128 143 b1
                      else is_cont b1)
                  && is_cont b2 && is_cont b3 && utf8_valid s4
              end
          end
      end
  end.

Definition ascii_of_byte (b : byte) : ascii := ascii_of_N (Z.to_N b).

Fixpoint string_of_bytes (s : bytes) : string :=
  match s with
  | [] => EmptyString
  | b :: s' => String (ascii_of_byte b) (string_of_bytes s')
  end.

Definition decode_utf8 (s : bytes) : res string :=
  if utf8_valid s then Ret (string_of_bytes s) else Raise UnicodeDecodeError.

(** ** Results

    [pyfloat] and [py_float] stand for Python's [float] and for [float(v)]
    on [bytes] ([None] when it raises [ValueError]); they belong to the
    interpreter, not to this repository. *)
Section Interpreter.

Context {pyfloat : Type} (py_float : bytes -> option pyfloat).

Inductive pyval :=
| VNone
| VInt (n : Z)
| VFloat (f : pyfloat)
| VBytes (b : bytes)
| VList (l : list bytes)
| VStrMap (d : dict bytes)
| VIntMap (d : dict Z)
| VStrScan (next_start : option bytes) (d : dict bytes)
| VIntScan (next_start : option bytes) (d : dict Z).

(** [resp[i]] with [boundscheck=False]: an index outside the list is not
    checked. *)
Definition item (resp : list bytes) (i : Z) : res bytes :=
  if i <? 0 then Undef
  else match resp !! Z.to_nat i with
       | Some b => Ret b
       | None => Undef
       end.

(** [range(0, N, 2)] *)
Definition range2 (N : Z) : list Z :=
  map (fun j => 2 * Z.of_nat j) (seq 0 (Z.to_nat ((N + 1) / 2))).

(** The loop [for i in range(0, N, 2): result[resp[i]] = conv(resp[i + 1])],
    also the dict comprehension of [to_str_map]. *)
Fixpoint fill {V} (conv : bytes -> res V) (resp : list bytes) (idx : list Z)
    (result : dict V) : res (dict V) :=
  match idx with
  | [] => Ret result
  | i :: idx' =>
      v ← item resp (i + 1);
      x ← conv v;
      k ← item resp i;
      fill conv resp idx' (dict_set k x result)
  end.

Definition int_or_minus1 (v : bytes) : res Z :=
  if isdigit v then py_int v else Ret (-1).

(** [N] is a C [int]; a frame comes out of a buffer of at most 16 MiB, so
    its length is far below [2^31]. *)
Definition to_str_map (resp : list bytes) : res (dict bytes) :=
  let N := Z.of_nat (length resp) in
  if negb (N mod 2 =? 0) then Raise (RuntimeError "Invalid response")
  else fill Ret resp (range2 N) [].

Definition to_int_map (resp : list bytes) : res (dict Z) :=
  let N := Z.of_nat (length resp) in
  if negb (N mod 2 =? 0) then Raise (RuntimeError "Invalid response")
  else fill int_or_minus1 resp (range2 N) [].

Definition to_str_map_for_scan (resp : list bytes)
    : res (option bytes * dict bytes) :=
  let N := Z.of_nat (length resp) in
  if negb (N mod 2 =? 0) then Raise (RuntimeError "Invalid response")
  else if N =? 0 then Ret (None, [])
  else
    next_start ← item resp (N - 2);
    result ← fill Ret resp (range2 N) [];
    Ret (Some next_start, result).

Definition to_int_map_for_scan (resp : list bytes)
    : res (option bytes * dict Z) :=
  let N := Z.of_nat (length resp) in
  if negb (N mod 2 =? 0) then Raise (RuntimeError "Invalid response")
  else if N =? 0 then Ret (None, [])
  else
    next_start ← item resp (N - 2);
    result ← fill int_or_minus1 resp (range2 N) [];
    Ret (Some next_start, result).

Definition wrap_response (cmd : string) (resp : list bytes) : res pyval :=
  let N := Z.of_nat (length resp) in
  if N =? 0 then Raise (ConnectionError "Connection closed")
  else
    status ← item resp 0;
    let resp := drop 1 resp in
    if decide (status = wire "not_found") then Ret VNone
    else if decide (status = wire "ok") then
      if member cmd REQUEST_FOR_NO_RESPONSE then Ret VNone
      else if member cmd REQUEST_FOR_INT_RESPONSE then
        r0 ← item resp 0; n ← py_int r0; Ret (VInt n)
      else if member cmd REQUEST_FOR_FLOAT_RESPONSE then
        r0 ← item resp 0;
        match py_float r0 with
        | Some f => Ret (VFloat f)
        | None => Raise ValueError
        end
      else if member cmd REQUEST_FOR_BYTE_RESPONSE then
        r0 ← item resp 0; Ret (VBytes r0)
      else if member cmd REQUEST_FOR_LIST_RESPONSE then Ret (VList resp)
      else if member cmd REQUEST_FOR_STR_MAP_RESPONSE then
        d ← to_str_map resp; Ret (VStrMap d)
      else if member cmd REQUEST_FOR_INT_MAP_RESPONSE then
        d ← to_int_map resp; Ret (VIntMap d)
      else if member cmd REQUEST_FOR_STR_MAP_SCAN_RESPONSE then
        '(n, d) ← to_str_map_for_scan resp; Ret (VStrScan n d)
      else if member cmd REQUEST_FOR_INT_MAP_SCAN_RESPONSE then
        '(n, d) ← to_int_map_for_scan resp; Ret (VIntScan n d)
      else Raise (RuntimeError (cmd ++ " is unknown command"))
    else
      text ← decode_utf8 status;
      Raise (RuntimeError text).

End Interpreter.

(** ** Notions used to state the properties of the interpreter *)

(** The pairs of a body: the blobs at even positions with the blobs that
    follow them. *)
Fixpoint pairs (body : list bytes) : list (bytes * bytes) :=
  match body with
  | k :: v :: rest => (k, v) :: pairs rest
  | _ => []
  end.


(** The dictionary filled with the pairs [ps] in order, each value shaped
    by [g]. *)
Definition build {V} (g : bytes -> V) (ps : list (bytes * bytes)) (acc : dict V)
    : dict V :=
  fold_left (fun d kv => dict_set (fst kv) (g (snd kv)) d) ps acc.

(** The keys in the order of their first occurrence. *)
Definition first_occurrences (ks : list bytes) : list bytes :=
  fold_left (fun acc k => if decide (k ∈ acc) then acc else acc ++ [k]) ks [].

(** The value that follows the last occurrence of [k]. *)
Definition last_value (k : bytes) (ps : list (bytes * bytes)) : option bytes :=
  fold_left (fun o kv => if decide (fst kv = k) then Some (snd kv) else o) ps None.

(** [cmd] belongs to one of the nine classes. *)
Definition known (cmd : string) : bool :=
  member cmd REQUEST_FOR_NO_RESPONSE
  || member cmd REQUEST_FOR_INT_RESPONSE
  || member cmd REQUEST_FOR_FLOAT_RESPONSE
  || member cmd REQUEST_FOR_BYTE_RESPONSE
  || member cmd REQUEST_FOR_LIST_RESPONSE
  || member cmd REQUEST_FOR_STR_MAP_RESPONSE
  || member cmd REQUEST_FOR_INT_MAP_RESPONSE
  || member cmd REQUEST_FOR_STR_MAP_SCAN_RESPONSE
  || member cmd REQUEST_FOR_INT_MAP_SCAN_RESPONSE.

End Response.

(** * State and exceptions

    A method runs on a state and ends as [res] says; the state it leaves
    behind is kept in every case, since what a Python method has written
    stays written when it raises. *)

Definition SM (S A : Type) : Type := S -> res A * S.

Definition sm_ret {S A} (a : A) : SM S A := fun s => (Ret a, s).

Definition sm_bind {S A B} (f : A -> SM S B) (m : SM S A) : SM S B :=
  fun s =>
    match m s with
    | (Ret a, s') => f a s'
    | (Raise e, s') => (Raise e, s')
    | (Undef, s') => (Undef, s')
    | (Hang, s') => (Hang, s')
    end.

#[global] Instance SM_mret {S} : MRet (SM S) := @sm_ret S.
#[global] Instance SM_mbind {S} : MBind (SM S) := @sm_bind S.

Definition raise {S A} (e : exn) : SM S A := fun s => (Raise e, s).
Definition lift_res {S A} (r : res A) : SM S A := fun s => (r, s).
Definition gets {S A} (f : S -> A) : SM S A := fun s => (Ret (f s), s).
Definition modify {S} (f : S -> S) : SM S unit := fun s => (Ret tt, f s).

(** [try: m  except <class>: h]: [handles e] tells whether the [except]
    clause catches [e]. *)
Definition try_except {S A} (m : SM S A) (handles : exn -> bool)
    (h : exn -> SM S A) : SM S A :=
  fun s =>
    match m s with
    | (Raise e, s') => if handles e then h e s' else (Raise e, s')
    | other => other
    end.

(** * The asyncio connection and pool ([ssdb/asyncio/connection.pyx]) *)

Module Conn.

(** ** The operating system and the network

    Each [await] on the socket is a question to the environment, answered
    by the next entry of [oracle]; with no entry left the call never
    completes.  [io_log] records the questions asked. *)
Inductive io :=
| Open (host : option string) (port : Z)
| Read (sock : nat) (n : Z) (wait : bool)
| Write (sock : nat) (body : bytes)
| Close (sock : nat).

Inductive answer :=
| Done (data : bytes)
| Fails (e : exn).

(** The keyword arguments kept by the pool and passed on to
    [Connection], a dict. *)
Definition kwargs := gmap string pyobj.

Record Connection := mkConnection {
  pid : Z;
  host : option string;
  port : Z;
  password : option string;
  socket_keepalive : bool;
  socket_recv_size : Z;
  parser : Parser.Reader;
  reader : option nat;
  writer : option nat;
  next_response : option (list bytes) }.

Definition set_parser (x : Connection) (p : Parser.Reader) : Connection :=
  mkConnection (pid x) (host x) (port x) (password x) (socket_keepalive x)
    (socket_recv_size x) p (reader x) (writer x) (next_response x).
Definition set_streams (x : Connection) (r w : option nat) : Connection :=
  mkConnection (pid x) (host x) (port x) (password x) (socket_keepalive x)
    (socket_recv_size x) (parser x) r w (next_response x).
Definition set_next_response (x : Connection) (f : option (list bytes))
    : Connection :=
  mkConnection (pid x) (host x) (port x) (password x) (socket_keepalive x)
    (socket_recv_size x) (parser x) (reader x) (writer x) f.

(** [conns] is the heap of [Connection] objects, named by their index. *)
Record Net := mkNet {
  conns : list Connection;
  oracle : list answer;
  getpid : Z;
  next_sock : nat;
  io_log : list io }.

Definition N := SM Net.

Definition get_conn (c : nat) : N Connection :=
  fun n => match conns n !! c with
           | Some x => (Ret x, n)
           | None => (Undef, n)
           end.

Definition update_conn (c : nat) (f : Connection -> Connection) : N unit :=
  fun n => (Ret tt, mkNet (alter f c (conns n)) (oracle n) (getpid n)
                      (next_sock n) (io_log n)).

Definition ask (q : io) : N bytes :=
  fun n =>
    match oracle n with
    | [] => (Hang, mkNet (conns n) [] (getpid n) (next_sock n) (io_log n ++ [q]))
    | a :: rest =>
        let n' := mkNet (conns n) rest (getpid n) (next_sock n) (io_log n ++ [q]) in
        match a with
        | Done d => (Ret d, n')
        | Fails e => (Raise e, n')
        end
    end.

Definition new_sock : N nat :=
  fun n => (Ret (next_sock n),
            mkNet (conns n) (oracle n) (getpid n) (S (next_sock n)) (io_log n)).

(** *** The arguments of [Connection.__init__]

    An argument declared [str] or [dict] takes an object of that type or
    [None]; one declared [int] is converted to a C [int]; one declared
    [bint] takes the truth value of any object.  No [pyobj] is a dict. *)
Definition PARAMETERS : list string :=
  ["host"; "port"; "password"; "socket_keepalive";
   "socket_keepalive_options"; "socket_recv_size"].

Definition arg_str (v : pyobj) : res (option string) :=
  match v with
  | PyStr s => Ret (Some s)
  | PyNone => Ret None
  | _ => Raise TypeError
  end.

Definition arg_int (v : pyobj) : res Z :=
  match v with
  | PyInt z =>
      if (- INT32_MAX - 1 <=? z) && (z <=? INT32_MAX) then Ret z
      else Raise OverflowError
  | PyBool b => Ret (if b then 1 else 0)
  | _ => Raise TypeError
  end.

Definition arg_bint (v : pyobj) : bool :=
  match v with
  | PyStr s => negb (String.eqb s "")
  | PyInt z => negb (z =? 0)
  | PyBool b => b
  | PyBytes b => negb (bool_decide (b = []))
  | PyNone => false
  | PyTuple items => negb (Nat.eqb (length items) 0)
  end.

Definition arg_dict (v : pyobj) : res unit :=
  match v with
  | PyNone => Ret tt
  | _ => Raise TypeError
  end.

Record arguments := mkArguments {
  arg_host : option string;
  arg_port : Z;
  arg_password : option string;
  arg_socket_keepalive : bool;
  arg_socket_recv_size : Z }.

(** Binding [**kwargs] to the parameters: a keyword that is no parameter
    is a [TypeError]; a parameter not given takes its default. *)
Definition bind_arguments (kw : kwargs) : res arguments :=
  if bool_decide (dom kw ⊆ list_to_set PARAMETERS) then
    port ← arg_int (default (PyInt 7036) (kw !! "port"));
    let keepalive := arg_bint (default (PyBool false) (kw !! "socket_keepalive")) in
    recv_size ← arg_int (default (PyInt 65536) (kw !! "socket_recv_size"));
    host ← arg_str (default (PyStr "localhost") (kw !! "host"));
    password ← arg_str (default PyNone (kw !! "password"));
    arg_dict (default PyNone (kw !! "socket_keepalive_options"));;
    Ret (mkArguments host port password keepalive recv_size)
  else Raise TypeError.

(** The constructor [Connection], given the dict [kw] as keyword
    arguments, in the process of [n].
    [socket_keepalive_options] only feeds [setsockopt] and is not kept. *)
Definition Connection_new (kw : kwargs) : N nat :=
  fun n =>
    match bind_arguments kw with
    | Ret a =>
        let x := mkConnection (getpid n) (arg_host a) (arg_port a)
                   (arg_password a) (arg_socket_keepalive a)
                   (arg_socket_recv_size a)
                   Parser.Reader_new None None None in
        (Ret (length (conns n)),
         mkNet (conns n ++ [x]) (oracle n) (getpid n) (next_sock n) (io_log n))
    | Raise e => (Raise e, n)
    | Undef => (Undef, n)
    | Hang => (Hang, n)
    end.

(** ** Connection *)

Definition is_connected (x : Connection) : bool :=
  bool_decide (reader x ≠ None) && bool_decide (writer x ≠ None).

(** An attribute of [None] ([self.reader.read], [self.writer.write]) *)
Definition attr {A} (o : option A) : N A :=
  match o with Some a => mret a | None => raise AttributeError end.

Definition parser_feed (c : nat) (d : bytes) : N Z :=
  x ← get_conn c;
  let '(r, p) := Parser.Reader_feed (parser x) d in
  update_conn c (fun x => set_parser x p);;
  lift_res r.

Definition parser_get (c : nat) : N (option (list bytes)) :=
  x ← get_conn c;
  let '(r, p) := Parser.Reader_get (parser x) in
  update_conn c (fun x => set_parser x p);;
  lift_res r.

Definition read_from_socket (c : nat) (wait : bool) : N bool :=
  try_except
    (x ← get_conn c;
     sock ← attr (reader x);
     d ← ask (Read sock (socket_recv_size x) wait);
     if bool_decide (d = []) then raise (ConnectionError "Server closed")
     else parser_feed c d;; mret true)
    (fun e => match e with TimeoutError => true | _ => false end)
    (fun _ => mret false).

Definition send_command (c : nat) (cmd : string) (args : pyobj) : N unit :=
  match args with
  | PyTuple items =>
      body ← lift_res (Encode.encode_command cmd items);
      x ← get_conn c;
      sock ← attr (writer x);
      ask (Write sock body);;
      mret tt
  | _ => raise TypeError
  end.

Fixpoint read_loop (fuel : nat) (c : nat) (resp : option (list bytes))
    : N (list bytes) :=
  match resp with
  | Some frame => mret frame
  | None =>
      match fuel with
      | O => lift_res Hang
      | S fuel' =>
          read_from_socket c true;;
          resp ← parser_get c;
          read_loop fuel' c resp
      end
  end.

(** Every turn of the [while] loop asks the environment once, so the
    loop cannot take more turns than the oracle has answers. *)
Definition read_response (c : nat) : N (list bytes) :=
  x ← get_conn c;
  match next_response x with
  | Some resp =>
      update_conn c (fun x => set_next_response x None);;
      mret resp
  | None =>
      resp ← parser_get c;
      fuel ← gets (fun n => S (length (oracle n)));
      read_loop fuel c resp
  end.

(** The handshake of [connect]: the reply is read and dropped. *)
Definition auth_reply (c : nat) : N unit :=
  try_except
    (read_response c;; mret tt)
    is_Exception
    (fun _ => raise (RuntimeError "Invalid password")).

(** The [setsockopt] calls of [connect] do not touch this state and are
    left out. *)
Definition connect (c : nat) : N unit :=
  x ← get_conn c;
  if is_connected x then mret tt
  else
    ask (Open (host x) (port x));;
    s ← new_sock;
    update_conn c (fun x => set_streams x (Some s) (Some s));;
    match password x with
    | Some pw =>
        send_command c "auth" (PyStr pw);;
        auth_reply c
    | None => mret tt
    end.

Definition disconnect (c : nat) : N unit :=
  x ← get_conn c;
  if negb (is_connected x) then mret tt
  else
    me ← gets getpid;
    (if bool_decide (me = pid x) then
       try_except
         (w ← attr (writer x); ask (Close w);; mret tt)
         is_OSError
         (fun _ => mret tt)
     else mret tt);;
    update_conn c (fun x => set_streams x None None).

Definition in_use (c : nat) : N bool :=
  x ← get_conn c;
  (if bool_decide (next_response x = None) then
     r ← parser_get c;
     update_conn c (fun x => set_next_response x r)
   else mret tt);;
  x ← get_conn c;
  if bool_decide (next_response x = None) then
    try_except
      (read_from_socket c false)
      is_Exception
      (fun e => disconnect c;; raise e)
  else mret true.

(** ** ConnectionPool *)

Record Pool := mkPool {
  pool_pid : Z;
  max_connections : Z;
  connection_kwargs : kwargs;
  created_connections : Z;
  available_connections : list nat;
  in_use_connections : gset nat }.

(** The calls that [get_connection] makes on its connection, with how
    each ended; [calls] is a record kept beside the program, which does not
    read it. *)
Inductive method := MConnect | MProbe | MDisconnect | MRelease.

Inductive ending :=
| Returned
| ReturnedBool (b : bool)
| Raised (e : exn)
| Crashed
| Stuck.

Record call := mkCall { what : method; target : nat; how : ending }.

Record State := mkState {
  pool : Pool;
  net : Net;
  calls : list call }.

Definition M := SM State.

Definition lift_net {A} (m : N A) : M A :=
  fun s =>
    let '(r, n) := m (net s) in
    (r, mkState (pool s) n (calls s)).

Definition modify_pool (f : Pool -> Pool) : M unit :=
  modify (fun s => mkState (f (pool s)) (net s) (calls s)).

Definition ending_of {A} (show : A -> ending) (r : res A) : ending :=
  match r with
  | Ret a => show a
  | Raise e => Raised e
  | Undef => Crashed
  | Hang => Stuck
  end.

Definition traced {A} (w : method) (c : nat) (show : A -> ending) (m : M A)
    : M A :=
  fun s =>
    let '(r, s') := m s in
    (r, mkState (pool s') (net s') (calls s' ++ [mkCall w c (ending_of show r)])).

Definition set_accounting (p : Pool) (created : Z) (available : list nat)
    (used : gset nat) : Pool :=
  mkPool (pool_pid p) (max_connections p) (connection_kwargs p) created
    available used.

(** [reset] also makes a new [asyncio.Lock]; the locks are not part of this
    state, a method body under [async with self.lock] runs in one piece. *)
Definition reset (p : Pool) : Pool := set_accounting p 0 [] ∅.

(** [ConnectionPool(max_connections, **connection_kwargs)] in the process
    [me]; [max_connections] is declared [int] and converted to a C [int]. *)
Definition ConnectionPool_new (me : Z) (max_conn : Z) (kw : kwargs)
    : res Pool :=
  if (- INT32_MAX - 1 <=? max_conn) && (max_conn <=? INT32_MAX) then
    Ret (reset (mkPool me (if 0 <? max_conn then max_conn else INT32_MAX)
                  kw 0 [] ∅))
  else Raise OverflowError.

(** Taking [fork_lock] is taken to succeed. *)
Definition checkpid : M unit :=
  me ← lift_net (gets getpid);
  p ← gets pool;
  if bool_decide (pool_pid p ≠ me) then
    p ← gets pool;
    if bool_decide (pool_pid p ≠ me) then modify_pool reset else mret tt
  else mret tt.

Definition owns_connection (p : Pool) (x : Connection) : bool :=
  bool_decide (pid x = pool_pid p).

Definition make_connection : M nat :=
  p ← gets pool;
  if max_connections p <=? created_connections p then
    raise (ConnectionError "Too many connections")
  else
    modify_pool (fun p => set_accounting p (created_connections p + 1)
                            (available_connections p) (in_use_connections p));;
    lift_net (Connection_new (connection_kwargs p)).

Definition release (c : nat) : M unit :=
  checkpid;;
  p ← gets pool;
  (if bool_decide (c ∈ in_use_connections p) then
     modify_pool (fun p => set_accounting p (created_connections p)
                             (available_connections p)
                             (in_use_connections p ∖ {[c]}))
   else mret tt);;
  x ← lift_net (get_conn c);
  p ← gets pool;
  if owns_connection p x then
    modify_pool (fun p => set_accounting p (created_connections p)
                            (available_connections p ++ [c])
                            (in_use_connections p))
  else
    modify_pool (fun p => set_accounting p (created_connections p - 1)
                            (available_connections p) (in_use_connections p));;
    lift_net (disconnect c).

(** [list.pop()] takes the last element. *)
Definition pop_last (l : list nat) : option (nat * list nat) :=
  match reverse l with
  | [] => None
  | c :: r => Some (c, reverse r)
  end.

(** The first block of [get_connection], under the lock. *)
Definition get_connection_locked : M nat :=
  checkpid;;
  p ← gets pool;
  c ← (if 0 <? Z.of_nat (length (available_connections p)) then
          match pop_last (available_connections p) with
          | Some (c, rest) =>
              modify_pool (fun p => set_accounting p (created_connections p)
                                      rest (in_use_connections p));;
              mret c
          | None => lift_res Undef
          end
        else make_connection);
  modify_pool (fun p => set_accounting p (created_connections p)
                          (available_connections p)
                          ({[c]} ∪ in_use_connections p));;
  mret c.

Definition show_unit (_ : unit) : ending := Returned.

(** The second block of [get_connection], outside the lock. *)
Definition get_connection_unlocked (c : nat) : M nat :=
  try_except
    (traced MConnect c show_unit (lift_net (connect c));;
     try_except
       (b ← traced MProbe c ReturnedBool (lift_net (in_use c));
        if b : bool then raise (ConnectionError "Connection in use") else mret tt)
       is_ConnectionError
       (fun _ =>
          traced MDisconnect c show_unit (lift_net (disconnect c));;
          traced MConnect c show_unit (lift_net (connect c));;
          b ← traced MProbe c ReturnedBool (lift_net (in_use c));
          if b : bool then raise (ConnectionError "Connection not ready")
          else mret tt))
    is_Exception
    (fun e => traced MRelease c show_unit (release c);; raise e);;
  mret c.

Definition get_connection : M nat :=
  c ← get_connection_locked;
  get_connection_unlocked c.

(** [asyncio.gather(..., return_exceptions=True)] over
    [chain(available, in_use)]: the disconnects are run in that order and
    what each raised is collected. *)
Fixpoint gather_disconnect (cs : list nat) : M (list (option exn)) :=
  match cs with
  | [] => mret []
  | c :: cs' =>
      fun s =>
        match lift_net (disconnect c) s with
        | (Ret _, s') => (r ← gather_disconnect cs'; mret (None :: r)) s'
        | (Raise e, s') => (r ← gather_disconnect cs'; mret (Some e :: r)) s'
        | (Undef, s') => (Undef, s')
        | (Hang, s') => (Hang, s')
        end
  end.

Fixpoint first_exception (l : list (option exn)) : option exn :=
  match l with
  | [] => None
  | Some e :: l' => if is_Exception e then Some e else first_exception l'
  | None :: l' => first_exception l'
  end.

Definition Pool_disconnect : M unit :=
  checkpid;;
  p ← gets pool;
  resp ← gather_disconnect
           (available_connections p ++ elements (in_use_connections p));
  match first_exception resp with
  | Some e => raise e
  | None => mret tt
  end.

(** ** Notions used to state the properties of the pool *)

(** The accounting of the pool. *)
Definition accounted (p : Pool) : Prop :=
  created_connections p
  = Z.of_nat (length (available_connections p))
    + Z.of_nat (size (in_use_connections p))
  /\ created_connections p <= max_connections p
  /\ (forall c, c ∈ available_connections p -> c ∉ in_use_connections p).

(** What the coroutines do to the pool and its connections, one piece at
    a time: a whole [get_connection], or its two blocks apart (other
    coroutines run between them), a [release], a [disconnect] of the pool,
    and the methods of a connection, which the second block of a lease and
    the holder of a lease call. *)
Inductive op :=
| Lease
| LeaseLocked
| LeaseUnlocked (c : nat)
| Release (c : nat)
| DisconnectAll
| Connect (c : nat)
| Probe (c : nat)
| Disconnect (c : nat)
| Send (c : nat) (cmd : string) (args : pyobj)
| Receive (c : nat).

Definition step_op (o : op) (s : State) : State :=
  match o with
  | Lease => snd (get_connection s)
  | LeaseLocked => snd (get_connection_locked s)
  | LeaseUnlocked c => snd (get_connection_unlocked c s)
  | Release c => snd (release c s)
  | DisconnectAll => snd (Pool_disconnect s)
  | Connect c => snd (lift_net (connect c) s)
  | Probe c => snd (lift_net (in_use c) s)
  | Disconnect c => snd (lift_net (disconnect c) s)
  | Send c cmd args => snd (lift_net (send_command c cmd args) s)
  | Receive c => snd (lift_net (read_response c) s)
  end.

Definition run (ops : list op) (s : State) : State :=
  fold_left (fun s o => step_op o s) ops s.

(** [release] and the second block of [get_connection] are given a
    connection that is on lease at that moment. *)
Definition on_lease (o : op) (s : State) : Prop :=
  match o with
  | Release c | LeaseUnlocked c => c ∈ in_use_connections (pool s)
  | _ => True
  end.


(** The keyword arguments are ones that [Connection] takes. *)
Definition accepted (kw : kwargs) : Prop :=
  exists a, bind_arguments kw = Ret a.

(** The pool [p] just constructed, with the network state [n]. *)
Definition fresh_state (p : Pool) (n : Net) : State := mkState p n [].

(** The network state after some calls: the same process, the connections
    still there with the [pid] they had. *)
Definition net_le (n n' : Net) : Prop :=
  getpid n' = getpid n
  /\ forall c x, conns n !! c = Some x ->
       exists x', conns n' !! c = Some x' /\ pid x' = pid x.

(** What holds between two pieces of a pool made for at most [limit]
    connections. *)
Definition pool_inv (limit : Z) (s : State) : Prop :=
  max_connections (pool s) = limit
  /\ accounted (pool s)
  /\ NoDup (available_connections (pool s))
  /\ pool_pid (pool s) = getpid (net s)
  /\ accepted (connection_kwargs (pool s))
  /\ forall c, c ∈ available_connections (pool s) \/ c ∈ in_use_connections (pool s) ->
       exists x, conns (net s) !! c = Some x /\ pid x = pool_pid (pool s).

(** A method of [Connection] leaves the process and the [pid]s alone. *)
Definition stable {A} (m : N A) : Prop := forall n, net_le n (snd (m n)).

(** A piece that leaves the pool's fields alone. *)
Definition quiet {A} (m : M A) : Prop :=
  forall s, pool (snd (m s)) = pool s /\ net_le (net s) (net (snd (m s))).

(** A piece that does not write to the record of calls. *)
Definition silent {A} (m : M A) : Prop := forall s, calls (snd (m s)) = calls s.

(** ** The calls of a lease *)

(** The first probe asks for a reconnect: it reported data, or raised a
    [ConnectionError]. *)
Definition asks_reconnect (h : ending) : bool :=
  match h with
  | ReturnedBool true => true
  | Raised e => is_ConnectionError e
  | _ => false
  end.

(** What the lease raises once [release] has been called for the
    exception [e]: [e] again, unless [release] did not return. *)
Definition after_release {A} (h : ending) (e : exn) : res A :=
  match h with
  | Raised e' => Raise e'
  | Crashed => Undef
  | Stuck => Hang
  | _ => Raise e
  end.

(** A call of the lease that did not return: an [Exception] is caught,
    the connection released and the exception raised again; anything else
    ends the lease on the spot. *)
Inductive aborts (c : nat) : ending -> list call -> res nat -> Prop :=
| aborts_exception e h :
    is_Exception e = true ->
    aborts c (Raised e) [mkCall MRelease c h] (after_release h e)
| aborts_other e :
    is_Exception e = false -> aborts c (Raised e) [] (Raise e)
| aborts_crashed : aborts c Crashed [] Undef
| aborts_stuck : aborts c Stuck [] Hang.

(** The one reconnect: disconnect, connect, probe again. *)
Inductive reconnects (c : nat) : list call -> res nat -> Prop :=
| reconnect_disconnect_fails h t r :
    aborts c h t r -> reconnects c (mkCall MDisconnect c h :: t) r
| reconnect_connect_fails h t r :
    aborts c h t r ->
    reconnects c (mkCall MDisconnect c Returned :: mkCall MConnect c h :: t) r
| reconnect_probe_fails h t r :
    aborts c h t r ->
    reconnects c (mkCall MDisconnect c Returned :: mkCall MConnect c Returned
                  :: mkCall MProbe c h :: t) r
| reconnect_ready :
    reconnects c [mkCall MDisconnect c Returned; mkCall MConnect c Returned;
                  mkCall MProbe c (ReturnedBool false)] (Ret c)
| reconnect_not_ready h :
    reconnects c [mkCall MDisconnect c Returned; mkCall MConnect c Returned;
                  mkCall MProbe c (ReturnedBool true); mkCall MRelease c h]
      (after_release h (ConnectionError "Connection not ready")).

(** The calls of the second block of [get_connection] and its result. *)
Inductive lease_calls (c : nat) : list call -> res nat -> Prop :=
| lease_connect_fails h t r :
    aborts c h t r -> lease_calls c (mkCall MConnect c h :: t) r
| lease_idle :
    lease_calls c [mkCall MConnect c Returned;
                   mkCall MProbe c (ReturnedBool false)] (Ret c)
| lease_probe_fails h t r :
    asks_reconnect h = false -> aborts c h t r ->
    lease_calls c (mkCall MConnect c Returned :: mkCall MProbe c h :: t) r
| lease_reconnects h t r :
    asks_reconnect h = true -> reconnects c t r ->
    lease_calls c (mkCall MConnect c Returned :: mkCall MProbe c h :: t) r.

(** ** Example states *)

(** A process with no connection yet, to which the network will give the
    answers [answers]. *)
Definition net0 (answers : list answer) : Net := mkNet [] answers 100 0 [].

(** A pool of at most [max_conn] connections made with the keyword
    arguments [kw], just constructed. *)
Definition pool0 (max_conn : Z) (kw : kwargs) : Pool :=
  match ConnectionPool_new 100 max_conn kw with
  | Ret p => p
  | _ => mkPool 100 0 kw 0 [] ∅
  end.

(** The network accepts the connection and then stays silent: the probe
    times out, the connection is idle. *)
Definition answers_idle : list answer := [Done []; Fails TimeoutError].

(** Keyword arguments with one that [Connection] does not take. *)
Definition kw_unknown : kwargs := {["hostname" := PyStr "db"]}.

(** Keyword arguments with a password. *)
Definition kw_password : kwargs := {["password" := PyStr "secret"]}.

End Conn.

(** * Notions used to state further properties *)

(** ** The wire format *)

Module Wire.
Import Parser Encode.

(** The bytes of the memory [m] from [ptr] up to [e]. *)
Definition seen (m : bytes) (ptr e : Z) : bytes :=
  take (Z.to_nat (e - ptr)) (drop (Z.to_nat ptr) m).

(** A line of a frame ends with a line feed, which a carriage return may
    precede. *)
Inductive eol := Lf | CrLf.

Definition eol_bytes (e : eol) : bytes :=
  match e with Lf => [LF] | CrLf => [CR; LF] end.

Definition cr (e : eol) : bytes := match e with Lf => [] | CrLf => [CR] end.

(** A blob on the wire: its length in decimal, the end of that line, the
    blob, the end of its line. *)
Definition blob_wire (t : bytes) (e1 e2 : eol) : bytes :=
  decimal_ascii (length t) ++ eol_bytes e1 ++ t ++ eol_bytes e2.

(** A frame on the wire: its blobs and an empty line. *)
Fixpoint frame_wire (blobs : list (bytes * eol * eol)) (last : eol) : bytes :=
  match blobs with
  | [] => eol_bytes last
  | (t, e1, e2) :: blobs' => blob_wire t e1 e2 ++ frame_wire blobs' last
  end.

Definition tokens_of (blobs : list (bytes * eol * eol)) : list bytes :=
  map (fun b => b.1.1) blobs.




End Wire.

(** ** States of the network after a step *)

Module Steps.
Import Conn.

(** The state with the connection [c] changed by [f]. *)
Definition with_conn (n : Net) (c : nat) (f : Connection -> Connection) : Net :=
  mkNet (alter f c (conns n)) (oracle n) (getpid n) (next_sock n) (io_log n).

(** The state after the question [q] has got its answer. *)
Definition asked (n : Net) (q : io) : Net :=
  mkNet (conns n) (tl (oracle n)) (getpid n) (next_sock n) (io_log n ++ [q]).

(** From [n] to [n']: the same process, the connections still there with
    the [pid] they had, and none that was closed is open. *)
Definition stays_closed (n n' : Net) : Prop :=
  getpid n' = getpid n
  /\ forall c x, conns n !! c = Some x ->
       exists x', conns n' !! c = Some x' /\ pid x' = pid x
                  /\ (is_connected x = false -> is_connected x' = false).

(** A connection of the process 100 on the socket 0, with the bytes [d] fed
    to its parser. *)
Definition link0 (d : bytes) : Connection :=
  mkConnection 100 (Some "localhost"%string) 7036 None false 65536
    (snd (Parser.Reader_feed Parser.Reader_new d)) (Some 0%nat) (Some 0%nat) None.

(** The process [me] with that connection alone, to which the network
    will give the answers [answers]. *)
Definition net1 (me : Z) (d : bytes) (answers : list answer) : Net :=
  mkNet [link0 d] answers me 1 [].

End Steps.

(** * The asyncio client ([ssdb/asyncio/client.pyx]) *)

(** [try: m  finally: f]: [f] runs however [m] ends; when [f] raises, its
    exception replaces what [m] returned or raised. *)
Definition try_finally {S A} (m : SM S A) (f : SM S unit) : SM S A :=
  fun s =>
    match m s with
    | (Ret a, s') =>
        match f s' with
        | (Ret _, s'') => (Ret a, s'')
        | (Raise e, s'') => (Raise e, s'')
        | (Undef, s'') => (Undef, s'')
        | (Hang, s'') => (Hang, s'')
        end
    | (Raise e, s') =>
        match f s' with
        | (Ret _, s'') => (Raise e, s'')
        | (Raise e', s'') => (Raise e', s'')
        | (Undef, s'') => (Undef, s'')
        | (Hang, s'') => (Hang, s'')
        end
    | other => other
    end.

(** [m], run from a state of [P], ends in [Q] when it returns and in [R]
    when it does not. *)
Definition triple {S A} (P : S -> Prop) (m : SM S A) (Q : A -> S -> Prop)
    (R : S -> Prop) : Prop :=
  forall s, P s ->
    match m s with
    | (Ret a, s') => Q a s'
    | (_, s') => R s'
    end.

Module Client.
Import Conn.

(** [self.connection_pool] and the network it works on are the [State]. *)
Record SSDB := mkSSDB {
  connection : option nat;
  single_connection_client : bool;
  world : State }.

Definition K := SM SSDB.

Definition lift_pool {A} (m : M A) : K A :=
  fun k =>
    let '(r, s) := m (world k) in
    (r, mkSSDB (connection k) (single_connection_client k) s).

Definition set_connection (o : option nat) : K unit :=
  modify (fun k => mkSSDB o (single_connection_client k) (world k)).

(** [SSDB(host, port, password, ...)] in the process of [n], every
    argument given.  The typed arguments are converted as those of
    [Connection] are; [password] is checked and not used. *)
Definition SSDB_new (host port password socket_keepalive
    socket_keepalive_options socket_recv_size max_connections
    single_connection_client : pyobj) (n : Net) : res SSDB :=
  port ← arg_int port;
  let socket_keepalive := arg_bint socket_keepalive in
  socket_recv_size ← arg_int socket_recv_size;
  max_connections ← arg_int max_connections;
  let single_connection_client := arg_bint single_connection_client in
  arg_str host;;
  arg_str password;;
  arg_dict socket_keepalive_options;;
  let connection_kwargs : kwargs :=
    <["host" := host]>
      (<["port" := PyInt port]>
         (<["socket_recv_size" := PyInt socket_recv_size]>
            (<["socket_keepalive" := PyBool socket_keepalive]>
               (<["socket_keepalive_options" := socket_keepalive_options]> ∅)))) in
  p ← ConnectionPool_new (getpid n) max_connections connection_kwargs;
  Ret (mkSSDB None single_connection_client (mkState p n [])).

Definition initialize : K unit :=
  k ← gets id;
  if single_connection_client k && bool_decide (connection k = None) then
    c ← lift_pool get_connection;
    set_connection (Some c)
  else mret tt.

Definition close : K unit :=
  k ← gets id;
  match connection k with
  | Some conn =>
      set_connection None;;
      lift_pool (release conn)
  | None => mret tt
  end;;
  lift_pool Pool_disconnect.

Section Interpreter.
Context {pyfloat : Type} (py_float : bytes -> option pyfloat).

Definition execute_command (cmd : string) (args : list pyobj)
    : K (Response.pyval (pyfloat := pyfloat)) :=
  initialize;;
  k ← gets id;
  conn ← match connection k with
         | Some c => mret c
         | None => lift_pool get_connection
         end;
  lift_pool (lift_net (send_command conn cmd (PyTuple args)));;
  try_finally
    (frame ← lift_pool (lift_net (read_response conn));
     lift_res (Response.wrap_response py_float cmd frame))
    (k ← gets id;
     if bool_decide (connection k = None) then lift_pool (release conn)
     else mret tt).

End Interpreter.

(** A client of the process 100 just constructed, with a password given,
    to which the network will give the answers [answers]. *)
Definition client0 (single : bool) (answers : list answer) : SSDB :=
  match SSDB_new (PyStr "localhost") (PyInt 7036) (PyStr "secret")
          (PyBool false) PyNone (PyInt 65536) (PyInt 0) (PyBool single)
          (net0 answers) with
  | Ret k => k
  | _ => mkSSDB None single (fresh_state (pool0 0 ∅) (net0 answers))
  end.

(** The client holds its pinned connection on lease. *)
Definition client_inv (limit : Z) (k : SSDB) : Prop :=
  pool_inv limit (world k)
  /\ forall c, connection k = Some c -> c ∈ in_use_connections (pool (world k)).

(** The same, with the connection [c] on lease. *)
Definition leased (limit : Z) (c : nat) (k : SSDB) : Prop :=
  client_inv limit k /\ c ∈ in_use_connections (pool (world k)).

End Client.


(** * Properties of the wire parser *)

Module ParserFacts.
Import Parser.

Tactic Notation "res_simpl" := cbn [mbind mret res_mbind res_mret res_bind].
Tactic Notation "res_simpl" "in" hyp(H) :=
  cbn [mbind mret res_mbind res_mret res_bind] in H.

(** ** Wrap-around *)

Lemma wrap_int_small z : - 2 ^ 31 <= z < 2 ^ 31 -> wrap_int z = z.
Proof.
  intros H. unfold wrap_int, wrap_signed.
  rewrite Z.mod_small; [lia|]. change (2 ^ (32 - 1)) with (2 ^ 31).
  change (2 ^ 32) with (2 * 2 ^ 31). lia.
Qed.

Lemma wrap_long_small z : - 2 ^ 63 <= z < 2 ^ 63 -> wrap_long z = z.
Proof.
  intros H. unfold wrap_long, wrap_signed.
  rewrite Z.mod_small; [lia|]. change (2 ^ (64 - 1)) with (2 ^ 63).
  change (2 ^ 64) with (2 * 2 ^ 63). lia.
Qed.

Lemma wrap_size_t_small z : 0 <= z < 2 ^ 64 -> wrap_size_t z = z.
Proof. intros H. unfold wrap_size_t. apply Z.mod_small, H. Qed.

Lemma wrap_int_range z : - 2 ^ 31 <= wrap_int z < 2 ^ 31.
Proof.
  unfold wrap_int, wrap_signed. change (2 ^ (32 - 1)) with (2 ^ 31).
  pose proof (Z.mod_pos_bound (z + 2 ^ 31) (2 ^ 32) ltac:(lia)).
  change (2 ^ 32) with (2 * 2 ^ 31) in *. lia.
Qed.

(** A sum of two [int]s that does not fit wraps to a negative number. *)
Lemma wrap_int_add a b :
  0 <= a < 2 ^ 31 -> 0 <= b < 2 ^ 31 ->
  (a + b < 2 ^ 31 /\ wrap_int (a + b) = a + b)
  \/ (2 ^ 31 <= a + b /\ wrap_int (a + b) = a + b - 2 ^ 32).
Proof.
  intros Ha Hb. destruct (Z_lt_le_dec (a + b) (2 ^ 31)) as [H|H].
  - left. split; [exact H|]. apply wrap_int_small. lia.
  - right. split; [exact H|]. unfold wrap_int, wrap_signed.
    change (2 ^ (32 - 1)) with (2 ^ 31).
    replace (a + b + 2 ^ 31) with ((a + b - 2 ^ 31) + 1 * 2 ^ 32) by lia.
    rewrite Z.mod_add by lia. rewrite Z.mod_small; lia.
Qed.

(** ** The doubling loop *)

Lemma grow_loop_zero fuel sz : 0 < sz -> grow_loop fuel 0 sz = Hang.
Proof.
  intros H. induction fuel as [|fuel IH]; [reflexivity|].
  cbn [grow_loop]. replace (0 <? sz) with true by (symmetry; apply Z.ltb_lt, H).
  exact IH.
Qed.

Lemma grow_loop_pos fuel c sz :
  0 < c -> sz <= c * 2 ^ Z.of_nat fuel -> c * 2 ^ Z.of_nat fuel < 2 ^ 64 ->
  exists c', grow_loop (S fuel) c sz = Ret c'
             /\ sz <= c' /\ c <= c' /\ (c' = c \/ c' < 2 * sz).
Proof.
  revert c. induction fuel as [|fuel IH]; intros c Hc Hsz Hmax.
  - exists c. cbn [grow_loop]. change (2 ^ Z.of_nat 0) with 1 in *.
    replace (c <? sz) with false by (symmetry; apply Z.ltb_ge; lia).
    split; [reflexivity|lia].
  - rewrite Nat2Z.inj_succ, Z.pow_succ_r in * by lia.
    assert (1 <= 2 ^ Z.of_nat fuel) by (pose proof (Z.pow_pos_nonneg 2 (Z.of_nat fuel)); lia).
    remember (S fuel) as f eqn:Ef. cbn [grow_loop]. subst f.
    destruct (c <? sz) eqn:E.
    + apply Z.ltb_lt in E. rewrite wrap_size_t_small by nia.
      destruct (IH (c * 2)) as (c' & Hr & H1 & H2 & H3); [lia|nia|nia|].
      exists c'. split; [exact Hr|]. lia.
    + apply Z.ltb_ge in E. exists c. split; [reflexivity|lia].
Qed.

Lemma grow_loop_more fuel c sz c' :
  grow_loop fuel c sz = Ret c' -> grow_loop (S fuel) c sz = Ret c'.
Proof.
  revert c. induction fuel as [|fuel IH]; intros c H; [discriminate|].
  cbn [grow_loop] in H. remember (S fuel) as f. cbn [grow_loop]. subst f.
  destruct (c <? sz); [apply IH, H|exact H].
Qed.

Lemma grow_loop_res fuel c sz :
  (exists c', grow_loop fuel c sz = Ret c') \/ grow_loop fuel c sz = Hang.
Proof.
  revert c. induction fuel as [|fuel IH]; intros c; [by right|].
  cbn [grow_loop]. destruct (c <? sz); [apply IH|left; eauto].
Qed.

Lemma doubled_spec n c : doubled (S n) c = (c * 2 ^ Z.of_nat (S n)) mod 2 ^ 64.
Proof.
  revert c. induction n as [|n IH]; intros c.
  - cbn [doubled]. unfold wrap_size_t. f_equal.
  - change (doubled (S (S n)) c) with (doubled (S n) (wrap_size_t (c * 2))).
    rewrite IH. unfold wrap_size_t.
    rewrite (Nat2Z.inj_succ (S n)), (Z.pow_succ_r _ (Z.of_nat (S n))) by lia.
    rewrite Z.mul_mod_idemp_l by lia. f_equal. lia.
Qed.

Lemma doubled_64 c : doubled 64 c = 0.
Proof.
  rewrite (doubled_spec 63 c).
  change (2 ^ Z.of_nat 64) with (2 ^ 64). apply Z.mod_mul. lia.
Qed.

Lemma grow_loop_hang_split n m c sz :
  grow_loop n c sz = Hang -> grow_loop (n + m) c sz = grow_loop m (doubled n c) sz.
Proof.
  revert c. induction n as [|n IH]; intros c H; [reflexivity|].
  cbn [grow_loop Nat.add doubled] in *.
  destruct (c <? sz); [apply IH, H|discriminate].
Qed.

(** A loop that has not stopped within [GROW_FUEL] tests never stops. *)
Lemma grow_loop_fuel_exact c sz :
  grow_loop GROW_FUEL c sz = Hang -> forall fuel, grow_loop fuel c sz = Hang.
Proof.
  intros H fuel.
  assert (H64 : grow_loop 64 c sz = Hang).
  { destruct (grow_loop_res 64 c sz) as [[c' Hc]|Hh]; [|exact Hh].
    apply grow_loop_more in Hc. unfold GROW_FUEL in H. congruence. }
  assert (Hsz : 0 < sz).
  { pose proof (grow_loop_hang_split 64 1 c sz H64) as Hs.
    change (64 + 1)%nat with GROW_FUEL in Hs. rewrite H, doubled_64 in Hs.
    cbn [grow_loop] in Hs. destruct (0 <? sz) eqn:E; [|discriminate].
    apply Z.ltb_lt, E. }
  destruct (Nat.le_gt_cases 64 fuel) as [Hle|Hgt].
  - replace fuel with (64 + (fuel - 64))%nat by lia.
    rewrite (grow_loop_hang_split 64 _ c sz H64), doubled_64.
    apply grow_loop_zero, Hsz.
  - destruct (grow_loop_res fuel c sz) as [[c' Hc]|Hh]; [|exact Hh].
    exfalso. assert (Hm : forall k, grow_loop (fuel + k) c sz = Ret c').
    { induction k as [|k IHk]; [by rewrite Nat.add_0_r|].
      rewrite Nat.add_succ_r. apply grow_loop_more, IHk. }
    specialize (Hm (64 - fuel)%nat). replace (fuel + (64 - fuel))%nat with 64%nat in Hm by lia.
    congruence.
Qed.

(** ** Reads *)

Lemma peek_ok mem p :
  0 <= p < Z.of_nat (length mem) -> exists b, peek mem p = Ret b.
Proof.
  intros H. unfold peek.
  replace (p <? 0) with false by (symmetry; apply Z.ltb_ge; lia).
  destruct (mem !! Z.to_nat p) as [b|] eqn:E; [eexists; reflexivity|].
  apply lookup_ge_None_1 in E. lia.
Qed.

Lemma peek_agree e m1 m2 p :
  agree e m1 m2 -> 0 <= p < e -> peek m1 p = peek m2 p.
Proof.
  intros Ha H. unfold peek.
  rewrite <- (lookup_take_lt m1 (Z.to_nat e)) by lia.
  rewrite <- (lookup_take_lt m2 (Z.to_nat e)) by lia.
  rewrite Ha. reflexivity.
Qed.

Lemma peek_neg mem p : p < 0 -> peek mem p = Undef.
Proof.
  intros H. unfold peek.
  replace (p <? 0) with true by (symmetry; apply Z.ltb_lt; lia). reflexivity.
Qed.

Lemma slice_ok mem p n :
  0 <= p -> 0 <= n -> p + n <= Z.of_nat (length mem) ->
  slice mem p n = Ret (take (Z.to_nat n) (drop (Z.to_nat p) mem)).
Proof.
  intros Hp Hn H. unfold slice.
  replace (p <? 0) with false by (symmetry; apply Z.ltb_ge; lia).
  replace (n <? 0) with false by (symmetry; apply Z.ltb_ge; lia).
  replace (Z.of_nat (length mem) <? p + n) with false
    by (symmetry; apply Z.ltb_ge; lia).
  reflexivity.
Qed.

Lemma take_under (m : bytes) (k e : nat) :
  (k <= e)%nat -> take k m = take k (take e m).
Proof. intros H. rewrite take_take. f_equal. lia. Qed.

Lemma take_drop_agree e (m1 m2 : bytes) p n :
  agree e m1 m2 -> 0 <= p -> 0 <= n -> p + n <= e ->
  take (Z.to_nat n) (drop (Z.to_nat p) m1)
  = take (Z.to_nat n) (drop (Z.to_nat p) m2).
Proof.
  intros Ha Hp Hn H. rewrite !take_drop_commute.
  rewrite (take_under m1 _ (Z.to_nat e)), (take_under m2 _ (Z.to_nat e)) by lia.
  unfold agree in Ha. rewrite Ha. reflexivity.
Qed.

Lemma slice_agree e m1 m2 p n :
  agree e m1 m2 -> 0 <= p -> 0 <= n -> p + n <= e ->
  e <= Z.of_nat (length m1) -> e <= Z.of_nat (length m2) ->
  slice m1 p n = slice m2 p n.
Proof.
  intros Ha Hp Hn H H1 H2. rewrite !slice_ok by lia.
  f_equal. eapply take_drop_agree; eauto.
Qed.

Lemma agree_le e e' (m1 m2 : bytes) : agree e m1 m2 -> e' <= e -> agree e' m1 m2.
Proof.
  unfold agree. intros Ha H.
  rewrite (take_under m1 _ (Z.to_nat e)), (take_under m2 _ (Z.to_nat e)) by lia.
  rewrite Ha. reflexivity.
Qed.

(** [memchr] on an in-range span: the first [c], if there is one. *)
Lemma memchr_spec mem c n : forall p,
  0 <= p -> p + Z.of_nat n <= Z.of_nat (length mem) ->
  (memchr mem p c n = Ret None)
  \/ (exists q, memchr mem p c n = Ret (Some q)
                /\ p <= q < p + Z.of_nat n /\ peek mem q = Ret c).
Proof.
  induction n as [|n IH]; intros p Hp Hlen; [by left|].
  cbn [memchr]. destruct (peek_ok mem p ltac:(lia)) as [b Hb].
  rewrite Hb. res_simpl. destruct (b =? c) eqn:E.
  - right. exists p. apply Z.eqb_eq in E. subst b. split; [reflexivity|]. split; [lia|exact Hb].
  - destruct (IH (p + 1)) as [->|(q & -> & Hq & Hc)]; [lia|lia|by left|].
    right. exists q. split; [reflexivity|]. split; [lia|exact Hc].
Qed.

(** What [memchr] finds in a shorter span, from what it finds in a longer
    one over the same bytes. *)
Lemma memchr_restrict m1 m2 e1 c n1 : forall p n2,
  agree e1 m1 m2 -> 0 <= p -> p + Z.of_nat n1 = e1 -> (n1 <= n2)%nat ->
  e1 <= Z.of_nat (length m1) -> p + Z.of_nat n2 <= Z.of_nat (length m2) ->
  match memchr m2 p c n2 with
  | Ret (Some q) =>
      p <= q /\ memchr m1 p c n1 = Ret (if q <? e1 then Some q else None)
  | Ret None => memchr m1 p c n1 = Ret None
  | _ => False
  end.
Proof.
  induction n1 as [|n1 IH]; intros p n2 Ha Hp He Hn H1 H2.
  - destruct (memchr_spec m2 c n2 p Hp H2) as [->|(q & -> & Hq & _)]; [reflexivity|].
    split; [lia|]. cbn [memchr].
    replace (q <? e1) with false by (symmetry; apply Z.ltb_ge; lia). reflexivity.
  - destruct n2 as [|n2]; [lia|]. cbn [memchr].
    rewrite (peek_agree e1 m1 m2 p Ha) by lia.
    destruct (peek_ok m2 p ltac:(lia)) as [b Hb]. rewrite Hb. res_simpl.
    destruct (b =? c).
    + split; [lia|]. replace (p <? e1) with true by (symmetry; apply Z.ltb_lt; lia).
      reflexivity.
    + specialize (IH (p + 1) n2 Ha ltac:(lia) ltac:(lia) ltac:(lia) H1 ltac:(lia)).
      destruct (memchr m2 (p + 1) c n2) as [[q|]| | |]; try exact IH.
      destruct IH as [Hq IH]. split; [lia|exact IH].
Qed.


Lemma peek_rd (mem : bytes) p :
  0 <= p < Z.of_nat (length mem) -> peek mem p = Ret (rd mem p).
Proof.
  intros H. unfold peek, rd.
  replace (p <? 0) with false by (symmetry; apply Z.ltb_ge; lia).
  destruct (mem !! Z.to_nat p) as [b|] eqn:E; [reflexivity|].
  apply lookup_ge_None_1 in E. lia.
Qed.

Lemma rd_agree e (m1 m2 : bytes) p :
  agree e m1 m2 -> 0 <= p < e -> rd m1 p = rd m2 p.
Proof.
  intros Ha H. unfold rd.
  rewrite <- (lookup_take_lt m1 (Z.to_nat e)) by lia.
  rewrite <- (lookup_take_lt m2 (Z.to_nat e)) by lia.
  rewrite Ha. reflexivity.
Qed.

Ltac btrue b := replace b with true by (symmetry; first [apply Z.ltb_lt | apply Z.leb_le | apply Z.eqb_eq]; lia).
Ltac bfalse b := replace b with false by (symmetry; first [apply Z.ltb_ge | apply Z.leb_gt | apply Z.eqb_neq]; lia).

(** ** One turn of the loop with its reads in range *)
Lemma parse_step_eval (m : bytes) e ptr q :
  0 <= ptr -> ptr <= q < e -> e <= Z.of_nat (length m) -> e <= 2 * BUF_MAX_SIZE ->
  memchr m ptr LF (Z.to_nat (e - ptr)) = Ret (Some q) ->
  parse_step m e ptr (e - ptr) = blob_step m e ptr q.
Proof.
  intros Hptr Hq Hlen Hmax Hm. unfold BUF_MAX_SIZE in Hmax.
  unfold parse_step, blob_step. rewrite Hm. res_simpl.
  rewrite (wrap_int_small (q + 1 - ptr)) by lia.
  rewrite (wrap_size_t_small (q + 1)) by lia.
  destruct (q + 1 - ptr =? 1) eqn:Ed1; [reflexivity|].
  rewrite (peek_rd m ptr) by lia. res_simpl.
  destruct ((q + 1 - ptr =? 2) && (rd m ptr =? CR)); [reflexivity|].
  destruct ((rd m ptr <? 48) || (57 <? rd m ptr)); [reflexivity|].
  destruct (19 <? q + 1 - ptr) eqn:Ed19; [reflexivity|].
  apply Z.ltb_ge in Ed19. apply Z.eqb_neq in Ed1.
  rewrite slice_ok by lia. res_simpl.
  set (sz := atoi _).
  destruct (sz <? 0) eqn:Esz; [reflexivity|]. apply Z.ltb_ge in Esz.
  pose proof (wrap_int_range (strtol (take (Z.to_nat (q + 1 - ptr - 1)) (drop (Z.to_nat ptr) m)))) as Hsz.
  fold (atoi (take (Z.to_nat (q + 1 - ptr - 1)) (drop (Z.to_nat ptr) m))) in Hsz.
  fold sz in Hsz.
  destruct (wrap_int_add (q + 1 - ptr) sz ltac:(lia) ltac:(lia)) as [[Hs Hw]|[Hs Hw]];
    rewrite Hw.
  - (* the sum fits *)
    bfalse (2 ^ 31 <=? q + 1 - ptr + sz).
    rewrite (wrap_long_small (e - ptr - (q + 1 - ptr + sz))) by lia.
    replace (ptr + (q + 1 - ptr + sz)) with (q + 1 + sz) by lia.
    destruct (e <? q + 1 + sz) eqn:Ee.
    + apply Z.ltb_lt in Ee. btrue (e - ptr - (q + 1 - ptr + sz) <? 0). reflexivity.
    + apply Z.ltb_ge in Ee. bfalse (e - ptr - (q + 1 - ptr + sz) <? 0).
      cbn [orb]. unfold terminator.
      destruct (q + 1 + sz <? e) eqn:Ep.
      * apply Z.ltb_lt in Ep. btrue (1 <=? e - ptr - (q + 1 - ptr + sz)).
        rewrite (peek_rd m (q + 1 + sz)) by lia. res_simpl.
        destruct (rd m (q + 1 + sz) =? LF) eqn:Elf.
        { res_simpl. cbn [Z.eqb]. rewrite slice_ok by lia. res_simpl.
          rewrite wrap_long_small by lia. do 2 f_equal. lia. }
        destruct (q + 1 + sz + 1 <? e) eqn:Ep2.
        -- apply Z.ltb_lt in Ep2. btrue (2 <=? e - ptr - (q + 1 - ptr + sz)).
           cbn [andb]. destruct (rd m (q + 1 + sz) =? CR); [|reflexivity].
           rewrite (peek_rd m (q + 1 + sz + 1)) by lia. res_simpl.
           destruct (rd m (q + 1 + sz + 1) =? LF); [|reflexivity].
           cbn [andb Z.eqb]. rewrite slice_ok by lia. res_simpl.
           rewrite wrap_long_small by lia. do 2 f_equal. lia.
        -- apply Z.ltb_ge in Ep2. bfalse (2 <=? e - ptr - (q + 1 - ptr + sz)).
           reflexivity.
      * apply Z.ltb_ge in Ep. bfalse (1 <=? e - ptr - (q + 1 - ptr + sz)).
        reflexivity.
  - (* the sum wraps to a negative [int]: the next read is out of range *)
    btrue (2 ^ 31 <=? q + 1 - ptr + sz).
    rewrite (wrap_long_small (e - ptr - (q + 1 - ptr + sz - 2 ^ 32))) by lia.
    bfalse (e - ptr - (q + 1 - ptr + sz - 2 ^ 32) <? 0).
    bfalse (e <? ptr + (q + 1 - ptr + sz - 2 ^ 32)).
    btrue (1 <=? e - ptr - (q + 1 - ptr + sz - 2 ^ 32)).
    cbn [orb]. rewrite (peek_neg m (ptr + (q + 1 - ptr + sz - 2 ^ 32))) by lia.
    reflexivity.
Qed.

Ltac to_prop :=
  repeat match goal with
  | H : (_ <? _) = true |- _ => apply Z.ltb_lt in H
  | H : (_ <? _) = false |- _ => apply Z.ltb_ge in H
  | H : (_ <=? _) = true |- _ => apply Z.leb_le in H
  | H : (_ <=? _) = false |- _ => apply Z.leb_gt in H
  | H : (_ =? _) = true |- _ => apply Z.eqb_eq in H
  | H : (_ =? _) = false |- _ => apply Z.eqb_neq in H
  | H : (_ && _) = true |- _ => apply andb_true_iff in H; destruct H
  | H : (_ || _) = false |- _ => apply orb_false_iff in H; destruct H
  end.

Lemma terminator_range (m : bytes) e p :
  0 <= terminator m e p <= 2 /\ (terminator m e p <> 0 -> p + terminator m e p <= e).
Proof.
  unfold terminator. repeat case_match; to_prop; lia.
Qed.

Lemma terminator_restrict e1 e2 (m1 m2 : bytes) p :
  agree e1 m1 m2 -> e1 <= e2 -> 0 <= p ->
  terminator m1 e1 p
  = if p + terminator m2 e2 p <=? e1 then terminator m2 e2 p else 0.
Proof.
  intros Ha He Hp. unfold terminator.
  destruct (p <? e1) eqn:E1.
  - apply Z.ltb_lt in E1. btrue (p <? e2).
    rewrite (rd_agree e1 m1 m2 p Ha) by lia.
    destruct (rd m2 p =? LF) eqn:Elf.
    { btrue (p + 1 <=? e1). reflexivity. }
    destruct (p + 1 <? e1) eqn:E2.
    + apply Z.ltb_lt in E2. btrue (p + 1 <? e2).
      rewrite (rd_agree e1 m1 m2 (p + 1) Ha) by lia.
      destruct (true && (rd m2 p =? CR) && (rd m2 (p + 1) =? LF)).
      * btrue (p + 2 <=? e1). reflexivity.
      * btrue (p + 0 <=? e1). reflexivity.
    + apply Z.ltb_ge in E2. cbn [andb].
      destruct ((p + 1 <? e2) && (rd m2 p =? CR) && (rd m2 (p + 1) =? LF)).
      * bfalse (p + 2 <=? e1). reflexivity.
      * btrue (p + 0 <=? e1). reflexivity.
  - apply Z.ltb_ge in E1.
    pose proof (terminator_range m2 e2 p) as [Hr _]. unfold terminator in Hr.
    repeat case_match; try reflexivity; to_prop; lia.
Qed.

Lemma blob_step_restrict (m1 m2 : bytes) e1 e2 ptr q :
  agree e1 m1 m2 -> 0 <= ptr -> ptr <= q < e1 -> e1 <= e2 ->
  match blob_step m2 e2 ptr q with
  | Ret (Next p' l' v) =>
      q + 1 < p' <= e2 /\ l' = e2 - p'
      /\ blob_step m1 e1 ptr q
         = (if p' <=? e1 then Ret (Next p' (e1 - p') v) else Ret (Exit Unfinished))
  | Ret (Exit (Found n)) =>
      n = q + 1 /\ blob_step m1 e1 ptr q = Ret (Exit (Found n))
  | Ret (Exit Unfinished) => blob_step m1 e1 ptr q = Ret (Exit Unfinished)
  | Ret (Exit Bad) => blob_step m1 e1 ptr q = Ret (Exit Bad)
  | Undef => blob_step m1 e1 ptr q = Undef
  | Raise _ | Hang => False
  end.
Proof.
  intros Ha Hptr Hq He. unfold blob_step.
  rewrite (rd_agree e1 m1 m2 ptr Ha) by lia.
  destruct (q + 1 - ptr =? 1) eqn:Ed1; [by split|].
  destruct ((q + 1 - ptr =? 2) && (rd m2 ptr =? CR)); [by split|].
  destruct ((rd m2 ptr <? 48) || (57 <? rd m2 ptr)); [reflexivity|].
  destruct (19 <? q + 1 - ptr) eqn:Ed19; [reflexivity|].
  rewrite (take_drop_agree e1 m1 m2 ptr (q + 1 - ptr - 1) Ha) by lia.
  set (sz := atoi _).
  destruct (sz <? 0) eqn:Esz; [reflexivity|].
  destruct (2 ^ 31 <=? q + 1 - ptr + sz); [reflexivity|].
  to_prop.
  destruct (e2 <? q + 1 + sz) eqn:Ee2.
  { to_prop. btrue (e1 <? q + 1 + sz). reflexivity. }
  to_prop.
  rewrite (terminator_restrict e1 e2 m1 m2 (q + 1 + sz) Ha He) by lia.
  pose proof (terminator_range m2 e2 (q + 1 + sz)) as [Ht Ht'].
  destruct (terminator m2 e2 (q + 1 + sz) =? 0) eqn:Et.
  { to_prop. rewrite Et. destruct (e1 <? q + 1 + sz); [reflexivity|].
    destruct (q + 1 + sz + 0 <=? e1); reflexivity. }
  to_prop. split; [lia|]. split; [reflexivity|].
  destruct (q + 1 + sz + terminator m2 e2 (q + 1 + sz) <=? e1) eqn:Ep.
  - to_prop. bfalse (e1 <? q + 1 + sz).
    bfalse (terminator m2 e2 (q + 1 + sz) =? 0).
    rewrite (take_drop_agree e1 m1 m2 (q + 1) sz Ha) by lia. reflexivity.
  - destruct (e1 <? q + 1 + sz); reflexivity.
Qed.

(** ** One turn of the loop, on a buffer and on a shorter one

    [m1] holds the first [e1] bytes of [m2].  What the turn does on [m1]
    is what it does on [m2] as long as it stays below [e1], and the exit
    [Unfinished] as soon as it would look beyond. *)
Lemma parse_step_restrict (m1 m2 : bytes) e1 e2 ptr :
  agree e1 m1 m2 -> 0 <= ptr < e1 -> e1 <= e2 ->
  e1 <= Z.of_nat (length m1) -> e2 <= Z.of_nat (length m2) ->
  e2 <= 2 * BUF_MAX_SIZE ->
  match parse_step m2 e2 ptr (e2 - ptr) with
  | Ret (Next p' l' v) =>
      ptr < p' <= e2 /\ l' = e2 - p'
      /\ parse_step m1 e1 ptr (e1 - ptr)
         = (if p' <=? e1 then Ret (Next p' (e1 - p') v) else Ret (Exit Unfinished))
  | Ret (Exit (Found n)) =>
      ptr < n <= e2
      /\ parse_step m1 e1 ptr (e1 - ptr)
         = (if n <=? e1 then Ret (Exit (Found n)) else Ret (Exit Unfinished))
  | Ret (Exit Unfinished) =>
      parse_step m1 e1 ptr (e1 - ptr) = Ret (Exit Unfinished)
  | Ret (Exit Bad) =>
      parse_step m1 e1 ptr (e1 - ptr) = Ret (Exit Bad)
      \/ parse_step m1 e1 ptr (e1 - ptr) = Ret (Exit Unfinished)
  | Undef =>
      parse_step m1 e1 ptr (e1 - ptr) = Undef
      \/ parse_step m1 e1 ptr (e1 - ptr) = Ret (Exit Unfinished)
  | Raise _ | Hang => False
  end.
Proof.
  intros Ha Hptr He H1 H2 Hmax.
  pose proof (memchr_restrict m1 m2 e1 LF (Z.to_nat (e1 - ptr)) ptr
                (Z.to_nat (e2 - ptr)) Ha ltac:(lia) ltac:(lia) ltac:(lia) H1
                ltac:(lia)) as Hm.
  destruct (memchr_spec m2 LF (Z.to_nat (e2 - ptr)) ptr ltac:(lia) ltac:(lia))
    as [Hn|(q & Hq & Hqr & Hqc)].
  { rewrite Hn in Hm. unfold parse_step. rewrite Hn, Hm. reflexivity. }
  rewrite Hq in Hm. destruct Hm as [_ Hm].
  rewrite (parse_step_eval m2 e2 ptr q) by (first [lia | exact Hq]).
  destruct (q <? e1) eqn:Eq1; to_prop.
  - rewrite (parse_step_eval m1 e1 ptr q) by (first [unfold BUF_MAX_SIZE in *; lia | exact Hm]).
    pose proof (blob_step_restrict m1 m2 e1 e2 ptr q Ha ltac:(lia) ltac:(lia) He) as Hb.
    destruct (blob_step m2 e2 ptr q) as [[[n| |]|p' l' v]| | |]; try tauto.
    + destruct Hb as [-> Hb]. split; [lia|]. btrue (q + 1 <=? e1). exact Hb.
    + destruct Hb as (Hp & Hl & Hb). split; [lia|]. split; [exact Hl|exact Hb].
  - assert (Hs1 : parse_step m1 e1 ptr (e1 - ptr) = Ret (Exit Unfinished)).
    { unfold parse_step. rewrite Hm. reflexivity. }
    rewrite Hs1.
    pose proof (blob_step_restrict m2 m2 e2 e2 ptr q eq_refl ltac:(lia) ltac:(lia) ltac:(lia)) as Hb.
    destruct (blob_step m2 e2 ptr q) as [[[n| |]|p' l' v]| | |]; try tauto.
    + destruct Hb as [-> Hb]. split; [lia|]. bfalse (q + 1 <=? e1). reflexivity.
    + destruct Hb as (Hp & Hl & Hb). split; [lia|]. split; [exact Hl|].
      bfalse (p' <=? e1). reflexivity.
Qed.

(** ** The loop *)

(** The loop ends within its fuel, and a frame it finds ends inside the
    buffer. *)
Lemma parse_loop_total fuel (m : bytes) e : forall ptr vs,
  0 <= ptr <= e -> e <= Z.of_nat (length m) -> e <= 2 * BUF_MAX_SIZE ->
  (Z.to_nat (e - ptr) < fuel)%nat ->
  match parse_loop fuel m e ptr (e - ptr) vs with
  | Ret (Found n, _) => ptr < n <= e
  | Ret _ | Undef => True
  | Raise _ | Hang => False
  end.
Proof.
  induction fuel as [|fuel IH]; intros ptr vs Hptr Hlen Hmax Hfuel; [lia|].
  cbn [parse_loop]. destruct (0 <? e - ptr) eqn:E; [|exact I]. to_prop.
  pose proof (parse_step_restrict m m e e ptr eq_refl ltac:(lia) ltac:(lia)
                Hlen Hlen Hmax) as Hs.
  destruct (parse_step m e ptr (e - ptr)) as [[[n| |]|p' l' v]| | |];
    res_simpl; try tauto.
  destruct Hs as (Hp & -> & _).
  specialize (IH p' (vs ++ [v]) ltac:(lia) Hlen Hmax ltac:(lia)).
  destruct (parse_loop fuel m e p' (e - p') (vs ++ [v])) as [[[n| |] ?]| | |];
    try tauto. lia.
Qed.

Lemma parse_loop_restrict fuel1 (m1 m2 : bytes) e1 e2 : forall fuel2 ptr vs,
  agree e1 m1 m2 -> 0 <= ptr <= e1 -> e1 <= e2 ->
  e1 <= Z.of_nat (length m1) -> e2 <= Z.of_nat (length m2) ->
  e2 <= 2 * BUF_MAX_SIZE ->
  (Z.to_nat (e1 - ptr) < fuel1)%nat -> (Z.to_nat (e2 - ptr) < fuel2)%nat ->
  match parse_loop fuel2 m2 e2 ptr (e2 - ptr) vs with
  | Ret (Found n, vs') =>
      ptr < n <= e2
      /\ (if n <=? e1
          then parse_loop fuel1 m1 e1 ptr (e1 - ptr) vs = Ret (Found n, vs')
          else unfinished (parse_loop fuel1 m1 e1 ptr (e1 - ptr) vs))
  | Ret (Unfinished, _) => unfinished (parse_loop fuel1 m1 e1 ptr (e1 - ptr) vs)
  | Ret (Bad, vs') =>
      parse_loop fuel1 m1 e1 ptr (e1 - ptr) vs = Ret (Bad, vs')
      \/ unfinished (parse_loop fuel1 m1 e1 ptr (e1 - ptr) vs)
  | Undef =>
      parse_loop fuel1 m1 e1 ptr (e1 - ptr) vs = Undef
      \/ unfinished (parse_loop fuel1 m1 e1 ptr (e1 - ptr) vs)
  | Raise _ | Hang => False
  end.
Proof.
  induction fuel1 as [|fuel1 IH];
    intros fuel2 ptr vs Ha Hptr He H1 H2 Hmax Hf1 Hf2; [lia|].
  pose proof (parse_loop_total fuel2 m2 e2 ptr vs ltac:(lia) H2 Hmax Hf2) as Ht.
  cbn [parse_loop]. destruct (0 <? e1 - ptr) eqn:E1; to_prop.
  2: { (* nothing left on the short side *)
    assert (Hu : unfinished (Ret (Unfinished, vs))) by (by exists vs).
    destruct (parse_loop fuel2 m2 e2 ptr (e2 - ptr) vs) as [[[n| |] ?]| | |];
      try tauto.
    split; [exact Ht|]. bfalse (n <=? e1). exact Hu. }
  destruct fuel2 as [|fuel2]; [lia|]. cbn [parse_loop] in Ht |- *.
  replace (0 <? e2 - ptr) with true in Ht |- *
    by (symmetry; apply Z.ltb_lt; lia).
  pose proof (parse_step_restrict m1 m2 e1 e2 ptr Ha ltac:(lia) He H1 H2 Hmax) as Hs.
  destruct (parse_step m2 e2 ptr (e2 - ptr)) as [[[n| |]|p' l' v]| | |];
    res_simpl; res_simpl in Ht; try tauto.
  - (* the frame ends here *)
    destruct Hs as [Hn ->]. split; [exact Hn|].
    destruct (n <=? e1); [reflexivity|]. by eexists.
  - destruct Hs as [-> | ->]; [by left|right; by eexists].
  - rewrite Hs. by eexists.
  - (* one more blob *)
    destruct Hs as (Hp & -> & ->).
    destruct (p' <=? e1) eqn:Ep; to_prop; res_simpl.
    + specialize (IH fuel2 p' (vs ++ [v]) Ha ltac:(lia) He H1 H2 Hmax
                    ltac:(lia) ltac:(lia)).
      destruct (parse_loop fuel2 m2 e2 p' (e2 - p') (vs ++ [v]))
        as [[[n| |] ?]| | |]; try exact IH.
      destruct IH as [Hn IH]. split; [lia|exact IH].
    + assert (Hu : unfinished (Ret (Unfinished, vs))) by (by exists vs).
      pose proof (parse_loop_total fuel2 m2 e2 p' (vs ++ [v]) ltac:(lia) H2
                    Hmax ltac:(lia)) as Ht'.
      destruct (parse_loop fuel2 m2 e2 p' (e2 - p') (vs ++ [v]))
        as [[[n| |] ?]| | |]; try tauto.
      split; [lia|]. bfalse (n <=? e1). exact Hu.
  - destruct Hs as [-> | ->]; [by left|right; by eexists].
Qed.

(** ** The buffer *)

Lemma contents_length b : wf b -> Z.of_nat (length (contents b)) = size b.
Proof.
  intros (Hs & Hl & _). unfold contents. rewrite length_take. lia.
Qed.

Lemma contents_agree b1 b2 :
  wf b1 -> wf b2 -> contents b1 = take (Z.to_nat (size b1)) (contents b2) ->
  size b1 <= size b2 -> agree (size b1) (data b1) (data b2).
Proof.
  intros H1 H2 Hc Hs. unfold agree. unfold contents in Hc.
  rewrite Hc, take_take. f_equal. lia.
Qed.

Lemma remove_spec b n :
  wf b -> 0 <= n <= size b ->
  wf (remove b n) /\ size (remove b n) = size b - n
  /\ cap (remove b n) = cap b
  /\ contents (remove b n) = drop (Z.to_nat n) (contents b).
Proof.
  intros (Hs & Hl & Hm & Hc) Hn. unfold remove.
  bfalse (size b <? n). unfold wf, contents, memmove_front. cbn [data size cap].
  assert (Hlen : length (take (Z.to_nat (size b - n)) (drop (Z.to_nat n) (data b)))
                 = Z.to_nat (size b - n)).
  { rewrite length_take, length_drop. lia. }
  repeat split; try lia.
  - rewrite length_app, Hlen, length_drop. lia.
  - rewrite take_app_length' by (symmetry; exact Hlen).
    rewrite take_drop_commute. do 2 f_equal. lia.
Qed.

Lemma grow_loop_enough c sz :
  0 < c -> c <= 2 * BUF_MAX_SIZE -> sz <= BUF_MAX_SIZE ->
  exists c', grow_loop GROW_FUEL c sz = Ret c'
             /\ sz <= c' /\ c <= c' /\ c' <= 2 * BUF_MAX_SIZE.
Proof.
  intros Hc Hmax Hsz. unfold BUF_MAX_SIZE in *.
  destruct (grow_loop_pos 25 c sz Hc) as (c' & Hr & H1 & H2 & H3).
  { change (2 ^ Z.of_nat 25) with 33554432. lia. }
  { change (2 ^ Z.of_nat 25) with 33554432. change (2 ^ 64) with 18446744073709551616. lia. }
  exists c'. split; [|lia].
  assert (Hm : forall k, grow_loop (26 + k) c sz = Ret c').
  { induction k as [|k IHk]; [by rewrite Nat.add_0_r|].
    rewrite Nat.add_succ_r. apply grow_loop_more, IHk. }
  exact (Hm 39%nat).
Qed.

Lemma put_spec b (src : bytes) :
  wf b -> 0 < cap b -> Z.of_nat (length src) < 2 ^ 63 ->
  if size b + Z.of_nat (length src) <=? BUF_MAX_SIZE then
    exists b', put b src = Ret (OK, b') /\ wf b' /\ 0 < cap b'
               /\ size b' = size b + Z.of_nat (length src)
               /\ contents b' = contents b ++ src
  else put b src = Ret (ENOMEM, b).
Proof.
  intros (Hs & Hl & Hm & Hc) Hcap Hsrc. unfold put, grow.
  assert (Hmax : BUF_MAX_SIZE = 16777216) by reflexivity.
  change (2 ^ 63) with 9223372036854775808 in Hsrc.
  assert (Hw : wrap_size_t (size b + Z.of_nat (length src))
               = size b + Z.of_nat (length src)).
  { apply wrap_size_t_small. change (2 ^ 64) with 18446744073709551616. lia. }
  rewrite Hw.
  destruct (size b + Z.of_nat (length src) <=? BUF_MAX_SIZE) eqn:E; to_prop.
  2: { btrue (BUF_MAX_SIZE <? size b + Z.of_nat (length src)). reflexivity. }
  bfalse (BUF_MAX_SIZE <? size b + Z.of_nat (length src)).
  assert (Hput : forall d c, Z.of_nat (length d) = c ->
            size b + Z.of_nat (length src) <= c -> c <= 2 * BUF_MAX_SIZE -> 0 < c ->
            take (Z.to_nat (size b)) d = contents b ->
            let b' := {| data := memcpy_at d (size b) src;
                         size := size b + Z.of_nat (length src); cap := c |} in
            wf b' /\ 0 < cap b' /\ size b' = size b + Z.of_nat (length src)
            /\ contents b' = contents b ++ src).
  { intros d c Hd Hsz Hc2 Hc0 Hcont b'. subst b'. unfold wf, contents, memcpy_at.
    cbn [data size cap].
    assert (Hlt : length (take (Z.to_nat (size b)) d) = Z.to_nat (size b))
      by (rewrite length_take; lia).
    repeat split; try lia.
    - rewrite !length_app, Hlt, length_drop. lia.
    - rewrite app_assoc. rewrite take_app_length'.
      + rewrite Hcont. reflexivity.
      + rewrite length_app, Hlt. lia. }
  destruct (size b + Z.of_nat (length src) <=? cap b) eqn:E2; to_prop.
  - res_simpl. rewrite Hw. eexists. split; [reflexivity|].
    apply Hput; try lia. reflexivity.
  - destruct (grow_loop_enough (cap b) (size b + Z.of_nat (length src)))
      as (c' & -> & H1 & H2 & H3); try lia.
    res_simpl. cbn [data size cap]. rewrite Hw.
    eexists. split; [reflexivity|].
    apply Hput; try lia.
    + unfold realloc, fresh_storage. rewrite length_app, length_take, repeat_length.
      rewrite Nat.min_r by lia. lia.
    + unfold realloc. rewrite (take_ge (data b)) by lia.
      rewrite take_app_le by lia. reflexivity.
Qed.

Lemma put_empty b : wf b -> put b [] = Ret (OK, b).
Proof.
  intros (Hs & Hl & Hm & Hc). unfold put, grow.
  change (Z.of_nat (length (@nil Z))) with 0.
  assert (Hw : wrap_size_t (size b + 0) = size b).
  { rewrite Z.add_0_r. apply wrap_size_t_small.
    unfold BUF_MAX_SIZE in *. change (2 ^ 64) with 18446744073709551616. lia. }
  rewrite Hw.
  bfalse (BUF_MAX_SIZE <? size b). btrue (size b <=? cap b). res_simpl.
  rewrite Hw. unfold memcpy_at. cbn [app length]. rewrite Nat.add_0_r, take_drop.
  destruct b; reflexivity.
Qed.

(** [clear] leaves a capacity of 0, which doubling never raises. *)
Lemma put_after_clear b (src : bytes) :
  src <> [] -> Z.of_nat (length src) <= BUF_MAX_SIZE ->
  put (clear b) src = Hang
  /\ forall fuel,
       grow_loop fuel (cap (clear b)) (size (clear b) + Z.of_nat (length src))
       = Hang.
Proof.
  intros Hne Hlen.
  assert (0 < Z.of_nat (length src)) by (destruct src; [done|simpl; lia]).
  split.
  - unfold put, grow. cbn [clear size cap data]. rewrite Z.add_0_l.
    rewrite wrap_size_t_small
      by (unfold BUF_MAX_SIZE in *; change (2 ^ 64) with 18446744073709551616; lia).
    bfalse (BUF_MAX_SIZE <? Z.of_nat (length src)).
    bfalse (Z.of_nat (length src) <=? 0).
    rewrite grow_loop_zero by lia. reflexivity.
  - intros fuel. cbn [clear size cap]. apply grow_loop_zero. lia.
Qed.

(** ** parse *)

Lemma parse_restrict b1 b2 vs :
  wf b1 -> wf b2 -> size b1 <= size b2 ->
  agree (size b1) (data b1) (data b2) ->
  match parse b2 vs with
  | Ret (OK, b2', vs') =>
      exists n, 0 < n <= size b2 /\ b2' = remove b2 n
        /\ (if n <=? size b1 then parse b1 vs = Ret (OK, remove b1 n, vs')
            else incomplete b1 (parse b1 vs))
  | Ret (EUNFINISH, b2', _) => b2' = b2 /\ incomplete b1 (parse b1 vs)
  | Ret (EBADFMT, b2', vs') =>
      b2' = b2
      /\ (parse b1 vs = Ret (EBADFMT, b1, vs') \/ incomplete b1 (parse b1 vs))
  | Ret (ENOMEM, _, _) => False
  | Undef => parse b1 vs = Undef \/ incomplete b1 (parse b1 vs)
  | Raise _ | Hang => False
  end.
Proof.
  intros (Hs1 & Hl1 & Hm1 & Hc1) (Hs2 & Hl2 & Hm2 & Hc2) Hle Ha.
  assert (Hmax : BUF_MAX_SIZE = 16777216) by reflexivity.
  unfold parse, incomplete.
  rewrite !wrap_long_small by (change (2 ^ 63) with 9223372036854775808; lia).
  pose proof (parse_loop_restrict (S (Z.to_nat (size b1))) (data b1) (data b2)
                (size b1) (size b2) (S (Z.to_nat (size b2))) 0 vs Ha
                ltac:(lia) Hle ltac:(lia) ltac:(lia) ltac:(lia)
                ltac:(lia) ltac:(lia)) as Hr.
  rewrite !Z.sub_0_r in Hr. unfold unfinished in Hr.
  destruct (parse_loop (S (Z.to_nat (size b2))) (data b2) (size b2) 0 (size b2) vs)
    as [[[n| |] vs']| | |]; res_simpl; try tauto.
  - destruct Hr as [Hn Hr]. exists n. split; [exact Hn|]. split; [reflexivity|].
    destruct (n <=? size b1).
    + rewrite Hr. reflexivity.
    + destruct Hr as [vs1 ->]. by exists vs1.
  - split; [reflexivity|]. destruct Hr as [-> | [vs1 ->]]; [by left|].
    right. by exists vs1.
  - split; [reflexivity|]. destruct Hr as [vs1 ->]. by exists vs1.
  - destruct Hr as [-> | [vs1 ->]]; [by left|]. right. by exists vs1.
Qed.

Lemma agree_refl e (m : bytes) : agree e m m.
Proof. reflexivity. Qed.

Lemma contents_prefix_agree b0 b k :
  wf b0 -> wf b -> 0 <= k <= size b ->
  contents b0 = take (Z.to_nat k) (contents b) ->
  size b0 = k /\ agree (size b0) (data b0) (data b).
Proof.
  intros H0 Hb Hk Hc.
  assert (Hsz : size b0 = k).
  { pose proof (contents_length b0 H0) as Hl. rewrite Hc in Hl.
    pose proof (contents_length b Hb) as Hl'.
    rewrite length_take in Hl. lia. }
  split; [exact Hsz|]. unfold agree. unfold contents in Hc.
  rewrite Hsz in Hc |- *. rewrite Hc, take_take. f_equal. lia.
Qed.

(** Claim C2.  A parse attempt on a well-formed buffer returns, and:
    when it returns [OK] with a frame, it has removed a prefix of [n]
    bytes, [0 < n <= size]: what is left is the untouched rest, moved to
    offset 0, the capacity is the same; the [n] bytes removed are the bytes
    of that frame, since a buffer holding just them parses to the same frame
    and is left empty, while no shorter prefix parses to a frame;
    when it returns [EUNFINISH] (or [EBADFMT]) the buffer is the one it was
    given, contents and length. *)
Theorem parse_consumes b vs :
  wf b ->
  match parse b vs with
  | Ret (OK, b', frame) =>
      exists n, 0 < n <= size b
        /\ wf b' /\ size b' = size b - n /\ cap b' = cap b
        /\ contents b' = drop (Z.to_nat n) (contents b)
        /\ (forall b0, wf b0 -> contents b0 = take (Z.to_nat n) (contents b) ->
              exists b0', parse b0 vs = Ret (OK, b0', frame) /\ contents b0' = [])
        /\ (forall k b0, 0 <= k < n -> wf b0 ->
              contents b0 = take (Z.to_nat k) (contents b) ->
              incomplete b0 (parse b0 vs))
  | Ret (EUNFINISH, b', _) => b' = b
  | Ret (EBADFMT, b', _) => b' = b
  | Ret (ENOMEM, _, _) => False
  | Undef => True
  | Raise _ | Hang => False
  end.
Proof.
  intros Hwf.
  pose proof (parse_restrict b b vs Hwf Hwf ltac:(lia) (agree_refl _ _)) as Hself.
  destruct (parse b vs) as [[[[ | | | ] b'] frame]| | |] eqn:Hp; try tauto.
  destruct Hself as (n & Hn & -> & _).
  destruct (remove_spec b n Hwf ltac:(lia)) as (Hw' & Hs' & Hc' & Hct').
  exists n. split; [lia|]. split; [exact Hw'|]. split; [lia|].
  split; [exact Hc'|]. split; [exact Hct'|]. split.
  - intros b0 Hwf0 Hc0.
    destruct (contents_prefix_agree b0 b n Hwf0 Hwf ltac:(lia) Hc0) as [Hsz Ha].
    pose proof (parse_restrict b0 b vs Hwf0 Hwf ltac:(lia) Ha) as Hr.
    rewrite Hp in Hr. destruct Hr as (n' & Hn' & Hrem & Hr).
    assert (n' = n).
    { apply (f_equal size) in Hrem.
      destruct (remove_spec b n' Hwf ltac:(lia)) as (_ & Hs2 & _). lia. }
    subst n'. rewrite Hsz in Hr. rewrite Z.leb_refl in Hr.
    exists (remove b0 n). split; [exact Hr|].
    destruct (remove_spec b0 n Hwf0 ltac:(lia)) as (_ & _ & _ & ->).
    apply drop_ge. pose proof (contents_length b0 Hwf0). lia.
  - intros k b0 Hk Hwf0 Hc0.
    destruct (contents_prefix_agree b0 b k Hwf0 Hwf ltac:(lia) Hc0) as [Hsz Ha].
    pose proof (parse_restrict b0 b vs Hwf0 Hwf ltac:(lia) Ha) as Hr.
    rewrite Hp in Hr. destruct Hr as (n' & Hn' & Hrem & Hr).
    assert (n' = n).
    { apply (f_equal size) in Hrem.
      destruct (remove_spec b n' Hwf ltac:(lia)) as (_ & Hs2 & _). lia. }
    subst n'. rewrite Hsz in Hr.
    replace (n <=? k) with false in Hr by (symmetry; apply Z.leb_gt; lia).
    exact Hr.
Qed.

(** ** Reader *)

Lemma Reader_feed_spec r (src : bytes) :
  ready r -> Z.of_nat (length src) < 2 ^ 63 ->
  if size (rbuf r) + Z.of_nat (length src) <=? BUF_MAX_SIZE then
    exists n r', Reader_feed r src = (Ret n, r') /\ ready r'
      /\ contents (rbuf r') = contents (rbuf r) ++ src
  else fst (Reader_feed r src) = Raise NoMemoryError.
Proof.
  intros [Hwf Hcap] Hsrc. pose proof (put_spec (rbuf r) src Hwf Hcap Hsrc) as Hp.
  unfold Reader_feed, Parser_feed. fold (rbuf r).
  destruct (size (rbuf r) + Z.of_nat (length src) <=? BUF_MAX_SIZE).
  - destruct Hp as (b' & -> & Hw' & Hc' & Hs' & Hct'). res_simpl.
    eexists _, _. split; [reflexivity|]. split; [split; assumption|exact Hct'].
  - rewrite Hp. reflexivity.
Qed.

Lemma Reader_rebuild r b : b = rbuf r -> {| parser := {| buf := b |} |} = r.
Proof. intros ->. destruct r as [[b]]. reflexivity. Qed.

(** [get] on a reader that holds a prefix of what another one holds. *)
Lemma Reader_get_prefix r1 r2 frame :
  wf (rbuf r1) -> wf (rbuf r2) ->
  contents (rbuf r1)
  = take (Z.to_nat (size (rbuf r1))) (contents (rbuf r2)) ->
  size (rbuf r1) <= size (rbuf r2) ->
  fst (Reader_get r2) = Ret (Some frame) ->
  (fst (Reader_get r1) = Ret (Some frame)
   \/ Reader_get r1 = (Ret None, r1))
  /\ (size (rbuf r1) = size (rbuf r2) -> fst (Reader_get r1) = Ret (Some frame)).
Proof.
  intros H1 H2 Hc Hs.
  pose proof (contents_agree _ _ H1 H2 Hc Hs) as Ha.
  pose proof (parse_restrict (rbuf r1) (rbuf r2) [] H1 H2 Hs Ha) as Hr.
  unfold Reader_get. fold (rbuf r1) (rbuf r2). unfold incomplete in Hr.
  destruct (parse (rbuf r2) []) as [[[[ | | | ] b2'] vs']| | |]; cbn [fst];
    try discriminate.
  intros [= ->]. destruct Hr as (n & Hn & -> & Hr).
  destruct (n <=? size (rbuf r1)) eqn:En.
  - rewrite Hr. cbn [fst]. split; [by left|reflexivity].
  - destruct Hr as [vs1 ->]. rewrite (Reader_rebuild r1 (rbuf r1) eq_refl).
    split; [by right|]. intros Heq. to_prop. lia.
Qed.

Lemma contents_take_self b : wf b -> contents b = take (Z.to_nat (size b)) (contents b).
Proof.
  intros Hwf. symmetry. apply take_ge. pose proof (contents_length b Hwf). lia.
Qed.

Lemma contents_take_app b (l k : bytes) :
  Z.of_nat (length l) = size b -> l = take (Z.to_nat (size b)) (l ++ k).
Proof. intros H. rewrite take_app_length'; [reflexivity|lia]. Qed.

Lemma Reader_get_same r1 r2 frame :
  wf (rbuf r1) -> wf (rbuf r2) -> contents (rbuf r1) = contents (rbuf r2) ->
  fst (Reader_get r2) = Ret (Some frame) ->
  fst (Reader_get r1) = Ret (Some frame).
Proof.
  intros H1 H2 Hc Hget.
  assert (Hs : size (rbuf r1) = size (rbuf r2)).
  { rewrite <- (contents_length _ H1), <- (contents_length _ H2), Hc. reflexivity. }
  apply (Reader_get_prefix r1 r2 frame H1 H2); try assumption; try lia.
  rewrite Hc, Hs. apply contents_take_self, H2.
Qed.

Lemma ready_new : ready Reader_new.
Proof.
  unfold ready, wf, rbuf, Reader_new, Buffer_new. cbn [parser buf data size cap].
  unfold fresh_storage. rewrite repeat_length. unfold INITIAL_BUF_SIZE, BUF_MAX_SIZE.
  lia.
Qed.

Lemma parse_consumes_witness :
  let b := {| data := wire "2\nok\n\n3\nabc"; size := 9; cap := 11 |} in
  wf b /\
  match parse b [] with
  | Ret (OK, b', frame) =>
      exists n, 0 < n <= size b
        /\ wf b' /\ size b' = size b - n /\ cap b' = cap b
        /\ contents b' = drop (Z.to_nat n) (contents b)
        /\ (forall b0, wf b0 -> contents b0 = take (Z.to_nat n) (contents b) ->
              exists b0', parse b0 [] = Ret (OK, b0', frame) /\ contents b0' = [])
        /\ (forall k b0, 0 <= k < n -> wf b0 ->
              contents b0 = take (Z.to_nat k) (contents b) ->
              incomplete b0 (parse b0 []))
  | Ret (EUNFINISH, b', _) => b' = b
  | Ret (EBADFMT, b', _) => b' = b
  | Ret (ENOMEM, _, _) => False
  | Undef => True
  | Raise _ | Hang => False
  end.
Proof.
  intros b.
  assert (Hwf : wf b) by (repeat split; vm_compute; congruence).
  split; [exact Hwf|]. exact (parse_consumes b [] Hwf).
Defined.

(** Claim C1.  Whenever feeding [B] in one piece and calling [get] yields
    a frame, feeding the chunks of any partition of [B] in order, with a
    [get] tried after any of the chunks and one after the last, yields that
    same frame.  This holds from any reader whose buffer has its storage, the
    new reader among them. *)
Theorem chunk_invariance r (B : bytes) frame steps :
  ready r -> Z.of_nat (length B) < 2 ^ 63 ->
  concat (map fst steps) = B ->
  fst (drive r [(B, false)]) = Ret (Some frame) ->
  fst (drive r steps) = Ret (Some frame).
Proof.
  revert r B frame.
  induction steps as [|[c a] steps IH]; intros r B frame Hr HB Hcat Hone.
  - cbn [map concat] in Hcat. subst B. cbn [drive] in *.
    destruct Hr as [Hwf Hcap].
    unfold Reader_feed, Parser_feed in Hone. fold (rbuf r) in Hone.
    rewrite (put_empty _ Hwf) in Hone. res_simpl in Hone.
    rewrite (Reader_rebuild r (rbuf r) eq_refl) in Hone. exact Hone.
  - cbn [map concat fst] in Hcat. subst B. rewrite length_app in HB.
    set (rest := concat (map fst steps)) in *.
    (* the whole of [c ++ rest] fits, since the single feed went through *)
    pose proof (Reader_feed_spec r (c ++ rest) Hr
                  ltac:(rewrite length_app; lia)) as Hall.
    cbn [drive] in Hone.
    destruct (size (rbuf r) + Z.of_nat (length (c ++ rest)) <=? BUF_MAX_SIZE)
      eqn:Efit.
    2: { destruct (Reader_feed r (c ++ rest)) as [[]];
           cbn [fst] in Hall, Hone; congruence. }
    destruct Hall as (nall & rall & Hfeed & Hrall & Hcall).
    rewrite Hfeed in Hone. to_prop. rewrite length_app, Nat2Z.inj_add in Efit.
    rewrite Nat2Z.inj_add in HB.
    pose proof (Reader_feed_spec r c Hr ltac:(lia)) as Hc.
    replace (size (rbuf r) + Z.of_nat (length c) <=? BUF_MAX_SIZE) with true in Hc
      by (symmetry; apply Z.leb_le; lia).
    destruct Hc as (n1 & r1 & Hfeed1 & Hr1 & Hc1).
    cbn [drive]. rewrite Hfeed1.
    pose proof (contents_length _ (proj1 Hr1)) as Hl1.
    pose proof (contents_length _ (proj1 Hr)) as Hl0.
    pose proof (contents_length _ (proj1 Hrall)) as Hlall.
    rewrite Hc1, length_app in Hl1. rewrite Hcall, !length_app in Hlall.
    (* from [r1], one feed of the rest brings the same frame *)
    assert (Hone1 : fst (drive r1 [(rest, false)]) = Ret (Some frame)).
    { cbn [drive].
      pose proof (Reader_feed_spec r1 rest Hr1 ltac:(lia)) as Hrest.
      replace (size (rbuf r1) + Z.of_nat (length rest) <=? BUF_MAX_SIZE)
        with true in Hrest by (symmetry; apply Z.leb_le; lia).
      destruct Hrest as (n2 & r2 & -> & Hr2 & Hc2).
      apply (Reader_get_same r2 rall frame (proj1 Hr2) (proj1 Hrall)); [|exact Hone].
      rewrite Hc2, Hc1, Hcall, <- app_assoc. reflexivity. }
    destruct a; [|apply (IH r1 rest frame Hr1 ltac:(lia) eq_refl Hone1)].
    (* a try between two feeds: the frame already, or nothing yet *)
    assert (Hpre : contents (rbuf r1)
                   = take (Z.to_nat (size (rbuf r1))) (contents (rbuf rall))).
    { rewrite Hc1, Hcall, app_assoc. apply contents_take_app.
      rewrite length_app. lia. }
    destruct (Reader_get_prefix r1 rall frame (proj1 Hr1) (proj1 Hrall) Hpre
                ltac:(lia) Hone) as [[Hget|Hget] _].
    + destruct (Reader_get r1) as [[[frame'|]| | |] r2] eqn:Eg; cbn [fst] in Hget;
        try discriminate; exact Hget.
    + rewrite Hget. apply (IH r1 rest frame Hr1 ltac:(lia) eq_refl Hone1).
Qed.

Lemma chunk_invariance_witness :
  fst (drive Reader_new
         [(wire "2\no", true); (wire "k\n1", true); (wire "\n1\n", false);
          (wire "\n", true)])
  = Ret (Some [wire "ok"; wire "1"]).
Proof.
  apply (chunk_invariance Reader_new (wire "2\nok\n1\n1\n\n")).
  - exact ready_new.
  - vm_compute. reflexivity.
  - reflexivity.
  - vm_compute. reflexivity.
Defined.

(** Claim C9, as the code behaves.  After [clear] the capacity is 0, and
    the loop [while cap < size: cap *= 2] of [grow] doubles 0 for ever: an
    append of a non-empty byte string does not return, whatever the number
    of turns allowed. *)
Theorem feed_after_clear_hangs r (src : bytes) :
  src <> [] -> Z.of_nat (length src) <= BUF_MAX_SIZE ->
  fst (Reader_feed (Reader_clear r) src) = Hang
  /\ forall fuel,
       grow_loop fuel (cap (rbuf (Reader_clear r)))
         (size (rbuf (Reader_clear r)) + Z.of_nat (length src)) = Hang.
Proof.
  intros Hne Hlen.
  destruct (put_after_clear (rbuf r) src Hne Hlen) as [Hput Hloop].
  split; [|exact Hloop].
  unfold Reader_feed, Parser_feed, Reader_clear, Parser_clear. cbn [parser buf].
  fold (rbuf r). rewrite Hput. reflexivity.
Qed.

Lemma feed_after_clear_hangs_witness :
  fst (Reader_feed (Reader_clear Reader_new) (wire "a")) = Hang.
Proof.
  apply (feed_after_clear_hangs Reader_new (wire "a")).
  - discriminate.
  - vm_compute. discriminate.
Defined.

End ParserFacts.

(** * Properties of the command encoder *)

Module EncodeFacts.
Import Encode.

Tactic Notation "res_simpl" := cbn [mbind mret res_mbind res_mret res_bind].

Lemma uint_digits d :
  forallb is_digit (bytes_of_string (NilEmpty.string_of_uint d)) = true.
Proof. induction d; simpl; auto. Qed.

Lemma uint_fold d acc :
  fold_left (fun a b => a * 10 + (b - 48))
    (bytes_of_string (NilEmpty.string_of_uint d)) acc = uint_value acc d.
Proof. revert acc. induction d; intros acc; simpl; auto. Qed.

Lemma uint_value_lu d acc :
  uint_value acc d
  = acc * 10 ^ Z.of_N (Unsigned.usize d) + Z.of_N (Unsigned.of_lu (Decimal.rev d)).
Proof.
  revert acc.
  induction d; intros acc; cbn [uint_value Unsigned.usize];
    [ simpl; lia | ..];
    unfold Decimal.rev; cbn [Decimal.revapp];
    rewrite (Unsigned.of_lu_revapp d); cbn [Unsigned.of_lu];
    rewrite IHd;
    rewrite N2Z.inj_succ, Z.pow_succ_r by lia;
    rewrite N2Z.inj_add, N2Z.inj_mul, N2Z.inj_pow;
    cbn; lia.
Qed.

Lemma uint_value_of_uint d : uint_value 0 d = Z.of_N (N.of_uint d).
Proof.
  rewrite uint_value_lu. unfold N.of_uint. rewrite Unsigned.of_uint_alt. lia.
Qed.

Lemma str_of_int_decimal n :
  0 <= n ->
  bytes_of_string (str_of_int n) <> []
  /\ forallb is_digit (bytes_of_string (str_of_int n)) = true
  /\ decimal_value (bytes_of_string (str_of_int n)) = n.
Proof.
  intros Hn. unfold str_of_int, decimal_value.
  assert (Z.to_int n = Decimal.Pos (N.to_uint (Z.to_N n))) as ->.
  { destruct n; try reflexivity. lia. }
  cbn [NilZero.string_of_int]. unfold NilZero.string_of_uint.
  pose proof (DecimalN.Unsigned.of_to (Z.to_N n)) as Hot.
  remember (N.to_uint (Z.to_N n)) as d eqn:E.
  assert (Hv : uint_value 0 d = n) by (rewrite uint_value_of_uint, Hot; lia).
  destruct d.
  1: { simpl in *. split; [discriminate|]. split; [reflexivity|].
       change (byte_of_ascii "0") with 48. lia. }
  all: split; [discriminate|split; [apply uint_digits|rewrite uint_fold; exact Hv]].
Qed.





End EncodeFacts.

(** * Properties of the response interpreter *)

Module ResponseFacts.
Import Response.

Tactic Notation "res_simpl" := cbn [mbind mret res_mbind res_mret res_bind].

(** ** Which exception a result carries *)

Lemma conn_raise_bind {A B} (m : res A) (f : A -> res B) :
  conn_raise m = false -> (forall a, conn_raise (f a) = false) ->
  conn_raise (m ≫= f) = false.
Proof. intros Hm Hf. destruct m; simpl in *; auto. Qed.

Lemma conn_raise_item resp i : conn_raise (item resp i) = false.
Proof. unfold item. repeat case_match; reflexivity. Qed.

Lemma conn_raise_py_int v : conn_raise (py_int v) = false.
Proof. unfold py_int. repeat case_match; reflexivity. Qed.

Lemma conn_raise_int_or_minus1 v : conn_raise (int_or_minus1 v) = false.
Proof. unfold int_or_minus1. case_match; [apply conn_raise_py_int | reflexivity]. Qed.

Lemma conn_raise_fill {V} (conv : bytes -> res V) resp idx acc :
  (forall v, conn_raise (conv v) = false) ->
  conn_raise (fill conv resp idx acc) = false.
Proof.
  intros Hc. revert acc. induction idx as [|i idx IH]; intros acc; simpl.
  - reflexivity.
  - apply conn_raise_bind; [apply conn_raise_item|]. intros v.
    apply conn_raise_bind; [apply Hc|]. intros x.
    apply conn_raise_bind; [apply conn_raise_item|]. intros k. apply IH.
Qed.

Lemma conn_raise_to_str_map resp : conn_raise (to_str_map resp) = false.
Proof. unfold to_str_map. case_match; [reflexivity|]. by apply conn_raise_fill. Qed.

Lemma conn_raise_to_int_map resp : conn_raise (to_int_map resp) = false.
Proof.
  unfold to_int_map. case_match; [reflexivity|].
  apply conn_raise_fill, conn_raise_int_or_minus1.
Qed.

Lemma conn_raise_to_str_map_for_scan resp :
  conn_raise (to_str_map_for_scan resp) = false.
Proof.
  unfold to_str_map_for_scan. repeat case_match; try reflexivity.
  apply conn_raise_bind; [apply conn_raise_item|]. intros n.
  apply conn_raise_bind; [by apply conn_raise_fill|]. reflexivity.
Qed.

Lemma conn_raise_to_int_map_for_scan resp :
  conn_raise (to_int_map_for_scan resp) = false.
Proof.
  unfold to_int_map_for_scan. repeat case_match; try reflexivity.
  apply conn_raise_bind; [apply conn_raise_item|]. intros n.
  apply conn_raise_bind;
    [apply conn_raise_fill, conn_raise_int_or_minus1|]. reflexivity.
Qed.

(** ** Pairs, digits and dictionaries *)

Lemma pairs_length body : length (pairs body) = Nat.div2 (length body).
Proof.
  induction body as [body IH] using (induction_ltof1 _ (@length _)).
  unfold ltof in IH. destruct body as [|k [|v rest]]; try reflexivity.
  cbn [pairs length Nat.div2]. rewrite IH by (simpl; lia). reflexivity.
Qed.

Lemma pairs_lookup body j k v :
  body !! (2 * j)%nat = Some k -> body !! (2 * j + 1)%nat = Some v ->
  pairs body !! j = Some (k, v).
Proof.
  revert body. induction j as [|j IH]; intros body Hk Hv.
  - destruct body as [|k' [|v' rest]]; simpl in *; try discriminate.
    congruence.
  - destruct body as [|k' [|v' rest]]; simpl in *; try discriminate.
    apply IH.
    + replace (2 * j)%nat with (j + (j + 0))%nat by lia.
      replace (j + S (j + 0))%nat with (S (j + (j + 0)))%nat in Hk by lia. exact Hk.
    + replace (2 * j + 1)%nat with (j + (j + 0) + 1)%nat by lia.
      replace (j + S (j + 0) + 1)%nat with (S (j + (j + 0) + 1))%nat in Hv by lia.
      exact Hv.
Qed.

Lemma fill_pairs {V} (conv : bytes -> res V) (g : bytes -> V) resp :
  (forall v, conv v = Ret (g v)) ->
  forall n a acc,
  (2 * (a + n) <= length resp)%nat ->
  fill conv resp (map (fun j => 2 * Z.of_nat j) (seq a n)) acc
  = Ret (build g (take n (drop a (pairs resp))) acc).
Proof.
  intros Hconv. induction n as [|n IH]; intros a acc Hlen.
  - reflexivity.
  - cbn [seq map fill].
    destruct (lookup_lt_is_Some_2 resp (2 * a)%nat ltac:(lia)) as [k Hk].
    destruct (lookup_lt_is_Some_2 resp (2 * a + 1)%nat ltac:(lia)) as [v Hv].
    unfold item.
    replace (2 * Z.of_nat a + 1 <? 0) with false by (symmetry; apply Z.ltb_ge; lia).
    replace (2 * Z.of_nat a <? 0) with false by (symmetry; apply Z.ltb_ge; lia).
    replace (Z.to_nat (2 * Z.of_nat a + 1)) with (2 * a + 1)%nat by lia.
    replace (Z.to_nat (2 * Z.of_nat a)) with (2 * a)%nat by lia.
    rewrite Hk, Hv. res_simpl. rewrite Hconv.
    res_simpl. rewrite IH by lia.
    pose proof (pairs_lookup _ _ _ _ Hk Hv) as Hp.
    rewrite (drop_S _ _ _ Hp). reflexivity.
Qed.

Lemma range2_even (l : list bytes) :
  Z.of_nat (length l) mod 2 = 0 ->
  range2 (Z.of_nat (length l))
  = map (fun j => 2 * Z.of_nat j) (seq 0 (Nat.div2 (length l)))
  /\ (2 * Nat.div2 (length l) = length l)%nat.
Proof.
  intros Hm. unfold range2.
  assert (H2 : (2 * Nat.div2 (length l) = length l)%nat).
  { pose proof (Nat.div2_odd (length l)) as H.
    destruct (Nat.odd (length l)) eqn:Ho; simpl in H; [|lia].
    exfalso. rewrite Nat.odd_spec in Ho. destruct Ho as [m Hm'].
    rewrite Hm' in Hm. replace (Z.of_nat (2 * m + 1)) with (1 + Z.of_nat m * 2) in Hm by lia.
    rewrite Z.mod_add in Hm by lia. discriminate. }
  split; [|exact H2]. do 2 f_equal.
  rewrite <- H2 at 1.
  replace ((Z.of_nat (2 * Nat.div2 (length l)) + 1) / 2) with (Z.of_nat (Nat.div2 (length l))).
  - lia.
  - apply Z.div_unique with (r := 1); lia.
Qed.

Lemma fill_build {V} (conv : bytes -> res V) (g : bytes -> V) resp :
  (forall v, conv v = Ret (g v)) ->
  Z.of_nat (length resp) mod 2 = 0 ->
  fill conv resp (range2 (Z.of_nat (length resp))) [] = Ret (build g (pairs resp) []).
Proof.
  intros Hconv Hm. destruct (range2_even resp Hm) as [-> H2].
  rewrite (fill_pairs conv g resp Hconv) by lia.
  rewrite drop_0, take_ge; [reflexivity|]. rewrite pairs_length. lia.
Qed.

(** *** Digits *)





(** *** Dictionaries *)

Lemma dict_get_set {V} k k' (v : V) d :
  dict_get k (dict_set k' v d) = if decide (k' = k) then Some v else dict_get k d.
Proof.
  induction d as [|[k0 v0] d IH]; simpl.
  - reflexivity.
  - destruct (decide (k0 = k')) as [->|Hne]; simpl.
    + destruct (decide (k' = k)); reflexivity.
    + destruct (decide (k0 = k)) as [->|Hne'].
      * destruct (decide (k' = k)); [congruence|reflexivity].
      * exact IH.
Qed.

Lemma dict_keys_set {V} k (v : V) d :
  dict_keys (dict_set k v d)
  = if decide (k ∈ dict_keys d) then dict_keys d else dict_keys d ++ [k].
Proof.
  unfold dict_keys. induction d as [|[k0 v0] d IH]; simpl.
  - destruct (decide (k ∈ [])) as [H|_]; [inversion H|reflexivity].
  - destruct (decide (k0 = k)) as [->|Hne]; simpl.
    + destruct (decide (k ∈ k :: map fst d)) as [_|H]; [reflexivity|].
      exfalso. apply H. left.
    + rewrite IH. destruct (decide (k ∈ map fst d)) as [Hin|Hnin].
      * destruct (decide (k ∈ k0 :: map fst d)) as [_|H]; [reflexivity|].
        exfalso. apply H. by right.
      * destruct (decide (k ∈ k0 :: map fst d)) as [H|_]; [|reflexivity].
        exfalso. apply elem_of_cons in H as [->|H]; done.
Qed.

Lemma build_keys {V} (g : bytes -> V) ps acc :
  dict_keys (build g ps acc)
  = fold_left (fun a k => if decide (k ∈ a) then a else a ++ [k])
      (map fst ps) (dict_keys acc).
Proof.
  revert acc. induction ps as [|[k v] ps IH]; intros acc; simpl.
  - reflexivity.
  - unfold build in *. rewrite IH, dict_keys_set. reflexivity.
Qed.

Lemma build_get {V} (g : bytes -> V) k ps acc :
  dict_get k (build g ps acc)
  = fold_left (fun o kv => if decide (fst kv = k) then Some (g (snd kv)) else o)
      ps (dict_get k acc).
Proof.
  revert acc. induction ps as [|[k' v] ps IH]; intros acc; simpl.
  - reflexivity.
  - unfold build in *. rewrite IH, dict_get_set. reflexivity.
Qed.

Lemma last_value_fmap {V} (g : bytes -> V) k (ps : list (bytes * bytes)) o :
  fold_left (fun o (kv : bytes * bytes) =>
               if decide (fst kv = k) then Some (g (snd kv)) else o)
    ps (g <$> o)
  = g <$> fold_left (fun o (kv : bytes * bytes) =>
                       if decide (fst kv = k) then Some (snd kv) else o) ps o.
Proof.
  revert o. induction ps as [|[k' v] ps IH]; intros o; simpl.
  - reflexivity.
  - destruct (decide (k' = k)); [apply (IH (Some v))|apply IH].
Qed.


Section Interpreter.
Context {pyfloat : Type} (py_float : bytes -> option pyfloat).

Lemma conn_raise_ok cmd body :
  conn_raise (wrap_response py_float cmd (wire "ok" :: body)) = false.
Proof.
  unfold wrap_response. cbn [length Z.of_nat]. 
  replace (Z.of_nat (S (length body)) =? 0) with false
    by (symmetry; apply Z.eqb_neq; lia).
  change (item (wire "ok" :: body) 0) with (@Ret bytes (wire "ok")).
  res_simpl.
  destruct (decide (wire "ok" = wire "not_found")) as [E|_]; [discriminate E|].
  destruct (decide (wire "ok" = wire "ok")) as [_|E]; [|done].
  repeat case_match; try reflexivity;
    repeat (apply conn_raise_bind; [auto using conn_raise_item, conn_raise_py_int,
      conn_raise_to_str_map, conn_raise_to_int_map,
      conn_raise_to_str_map_for_scan, conn_raise_to_int_map_for_scan|intros]);
    repeat case_match; reflexivity.
Qed.

(** What [wrap_response] does with a frame that has a status. *)
Lemma wrap_response_cons cmd status body :
  wrap_response py_float cmd (status :: body) =
    if decide (status = wire "not_found") then Ret VNone
    else if decide (status = wire "ok") then
      wrap_response py_float cmd (wire "ok" :: body)
    else text ← decode_utf8 status; Raise (RuntimeError text).
Proof.
  unfold wrap_response. cbn [length Z.of_nat].
  replace (Z.of_nat (S (length body)) =? 0) with false
    by (symmetry; apply Z.eqb_neq; lia).
  change (item (status :: body) 0) with (@Ret bytes status).
  change (item (wire "ok" :: body) 0) with (@Ret bytes (wire "ok")).
  res_simpl.
  destruct (decide (status = wire "not_found")) as [->|Hnf]; [reflexivity|].
  destruct (decide (status = wire "ok")) as [->|Hok]; [|reflexivity].
  destruct (decide (wire "ok" = wire "not_found")) as [E|_]; [discriminate E|].
  destruct (decide (wire "ok" = wire "ok")) as [_|E]; [reflexivity|done].
Qed.

(** Claim C6, as the code behaves.  [wrap_response] raises
    [ConnectionError("Connection closed")] exactly when the frame is empty,
    and no other [ConnectionError] either.  For a frame with a status: the
    status [not_found] yields [None]; a status that is neither [ok] nor
    [not_found] raises [RuntimeError] carrying the status as text when the
    status is valid UTF-8, and [UnicodeDecodeError] when it is not; unless
    the status is [ok] the outcome does not depend on the command, so the
    shaping by command class is for [ok] only. *)
Theorem wrap_response_status cmd frame :
  (wrap_response py_float cmd frame = Raise (ConnectionError "Connection closed")
   <-> frame = [])
  /\ forall status body, frame = status :: body ->
       conn_raise (wrap_response py_float cmd frame) = false
       /\ (status = wire "not_found" ->
           wrap_response py_float cmd frame = Ret VNone)
       /\ (status <> wire "ok" -> status <> wire "not_found" ->
           wrap_response py_float cmd frame =
             if utf8_valid status then Raise (RuntimeError (string_of_bytes status))
             else Raise UnicodeDecodeError)
       /\ (status <> wire "ok" -> forall cmd',
           wrap_response py_float cmd' frame = wrap_response py_float cmd frame).
Proof.
  pose proof (wrap_response_cons) as Hcons.
  split.
  - split.
    + intros H. destruct frame as [|status body]; [reflexivity|].
      exfalso. rewrite Hcons in H.
      destruct (decide (status = wire "not_found")); [discriminate|].
      destruct (decide (status = wire "ok")).
      * pose proof (conn_raise_ok cmd body) as Hc. rewrite H in Hc. discriminate.
      * unfold decode_utf8 in H. destruct (utf8_valid status); discriminate.
    + intros ->. reflexivity.
  - intros status body ->. rewrite Hcons. repeat split.
    + destruct (decide (status = wire "not_found")); [reflexivity|].
      destruct (decide (status = wire "ok")); [apply conn_raise_ok|].
      unfold decode_utf8. destruct (utf8_valid status); reflexivity.
    + intros ->. reflexivity.
    + intros Hok Hnf.
      destruct (decide (status = wire "not_found")); [done|].
      destruct (decide (status = wire "ok")); [done|].
      unfold decode_utf8. destruct (utf8_valid status); reflexivity.
    + intros Hok cmd'. rewrite Hcons.
      destruct (decide (status = wire "not_found")); [reflexivity|].
      destruct (decide (status = wire "ok")); [done|reflexivity].
Qed.

(** Claim C10.  Whatever the command name, a frame whose status is
    [not_found] yields [None]; for a name in none of the nine sets the same
    holds, although with the status [ok] that name raises the unknown-command
    error.  The sets are looked up for the status [ok] only: with any other
    status two command names give the same outcome. *)
Theorem not_found_before_lookup cmd body :
  wrap_response py_float cmd (wire "not_found" :: body) = Ret VNone
  /\ (known cmd = false ->
      wrap_response py_float cmd (wire "ok" :: body)
      = Raise (RuntimeError (cmd ++ " is unknown command")))
  /\ (forall cmd' status, status <> wire "ok" ->
      wrap_response py_float cmd' (status :: body)
      = wrap_response py_float cmd (status :: body)).
Proof.
  split; [|split].
  - rewrite wrap_response_cons.
    destruct (decide (wire "not_found" = wire "not_found")); [reflexivity|done].
  - unfold known. intros Hk. do 8 (apply orb_false_iff in Hk as [Hk ?]).
    unfold wrap_response. cbn [length Z.of_nat].
    replace (Z.of_nat (S (length body)) =? 0) with false
      by (symmetry; apply Z.eqb_neq; lia).
    change (item (wire "ok" :: body) 0) with (@Ret bytes (wire "ok")).
    res_simpl.
    destruct (decide (wire "ok" = wire "not_found")) as [E|_]; [discriminate E|].
    destruct (decide (wire "ok" = wire "ok")) as [_|E]; [|done].
    repeat match goal with H : member _ _ = false |- _ => rewrite H; clear H end.
    reflexivity.
  - intros cmd' status Hok.
    rewrite (wrap_response_cons cmd'), (wrap_response_cons cmd).
    destruct (decide (status = wire "not_found")); [reflexivity|].
    destruct (decide (status = wire "ok")); [done|reflexivity].
Qed.

End Interpreter.

Lemma wrap_response_status_witness :
  wrap_response (fun _ => @None unit) "get" [wire "error: unknown"]
  = Raise (RuntimeError "error: unknown").
Proof.
  destruct (wrap_response_status (fun _ => @None unit) "get" [wire "error: unknown"])
    as [_ H].
  destruct (H (wire "error: unknown") [] eq_refl) as (_ & _ & H3 & _).
  rewrite H3; [reflexivity|discriminate|discriminate].
Defined.

(** The claim C6 as the specification states it fails on a status that is
    not valid UTF-8: the frame is not empty, its status is neither [ok] nor
    [not_found], and the failure is not a [RuntimeError]. *)
Lemma wrap_response_undecodable_status :
  [255] <> wire "ok" /\ [255] <> wire "not_found"
  /\ wrap_response (fun _ => @None unit) "get" [[255]] = Raise UnicodeDecodeError
  /\ forall text,
       wrap_response (fun _ => @None unit) "get" [[255]] <> Raise (RuntimeError text).
Proof.
  split; [discriminate|]. split; [discriminate|]. split; [reflexivity|].
  intros text. discriminate.
Qed.

Lemma not_found_before_lookup_witness :
  wrap_response (fun _ => @None unit) "nope" [wire "not_found"] = Ret VNone
  /\ wrap_response (fun _ => @None unit) "nope" [wire "ok"]
     = Raise (RuntimeError "nope is unknown command")
  /\ wrap_response (fun _ => @None unit) "get" [wire "fail"]
     = wrap_response (fun _ => @None unit) "nope" [wire "fail"].
Proof.
  destruct (not_found_before_lookup (fun _ => @None unit) "nope" []) as (H1 & H2 & H3).
  split; [exact H1|]. split.
  - apply H2. reflexivity.
  - apply H3. discriminate.
Defined.


End ResponseFacts.

(** * Facts about the connection and the pool *)

Module ConnFacts.
Import Conn.
#[local] Open Scope Z_scope.


Lemma net_le_refl n : net_le n n.
Proof. split; [reflexivity|]. intros c x H. eauto. Qed.

Lemma net_le_trans n1 n2 n3 : net_le n1 n2 -> net_le n2 n3 -> net_le n1 n3.
Proof.
  intros [Hp1 H1] [Hp2 H2]. split; [congruence|].
  intros c x Hc. destruct (H1 c x Hc) as (x' & Hc' & Hpid).
  destruct (H2 c x' Hc') as (x'' & Hc'' & Hpid'). exists x''. split; [exact Hc''|congruence].
Qed.

Lemma stable_ret {A} (a : A) : stable (mret a).
Proof. intros n. apply net_le_refl. Qed.

Lemma stable_raise {A} e : stable (@raise Net A e).
Proof. intros n. apply net_le_refl. Qed.

Lemma stable_lift_res {A} (r : res A) : stable (lift_res r).
Proof. intros n. apply net_le_refl. Qed.

Lemma stable_gets {A} (f : Net -> A) : stable (gets f).
Proof. intros n. apply net_le_refl. Qed.

Lemma stable_bind {A B} (m : N A) (f : A -> N B) :
  stable m -> (forall a, stable (f a)) -> stable (m ≫= f).
Proof.
  intros Hm Hf n. unfold mbind, SM_mbind, sm_bind.
  specialize (Hm n). destruct (m n) as [[a|e| |] n1]; cbn [snd] in *; try exact Hm.
  eapply net_le_trans; [exact Hm|apply Hf].
Qed.

Lemma stable_try_except {A} (m : N A) handles h :
  stable m -> (forall e, stable (h e)) -> stable (try_except m handles h).
Proof.
  intros Hm Hh n. unfold try_except.
  specialize (Hm n). destruct (m n) as [[a|e| |] n1]; cbn [snd] in *; try exact Hm.
  destruct (handles e); [|exact Hm].
  eapply net_le_trans; [exact Hm|apply Hh].
Qed.

Lemma stable_get_conn c : stable (get_conn c).
Proof. intros n. unfold get_conn. destruct (conns n !! c); apply net_le_refl. Qed.

Lemma stable_update_conn c f :
  (forall x, pid (f x) = pid x) -> stable (update_conn c f).
Proof.
  intros Hf n. unfold update_conn. cbn [snd]. split; [reflexivity|].
  cbn [conns]. intros c' x Hc'. destruct (decide (c = c')) as [->|Hne].
  - exists (f x). rewrite list_lookup_alter_eq, Hc'. split; [reflexivity|apply Hf].
  - exists x. rewrite list_lookup_alter_ne by done. split; [exact Hc'|reflexivity].
Qed.

Lemma stable_ask q : stable (ask q).
Proof.
  intros n. unfold ask. destruct (oracle n) as [|[d|e] rest]; cbn [snd];
    (split; [reflexivity|]; intros c x H; eauto).
Qed.

Lemma stable_new_sock : stable new_sock.
Proof. intros n. split; [reflexivity|]. intros c x H. eauto. Qed.

Lemma stable_Connection_new kw : stable (Connection_new kw).
Proof.
  intros n. unfold Connection_new.
  destruct (bind_arguments kw) as [a|e| |]; try apply net_le_refl.
  cbn [snd]. split; [reflexivity|].
  cbn [conns]. intros c x H. exists x. split; [|reflexivity].
  apply lookup_app_l_Some, H.
Qed.

Lemma stable_attr {A} (o : option A) : stable (attr o).
Proof. destruct o; [apply stable_ret|apply stable_raise]. Qed.

Create HintDb stable discriminated.
#[local] Hint Resolve stable_ret stable_raise stable_lift_res stable_gets
  stable_get_conn stable_ask stable_new_sock stable_Connection_new stable_attr
  : stable.
#[local] Hint Extern 2 (stable (_ ≫= _)) => apply stable_bind; [|intros] : stable.
#[local] Hint Extern 2 (stable (try_except _ _ _)) =>
  apply stable_try_except; [|intros] : stable.
#[local] Hint Extern 2 (stable (update_conn _ _)) =>
  apply stable_update_conn; intros; reflexivity : stable.
#[local] Hint Extern 3 (stable (if _ then _ else _)) => case_match : stable.
#[local] Hint Extern 3 (stable (match _ with _ => _ end)) => case_match : stable.
#[local] Hint Extern 3 (stable (let '(_, _) := ?x in _)) => destruct x : stable.

Ltac stable := auto 30 with stable.

Lemma stable_parser_feed c d : stable (parser_feed c d).
Proof. unfold parser_feed. stable. Qed.

Lemma stable_parser_get c : stable (parser_get c).
Proof. unfold parser_get. stable. Qed.
#[local] Hint Resolve stable_parser_feed stable_parser_get : stable.

Lemma stable_read_from_socket c w : stable (read_from_socket c w).
Proof. unfold read_from_socket. stable. Qed.
#[local] Hint Resolve stable_read_from_socket : stable.

Lemma stable_send_command c cmd args : stable (send_command c cmd args).
Proof. unfold send_command. stable. Qed.
#[local] Hint Resolve stable_send_command : stable.

Lemma stable_read_loop fuel : forall c resp, stable (read_loop fuel c resp).
Proof.
  induction fuel as [|fuel IH]; intros c [frame|]; cbn [read_loop]; stable.
Qed.
#[local] Hint Resolve stable_read_loop : stable.

Lemma stable_read_response c : stable (read_response c).
Proof.
  unfold read_response. stable.
Qed.
#[local] Hint Resolve stable_read_response : stable.

Lemma stable_auth_reply c : stable (auth_reply c).
Proof. unfold auth_reply. stable. Qed.
#[local] Hint Resolve stable_auth_reply : stable.

Lemma stable_connect c : stable (connect c).
Proof. unfold connect. stable. Qed.

Lemma stable_disconnect c : stable (disconnect c).
Proof. unfold disconnect. stable. Qed.
#[local] Hint Resolve stable_connect stable_disconnect : stable.

Lemma stable_in_use c : stable (in_use c).
Proof. unfold in_use. stable. Qed.
#[local] Hint Resolve stable_in_use : stable.


(** ** The pool *)

Ltac sm_simpl :=
  unfold mbind, mret, SM_mbind, SM_mret, sm_bind, sm_ret, gets, modify_pool,
    modify, raise, lift_res;
  cbn [fst snd pool net calls set_accounting
       pool_pid max_connections connection_kwargs created_connections
       available_connections in_use_connections].

Section Pool.
Variable limit : Z.

Lemma quiet_ret {A} (a : A) : quiet (mret a).
Proof. intros s. split; [reflexivity|apply net_le_refl]. Qed.

Lemma quiet_raise {A} e : quiet (@raise State A e).
Proof. intros s. split; [reflexivity|apply net_le_refl]. Qed.

Lemma quiet_bind {A B} (m : M A) (f : A -> M B) :
  quiet m -> (forall a, quiet (f a)) -> quiet (m ≫= f).
Proof.
  intros Hm Hf s. unfold mbind, SM_mbind, sm_bind.
  destruct (Hm s) as [Hp Hn]. destruct (m s) as [[a|e| |] s1]; cbn [snd] in *;
    try (split; assumption).
  destruct (Hf a s1) as [Hp' Hn']. split; [congruence|].
  eapply net_le_trans; eassumption.
Qed.

Lemma quiet_try_except {A} (m : M A) handles h :
  quiet m -> (forall e, quiet (h e)) -> quiet (try_except m handles h).
Proof.
  intros Hm Hh s. unfold try_except.
  destruct (Hm s) as [Hp Hn]. destruct (m s) as [[a|e| |] s1]; cbn [snd] in *;
    try (split; assumption).
  destruct (handles e); [|split; assumption].
  destruct (Hh e s1) as [Hp' Hn']. split; [congruence|].
  eapply net_le_trans; eassumption.
Qed.

Lemma quiet_lift_net {A} (m : N A) : stable m -> quiet (lift_net m).
Proof.
  intros Hm s. unfold lift_net. specialize (Hm (net s)).
  destruct (m (net s)) as [r n]. cbn [snd pool net] in *. split; [reflexivity|exact Hm].
Qed.

Lemma quiet_traced {A} w c (show : A -> ending) (m : M A) :
  quiet m -> quiet (traced w c show m).
Proof.
  intros Hm s. unfold traced. specialize (Hm s).
  destruct (m s) as [r s1]. cbn [snd pool net] in *. exact Hm.
Qed.

Lemma pool_inv_frame s s' :
  pool_inv limit s -> pool s' = pool s -> net_le (net s) (net s') -> pool_inv limit s'.
Proof.
  intros (Hlim & Hacc & Hnd & Hpid & Hkw & Hc) Hp [Hg Hn]. unfold pool_inv. rewrite Hp.
  split; [exact Hlim|]. split; [exact Hacc|]. split; [exact Hnd|]. split; [congruence|].
  split; [exact Hkw|].
  intros c Hin. destruct (Hc c Hin) as (x & Hx & Hpx).
  destruct (Hn c x Hx) as (x' & Hx' & Hpx'). exists x'. split; [exact Hx'|congruence].
Qed.

Lemma checkpid_same s :
  pool_pid (pool s) = getpid (net s) -> checkpid s = (Ret tt, s).
Proof.
  intros Hpid. unfold checkpid, lift_net. sm_simpl.
  rewrite bool_decide_eq_false_2 by (intros H; apply H; exact Hpid).
  destruct s; reflexivity.
Qed.

(** [release] of a connection on lease that the pool owns. *)
Lemma release_on_lease c s :
  pool_inv limit s -> c ∈ in_use_connections (pool s) ->
  release c s
  = (Ret tt,
     mkState (set_accounting (pool s) (created_connections (pool s))
                (available_connections (pool s) ++ [c])
                (in_use_connections (pool s) ∖ {[c]}))
       (net s) (calls s)).
Proof.
  intros (Hlim & Hacc & Hnd & Hpid & Hkw & Hc) Hin. unfold release.
  unfold mbind at 1. unfold SM_mbind, sm_bind at 1.
  rewrite (checkpid_same s Hpid). sm_simpl.
  rewrite bool_decide_eq_true_2 by exact Hin. sm_simpl.
  destruct (Hc c (or_intror Hin)) as (x & Hx & Hpx).
  unfold lift_net, get_conn. sm_simpl. rewrite Hx. sm_simpl.
  unfold owns_connection. sm_simpl.
  rewrite bool_decide_eq_true_2 by exact Hpx. sm_simpl. reflexivity.
Qed.

Lemma release_inv c s :
  pool_inv limit s -> c ∈ in_use_connections (pool s) -> pool_inv limit (snd (release c s)).
Proof.
  intros Hinv Hin. rewrite (release_on_lease c s Hinv Hin). cbn [snd].
  destruct Hinv as (Hlim & (Hcr & Hmax & Hdis) & Hnd & Hpid & Hkw & Hc).
  unfold pool_inv, accounted. sm_simpl.
  split; [exact Hlim|]. split; [split; [|split]|split; [|split; [|split]]].
  - rewrite length_app. cbn [length].
    rewrite size_difference by set_solver. rewrite size_singleton.
    assert (size (in_use_connections (pool s)) <> 0)%nat.
    { intros H0. apply size_empty_inv in H0. set_solver. }
    lia.
  - exact Hmax.
  - intros c' Hc'. apply elem_of_app in Hc' as [Hc'|Hc'].
    + specialize (Hdis c' Hc'). set_solver.
    + set_solver.
  - apply NoDup_app. split; [exact Hnd|]. split; [|apply NoDup_singleton].
    intros c' Hc' Hc''. apply list_elem_of_singleton in Hc''. subst c'.
    exact (Hdis c Hc' Hin).
  - exact Hpid.
  - exact Hkw.
  - intros c' [Hc'|Hc'].
    + apply elem_of_app in Hc' as [Hc'|Hc'].
      * apply Hc. by left.
      * apply list_elem_of_singleton in Hc'. subst c'. apply Hc. by right.
    + apply Hc. right. set_solver.
Qed.

Lemma pop_last_snoc (l : list nat) :
  match pop_last l with
  | Some (c, rest) => l = rest ++ [c]
  | None => l = []
  end.
Proof.
  unfold pop_last. destruct (reverse l) as [|c r] eqn:E.
  - apply (f_equal reverse) in E. rewrite reverse_involutive in E. exact E.
  - apply (f_equal reverse) in E. rewrite reverse_involutive, reverse_cons in E.
    exact E.
Qed.

(** The first block of [get_connection]: the connection it returns is on
    lease afterwards. *)
Lemma get_connection_locked_inv s :
  pool_inv limit s ->
  pool_inv limit (snd (get_connection_locked s))
  /\ forall c, fst (get_connection_locked s) = Ret c ->
       c ∈ in_use_connections (pool (snd (get_connection_locked s))).
Proof.
  intros Hinv. pose proof Hinv as (Hlim & (Hcr & Hmax & Hdis) & Hnd & Hpid & Hkw & Hc).
  remember (get_connection_locked s) as out eqn:E.
  unfold get_connection_locked in E.
  unfold mbind at 1 in E. unfold SM_mbind, sm_bind at 1 in E.
  rewrite (checkpid_same s Hpid) in E. revert E. sm_simpl.
  destruct (0 <? Z.of_nat (length (available_connections (pool s)))) eqn:Eav.
  - (* a connection is taken from the pool *)
    pose proof (pop_last_snoc (available_connections (pool s))) as Hpop.
    destruct (pop_last (available_connections (pool s))) as [[c rest]|].
    2: { rewrite Hpop in Eav. discriminate. }
    sm_simpl. intros ->. cbn [fst snd]. rewrite Hpop in *.
    apply NoDup_app in Hnd as (Hnd & Hnin & _).
    assert (Hcu : c ∉ in_use_connections (pool s)) by (apply Hdis; set_solver).
    split; [|intros ? [= <-]; set_solver].
    unfold pool_inv, accounted. sm_simpl.
    split; [exact Hlim|]. split; [split; [|split]|split; [|split; [|split]]].
    + rewrite size_union by set_solver. rewrite size_singleton.
      rewrite length_app in Hcr. cbn [length] in Hcr. lia.
    + exact Hmax.
    + intros c' Hc'. assert (c' <> c) by (intros ->; apply (Hnin c Hc'); set_solver).
      specialize (Hdis c' ltac:(set_solver)). set_solver.
    + exact Hnd.
    + exact Hpid.
    + exact Hkw.
    + intros c' [Hc'|Hc'].
      * apply Hc. left. set_solver.
      * apply elem_of_union in Hc' as [Hc'|Hc'].
        -- apply Hc. left. set_solver.
        -- apply Hc. by right.
  - (* a connection is made *)
    unfold make_connection. sm_simpl.
    destruct (max_connections (pool s) <=? created_connections (pool s)) eqn:Emax.
    { sm_simpl. intros ->. split; [exact Hinv|discriminate]. }
    sm_simpl. unfold lift_net, Connection_new. sm_simpl.
    destruct Hkw as [a Ha]. rewrite Ha. intros ->. cbn [fst snd].
    set (c := length (conns (net s))).
    assert (Hfresh : forall c', c' ∈ available_connections (pool s)
                      \/ c' ∈ in_use_connections (pool s) -> c' <> c).
    { intros c' Hc' ->. destruct (Hc _ Hc') as (x & Hx & _).
      apply lookup_lt_Some in Hx. unfold c in Hx. lia. }
    split; [|intros ? [= <-]; set_solver].
    unfold pool_inv, accounted. sm_simpl.
    split; [exact Hlim|]. split; [split; [|split]|split; [|split; [|split]]].
    + rewrite size_union; [rewrite size_singleton; lia|].
      intros c' Hc1 Hc2. apply elem_of_singleton in Hc1. subst c'.
      exact (Hfresh c (or_intror Hc2) eq_refl).
    + apply Z.leb_gt in Emax. lia.
    + intros c' Hc'. pose proof (Hfresh c' (or_introl Hc')).
      specialize (Hdis c' Hc'). set_solver.
    + exact Hnd.
    + exact Hpid.
    + exists a. exact Ha.
    + intros c' Hc'.
      assert (Hc'' : c' = c \/ c' ∈ available_connections (pool s)
                     \/ c' ∈ in_use_connections (pool s)) by set_solver.
      destruct Hc'' as [-> | Hc''].
      * eexists. split; [apply list_lookup_middle; reflexivity|]. cbn [pid].
        symmetry. exact Hpid.
      * destruct (Hc c' Hc'') as (x & Hx & Hpx). exists x.
        split; [apply lookup_app_l_Some, Hx|exact Hpx].
Qed.

Lemma quiet_unlocked_body c :
  quiet
    (traced MConnect c show_unit (lift_net (connect c));;
     try_except
       (b ← traced MProbe c ReturnedBool (lift_net (in_use c));
        if b : bool then raise (ConnectionError "Connection in use") else mret tt)
       is_ConnectionError
       (fun _ =>
          traced MDisconnect c show_unit (lift_net (disconnect c));;
          traced MConnect c show_unit (lift_net (connect c));;
          b ← traced MProbe c ReturnedBool (lift_net (in_use c));
          if b : bool then raise (ConnectionError "Connection not ready")
          else mret tt)).
Proof.
  assert (Hq : forall msg (b : bool),
            quiet (if b then @raise State unit (ConnectionError msg) else mret tt)).
  { intros msg [|]; [apply quiet_raise|apply quiet_ret]. }
  repeat first
    [ apply quiet_bind; [|intros]
    | apply quiet_try_except; [|intros]
    | apply quiet_traced
    | apply quiet_lift_net
    | apply stable_connect | apply stable_disconnect | apply stable_in_use
    | apply Hq ].
Qed.

Lemma traced_pool_inv {A} w c (show : A -> ending) (m : M A) s :
  pool_inv limit (snd (m s)) -> pool_inv limit (snd (traced w c show m s)).
Proof.
  unfold traced. destruct (m s) as [r s1]. cbn [snd]. intros H. exact H.
Qed.

Lemma get_connection_unlocked_inv c s :
  pool_inv limit s -> c ∈ in_use_connections (pool s) ->
  pool_inv limit (snd (get_connection_unlocked c s)).
Proof.
  intros Hinv Hin. unfold get_connection_unlocked.
  unfold mbind at 1. unfold SM_mbind, sm_bind at 1. unfold try_except at 1.
  destruct (quiet_unlocked_body c s) as [Hp Hn].
  match goal with |- context [?body s] =>
    match type of Hp with pool (snd (?b s)) = _ => change (body s) with (b s) end
  end || idtac.
  match type of Hp with pool (snd (?b s)) = _ =>
    destruct (b s) as [[[]|e| |] s1] eqn:Eb end; cbn [snd] in *;
    try (eapply pool_inv_frame; eassumption).
  destruct (is_Exception e); [|eapply pool_inv_frame; eassumption].
  assert (Hinv1 : pool_inv limit s1) by (eapply pool_inv_frame; eassumption).
  assert (Hin1 : c ∈ in_use_connections (pool s1)) by (rewrite Hp; exact Hin).
  unfold mbind, SM_mbind, sm_bind.
  pose proof (traced_pool_inv MRelease c show_unit (release c) s1
                (release_inv c s1 Hinv1 Hin1)) as Hrel.
  destruct (traced MRelease c show_unit (release c) s1) as [[[]|e'| |] s2];
    cbn [snd] in *; exact Hrel.
Qed.

Lemma quiet_gather_disconnect cs : quiet (gather_disconnect cs).
Proof.
  induction cs as [|c cs IH]; [apply quiet_ret|].
  intros s. cbn [gather_disconnect].
  destruct (quiet_lift_net (disconnect c) (stable_disconnect c) s) as [Hp Hn].
  destruct (lift_net (disconnect c) s) as [[[]|e| |] s1]; cbn [snd] in *;
    try (split; assumption).
  - destruct (quiet_bind (gather_disconnect cs) (fun r => mret (None :: r)) IH
                (fun r => quiet_ret _) s1) as [Hp' Hn'].
    split; [congruence|eapply net_le_trans; eassumption].
  - destruct (quiet_bind (gather_disconnect cs) (fun r => mret (Some e :: r)) IH
                (fun r => quiet_ret _) s1) as [Hp' Hn'].
    split; [congruence|eapply net_le_trans; eassumption].
Qed.

Lemma Pool_disconnect_inv s : pool_inv limit s -> pool_inv limit (snd (Pool_disconnect s)).
Proof.
  intros Hinv. pose proof Hinv as (_ & _ & _ & Hpid & _ & _).
  unfold Pool_disconnect.
  unfold mbind at 1. unfold SM_mbind, sm_bind at 1.
  rewrite (checkpid_same s Hpid).
  assert (Hq : quiet (p ← gets pool;
                      resp ← gather_disconnect
                               (available_connections p
                                ++ elements (in_use_connections p));
                      match first_exception resp with
                      | Some e => raise e
                      | None => mret tt
                      end)).
  { apply quiet_bind; [intros s0; split; [reflexivity|apply net_le_refl]|].
    intros p. apply quiet_bind; [apply quiet_gather_disconnect|].
    intros resp. destruct (first_exception resp); [apply quiet_raise|apply quiet_ret]. }
  destruct (Hq s) as [Hp Hn]. eapply pool_inv_frame; eassumption.
Qed.

Lemma get_connection_inv s : pool_inv limit s -> pool_inv limit (snd (get_connection s)).
Proof.
  intros Hinv. destruct (get_connection_locked_inv s Hinv) as [Hinv1 Hin1].
  unfold get_connection. unfold mbind, SM_mbind, sm_bind.
  destruct (get_connection_locked s) as [[c|e| |] s1]; cbn [fst snd] in *;
    try exact Hinv1.
  apply get_connection_unlocked_inv; [exact Hinv1|apply Hin1; reflexivity].
Qed.

Lemma step_op_inv o s :
  pool_inv limit s -> on_lease o s -> pool_inv limit (step_op o s).
Proof.
  assert (Hq : forall A (m : N A), stable m ->
                 pool_inv limit s -> pool_inv limit (snd (lift_net m s))).
  { intros A m Hm Hinv. destruct (quiet_lift_net m Hm s) as [Hp Hn].
    eapply pool_inv_frame; eassumption. }
  intros Hinv Hl.
  destruct o as [| |c|c| |c|c|c|c cmd args|c]; cbn [step_op on_lease] in *.
  - apply get_connection_inv, Hinv.
  - apply get_connection_locked_inv, Hinv.
  - apply get_connection_unlocked_inv; assumption.
  - apply release_inv; assumption.
  - apply Pool_disconnect_inv, Hinv.
  - apply Hq; [apply stable_connect|exact Hinv].
  - apply Hq; [apply stable_in_use|exact Hinv].
  - apply Hq; [apply stable_disconnect|exact Hinv].
  - apply Hq; [apply stable_send_command|exact Hinv].
  - apply Hq; [apply stable_read_response|exact Hinv].
Qed.

End Pool.

Lemma fresh_state_inv max_conn kw p n :
  ConnectionPool_new (getpid n) max_conn kw = Ret p ->
  accepted kw ->
  pool_inv (if 0 <? max_conn then max_conn else INT32_MAX) (fresh_state p n).
Proof.
  unfold ConnectionPool_new. intros Hp Hkw.
  destruct ((- INT32_MAX - 1 <=? max_conn) && (max_conn <=? INT32_MAX)) eqn:Er;
    [|discriminate].
  injection Hp as <-. apply andb_true_iff in Er as [_ Er]. apply Z.leb_le in Er.
  unfold pool_inv, accounted, fresh_state, reset. sm_simpl.
  split; [reflexivity|]. split; [split; [|split]|split; [|split; [|split]]].
  - reflexivity.
  - destruct (0 <? max_conn) eqn:E; [apply Z.ltb_lt in E; lia|].
    unfold INT32_MAX. lia.
  - intros c Hc. inversion Hc.
  - apply NoDup_nil_2.
  - reflexivity.
  - exact Hkw.
  - intros c [Hc|Hc]; [inversion Hc|set_solver].
Qed.




(** Nor of every pool: [make_connection] counts the connection before it
    calls the constructor, so with a keyword argument that [Connection] does
    not take a lease raises [TypeError] and leaves one connection counted
    and none in the pool. *)
Lemma unknown_keyword_breaks_accounting :
  let out := get_connection
               (fresh_state (pool0 0 kw_unknown) (net0 answers_idle)) in
  fst out = Raise TypeError
  /\ created_connections (pool (snd out)) = 1
  /\ available_connections (pool (snd out)) = []
  /\ elements (in_use_connections (pool (snd out))) = []
  /\ ~ accounted (pool (snd out)).
Proof.
  cbv zeta. repeat split; try (vm_compute; reflexivity).
  intros (H & _). vm_compute in H. discriminate.
Qed.

(** ** The calls of a lease *)


(** A traced call adds one entry to the record, which tells how the call
    ended. *)
Lemma traced_spec {A} w c (show : A -> ending) (m : M A) s :
  exists r s1,
    m s = (r, s1)
    /\ traced w c show m s
       = (r, mkState (pool s1) (net s1) (calls s1 ++ [mkCall w c (ending_of show r)])).
Proof. unfold traced. destruct (m s) as [r s1]. eauto. Qed.

Lemma lift_net_calls {A} (m : N A) s : calls (snd (lift_net m s)) = calls s.
Proof. unfold lift_net. destruct (m (net s)). reflexivity. Qed.

(** A traced call on the connection: the record grows by that call. *)
Lemma traced_net {A} w c (show : A -> ending) (m : N A) s :
  exists r s1,
    traced w c show (lift_net m) s = (r, s1)
    /\ calls s1 = calls s ++ [mkCall w c (ending_of show r)].
Proof.
  unfold traced. pose proof (lift_net_calls m s) as Hc.
  destruct (lift_net m s) as [r s1]. cbn [snd] in Hc.
  eexists _, _. split; [reflexivity|]. cbn [calls]. rewrite Hc. reflexivity.
Qed.

Lemma silent_ret {A} (a : A) : silent (mret a).
Proof. intros s. reflexivity. Qed.

Lemma silent_bind {A B} (m : M A) (f : A -> M B) :
  silent m -> (forall a, silent (f a)) -> silent (m ≫= f).
Proof.
  intros Hm Hf s. unfold mbind, SM_mbind, sm_bind. specialize (Hm s).
  destruct (m s) as [[a|e| |] s1]; cbn [snd] in *; try exact Hm.
  rewrite Hf. exact Hm.
Qed.

Lemma silent_gets {A} (f : State -> A) : silent (gets f).
Proof. intros s. reflexivity. Qed.

Lemma silent_modify_pool f : silent (modify_pool f).
Proof. intros s. reflexivity. Qed.

Lemma silent_lift_net {A} (m : N A) : silent (lift_net m).
Proof. intros s. apply lift_net_calls. Qed.

Lemma silent_checkpid : silent checkpid.
Proof.
  unfold checkpid.
  repeat first [ apply silent_bind; [|intros] | apply silent_lift_net
               | apply silent_gets | apply silent_modify_pool | apply silent_ret
               | case_match ].
Qed.

Lemma silent_release c : silent (release c).
Proof.
  unfold release.
  repeat first [ apply silent_bind; [|intros] | apply silent_lift_net
               | apply silent_checkpid
               | apply silent_gets | apply silent_modify_pool | apply silent_ret
               | case_match ].
Qed.

Lemma traced_release c s :
  exists r s1,
    traced MRelease c show_unit (release c) s = (r, s1)
    /\ calls s1 = calls s ++ [mkCall MRelease c (ending_of show_unit r)].
Proof.
  unfold traced. pose proof (silent_release c s) as Hc.
  destruct (release c s) as [r s1]. cbn [snd] in Hc.
  eexists _, _. split; [reflexivity|]. cbn [calls]. rewrite Hc. reflexivity.
Qed.

Ltac run_call H :=
  match goal with
  | |- context [traced ?w ?c ?show (lift_net ?m) ?s] =>
      let r := fresh "r" in let s1 := fresh "s" in let Hr := fresh "Hr" in
      destruct (traced_net w c show m s) as (r & s1 & Hr & H);
      rewrite Hr; clear Hr
  end.

Ltac run_release H :=
  match goal with
  | |- context [traced MRelease ?c show_unit (release ?c) ?s] =>
      let r := fresh "r" in let s1 := fresh "s" in let Hr := fresh "Hr" in
      destruct (traced_release c s) as (r & s1 & Hr & H);
      rewrite Hr; clear Hr;
      destruct r as [[]| | |]; cbn [ending_of show_unit] in H
  end.

(** The record at the end, from the record of each call. *)
Ltac chain_calls :=
  cbn [fst snd];
  repeat match goal with
         | H : calls ?x = _ |- context [calls ?x] => rewrite H; clear H
         end;
  repeat rewrite <- app_assoc; cbn [app]; reflexivity.

Ltac solve_aborts :=
  lazymatch goal with
  | |- aborts ?c (Raised ?e) [{| what := MRelease; target := _; how := ?h |}] _ =>
      apply (aborts_exception c e h); assumption
  | |- aborts _ (Raised _) [] _ => apply aborts_other; assumption
  | |- aborts _ Crashed [] _ => apply aborts_crashed
  | |- aborts _ Stuck [] _ => apply aborts_stuck
  end.

(** A call that did not return: the handler of the outer [try]. *)
Ltac abort_leaf k :=
  cbn [ending_of show_unit] in *;
  lazymatch goal with
  | |- context [is_Exception ?e] =>
      let Ee := fresh "Ee" in
      destruct (is_Exception e) eqn:Ee;
      [ let H := fresh "Hrel" in run_release H;
        (eexists; split; [chain_calls|]); cbn [fst]; k; solve_aborts
      | (eexists; split; [chain_calls|]); cbn [fst]; k; solve_aborts ]
  | |- _ => (eexists; split; [chain_calls|]); cbn [fst]; k; solve_aborts
  end.

(** The reconnect, after a first probe that asked for it. *)
Ltac reconnect_block Hask :=
  let H3 := fresh "H3" in let H4 := fresh "H4" in let H5 := fresh "H5" in
  run_call H3;
  lazymatch goal with r : res unit |- _ => destruct r as [[]| | |] end;
  [ run_call H4;
    lazymatch goal with r : res unit |- _ => destruct r as [[]| | |] end;
    [ run_call H5;
      lazymatch goal with r : res bool |- _ => destruct r as [[|]| | |] end;
      [ (* still data: not ready *)
        cbn [ending_of is_Exception] in *;
        let H := fresh "Hrel" in run_release H;
        (eexists; split; [chain_calls|]); cbn [fst];
        (apply lease_reconnects; [exact Hask|]);
        lazymatch goal with
        | |- reconnects ?c [_; _; _; {| what := _; target := _; how := ?h |}] _ =>
            apply (reconnect_not_ready c h)
        end
      | (* idle: the lease succeeds *)
        cbn [ending_of] in *; eexists; split; [chain_calls|]; cbn [fst];
        apply lease_reconnects; [exact Hask|apply reconnect_ready]
      | abort_leaf ltac:(apply lease_reconnects; [exact Hask|];
                         apply reconnect_probe_fails) .. ]
    | abort_leaf ltac:(apply lease_reconnects; [exact Hask|];
                       apply reconnect_connect_fails) .. ]
  | abort_leaf ltac:(apply lease_reconnects; [exact Hask|];
                     apply reconnect_disconnect_fails) .. ].

(** Claim C4, as the code behaves.  The calls that the second block of
    [get_connection] makes on its connection, and its result, are those of
    [lease_calls]: connect and probe; when the first probe reports data or
    raises a [ConnectionError], one reconnect (disconnect, connect, probe
    again) and no second one; a second probe that still reports data makes
    the lease fail with [ConnectionError("Connection not ready")]; a
    connect that raises is not followed by a reconnect; and whenever one of
    these calls raises an [Exception], [release] is called on the connection
    before the exception is raised again. *)
Theorem lease_protocol c s :
  exists t,
    calls (snd (get_connection_unlocked c s)) = calls s ++ t
    /\ lease_calls c t (fst (get_connection_unlocked c s)).
Proof.
  unfold get_connection_unlocked.
  unfold mbind, SM_mbind, sm_bind, try_except, raise, mret, SM_mret, sm_ret.
  run_call H1. destruct r as [[]|e1| |].
  2-4: abort_leaf ltac:(apply lease_connect_fails).
  run_call H2. destruct r as [[|]|e2| |].
  - (* data present *)
    cbn [is_ConnectionError ending_of show_unit] in *.
    reconnect_block (eq_refl : asks_reconnect (ReturnedBool true) = true).
  - (* idle *)
    cbn [ending_of show_unit] in *. eexists. split; [chain_calls|]. cbn [fst].
    apply lease_idle.
  - destruct (is_ConnectionError e2) eqn:Ec.
    + cbn [ending_of show_unit] in *.
      reconnect_block (Ec : asks_reconnect (Raised e2) = true).
    + abort_leaf ltac:(apply lease_probe_fails; [exact Ec|]).
  - abort_leaf ltac:(apply lease_probe_fails; [reflexivity|]).
  - abort_leaf ltac:(apply lease_probe_fails; [reflexivity|]).
Qed.

(** Claim C4 does not hold of a connect that fails: the first [connect] is
    outside the inner [try], so when the network refuses the connection the
    lease releases the connection and raises, without a disconnect or a
    second connect, though the network would have accepted the second
    one. *)
Lemma lease_connect_not_retried :
  let refused := ConnectionSubclassError "Connection refused" in
  let out := get_connection
               (fresh_state (pool0 0 ∅) (net0 (Fails refused :: answers_idle))) in
  fst out = Raise refused
  /\ calls (snd out)
     = [mkCall MConnect 0 (Raised refused); mkCall MRelease 0 Returned]
  /\ io_log (net (snd out)) = [Open (Some "localhost") 7036]
  /\ oracle (net (snd out)) = answers_idle.
Proof. cbv zeta. repeat split; vm_compute; reflexivity. Qed.

(** A lease that is cancelled while it probes: [CancelledError] is no
    [Exception], the connection is not released and stays on lease. *)
Lemma lease_cancelled_not_released :
  let out := get_connection
               (fresh_state (pool0 0 ∅) (net0 [Done []; Fails CancelledError])) in
  fst out = Raise CancelledError
  /\ calls (snd out)
     = [mkCall MConnect 0 Returned; mkCall MProbe 0 (Raised CancelledError)]
  /\ elements (in_use_connections (pool (snd out))) = [0%nat]
  /\ available_connections (pool (snd out)) = [].
Proof. cbv zeta. repeat split; vm_compute; reflexivity. Qed.

(** ** The handshake of [connect] *)

(** Claim C5, which the code does not meet.  [connect] passes the password,
    a [str], where [send_command] declares [tuple args]: once the
    connection is open the call raises [TypeError].  Nothing was written to
    the socket and nothing read from it, the exception is not the one for a
    failed handshake, and the connection is left connected. *)
Theorem connect_with_password c n x pw a rest :
  conns n !! c = Some x ->
  is_connected x = false ->
  password x = Some pw ->
  oracle n = Done a :: rest ->
  let out := connect c n in
  fst out = Raise TypeError
  /\ io_log (snd out) = io_log n ++ [Open (host x) (port x)]
  /\ oracle (snd out) = rest
  /\ exists x', conns (snd out) !! c = Some x' /\ is_connected x' = true.
Proof.
  intros Hc Hd Hpw Ho.
  assert (E : connect c n
              = (Raise TypeError,
                 mkNet (alter (fun x => set_streams x (Some (next_sock n))
                                          (Some (next_sock n))) c (conns n))
                   rest (getpid n) (S (next_sock n))
                   (io_log n ++ [Open (host x) (port x)]))).
  { unfold connect, mbind, SM_mbind, sm_bind, get_conn. rewrite Hc, Hd.
    unfold ask. rewrite Ho, Hpw. reflexivity. }
  cbv zeta. rewrite E. cbn [fst snd io_log oracle conns].
  split; [reflexivity|]. split; [reflexivity|]. split; [reflexivity|].
  exists (set_streams x (Some (next_sock n)) (Some (next_sock n))).
  rewrite list_lookup_alter_eq, Hc. split; reflexivity.
Qed.

(** A connection made with a password, and a server that would answer
    [ok]. *)
Lemma connect_with_password_witness :
  let n := snd (Connection_new kw_password
                  (net0 [Done []; Done (wire "2\nok\n\n")])) in
  let out := connect 0 n in
  fst out = Raise TypeError
  /\ io_log (snd out) = [Open (Some "localhost") 7036]
  /\ oracle (snd out) = [Done (wire "2\nok\n\n")]
  /\ exists x', conns (snd out) !! 0%nat = Some x' /\ is_connected x' = true.
Proof.
  apply (connect_with_password 0
           (snd (Connection_new kw_password
                   (net0 [Done []; Done (wire "2\nok\n\n")])))
           (mkConnection 100 (Some "localhost") 7036 (Some "secret") false 65536
              Parser.Reader_new None None None)
           "secret" [] [Done (wire "2\nok\n\n")]); reflexivity.
Defined.

(** The reply to [auth] is read and dropped: whatever its status, the
    handshake succeeds. *)
Lemma auth_reply_any_frame c n x frame :
  conns n !! c = Some x ->
  next_response x = Some frame ->
  fst (auth_reply c n) = Ret tt.
Proof.
  intros Hc Hf. unfold auth_reply, try_except, read_response.
  unfold mbind, SM_mbind, sm_bind, get_conn. rewrite Hc, Hf. reflexivity.
Qed.

End ConnFacts.


(** * The parser and the encoder on whole frames *)

Module WireFacts.
Import Parser Encode Wire.
Import ParserFacts EncodeFacts.



Lemma uint_value_ge d : forall acc,
  0 <= acc -> acc * 10 ^ Z.of_nat (Decimal.nb_digits d) <= uint_value acc d.
Proof.
  induction d; intros acc Hacc; cbn [uint_value Decimal.nb_digits];
    [ simpl; lia | ..];
    (etransitivity; [|apply IHd; lia]);
    rewrite Nat2Z.inj_succ, Z.pow_succ_r by lia;
    pose proof (Z.pow_nonneg 10 (Z.of_nat (Decimal.nb_digits d)) ltac:(lia));
    nia.
Qed.

Lemma unorm_fixed d :
  Decimal.unorm d = d ->
  d = Decimal.zero \/ 10 ^ Z.of_nat (Decimal.nb_digits d - 1) <= uint_value 0 d.
Proof.
  intros Hd. destruct d as [|d| d|d|d|d|d|d|d|d|d].
  - discriminate.
  - left. destruct d; try reflexivity;
      (exfalso; rewrite unorm_D0 in Hd;
       match type of Hd with Decimal.unorm ?u = _ =>
         pose proof (nb_digits_unorm u ltac:(discriminate)) as Hn end;
       rewrite Hd in Hn; cbn [Decimal.nb_digits] in Hn; lia).
  - right. cbn [uint_value Decimal.nb_digits]. rewrite Nat.sub_succ, Nat.sub_0_r.
    etransitivity; [|apply uint_value_ge; lia]. lia.
  - right. cbn [uint_value Decimal.nb_digits]. rewrite Nat.sub_succ, Nat.sub_0_r.
    etransitivity; [|apply uint_value_ge; lia].
    pose proof (Z.pow_nonneg 10 (Z.of_nat (Decimal.nb_digits d)) ltac:(lia)). lia.
  - right. cbn [uint_value Decimal.nb_digits]. rewrite Nat.sub_succ, Nat.sub_0_r.
    etransitivity; [|apply uint_value_ge; lia].
    pose proof (Z.pow_nonneg 10 (Z.of_nat (Decimal.nb_digits d)) ltac:(lia)). lia.
  - right. cbn [uint_value Decimal.nb_digits]. rewrite Nat.sub_succ, Nat.sub_0_r.
    etransitivity; [|apply uint_value_ge; lia].
    pose proof (Z.pow_nonneg 10 (Z.of_nat (Decimal.nb_digits d)) ltac:(lia)). lia.
  - right. cbn [uint_value Decimal.nb_digits]. rewrite Nat.sub_succ, Nat.sub_0_r.
    etransitivity; [|apply uint_value_ge; lia].
    pose proof (Z.pow_nonneg 10 (Z.of_nat (Decimal.nb_digits d)) ltac:(lia)). lia.
  - right. cbn [uint_value Decimal.nb_digits]. rewrite Nat.sub_succ, Nat.sub_0_r.
    etransitivity; [|apply uint_value_ge; lia].
    pose proof (Z.pow_nonneg 10 (Z.of_nat (Decimal.nb_digits d)) ltac:(lia)). lia.
  - right. cbn [uint_value Decimal.nb_digits]. rewrite Nat.sub_succ, Nat.sub_0_r.
    etransitivity; [|apply uint_value_ge; lia].
    pose proof (Z.pow_nonneg 10 (Z.of_nat (Decimal.nb_digits d)) ltac:(lia)). lia.
  - right. cbn [uint_value Decimal.nb_digits]. rewrite Nat.sub_succ, Nat.sub_0_r.
    etransitivity; [|apply uint_value_ge; lia].
    pose proof (Z.pow_nonneg 10 (Z.of_nat (Decimal.nb_digits d)) ltac:(lia)). lia.
  - right. cbn [uint_value Decimal.nb_digits]. rewrite Nat.sub_succ, Nat.sub_0_r.
    etransitivity; [|apply uint_value_ge; lia].
    pose proof (Z.pow_nonneg 10 (Z.of_nat (Decimal.nb_digits d)) ltac:(lia)). lia.
Qed.

Lemma string_of_uint_length d :
  length (bytes_of_string (NilEmpty.string_of_uint d)) = Decimal.nb_digits d.
Proof. induction d; simpl; auto. Qed.

(** The numeral of a length has at most ten digits below [2^31]. *)
Lemma decimal_ascii_length n :
  Z.of_nat n < 2 ^ 31 -> (1 <= length (decimal_ascii n) <= 10)%nat.
Proof.
  intros Hn. unfold decimal_ascii, str_of_int.
  assert (Z.to_int (Z.of_nat n) = Decimal.Pos (N.to_uint (N.of_nat n))) as ->.
  { destruct n; reflexivity. }
  cbn [NilZero.string_of_int]. unfold NilZero.string_of_uint.
  pose proof (DecimalN.Unsigned.of_to (N.of_nat n)) as Hot.
  pose proof (DecimalN.Unsigned.to_of (N.to_uint (N.of_nat n))) as Hto.
  rewrite Hot in Hto.
  remember (N.to_uint (N.of_nat n)) as d eqn:E.
  assert (Hv : uint_value 0 d = Z.of_nat n) by (rewrite uint_value_of_uint, Hot; lia).
  destruct (unorm_fixed d (eq_sym Hto)) as [->|Hge]; [simpl; lia|].
  assert (Hlen : length (bytes_of_string
                   match d with Decimal.Nil => "0"%string
                   | _ => NilEmpty.string_of_uint d end) = Decimal.nb_digits d).
  { destruct d; try apply string_of_uint_length. discriminate Hto. }
  rewrite Hlen. rewrite Hv in Hge.
  destruct (Decimal.nb_digits d) as [|k] eqn:Ek.
  { destruct d; discriminate. }
  split; [lia|]. rewrite Nat.sub_succ, Nat.sub_0_r in Hge.
  destruct (le_lt_dec k 9) as [|Hk]; [lia|]. exfalso.
  assert (10 ^ 10 <= 10 ^ Z.of_nat k) by (apply Z.pow_le_mono_r; lia).
  lia.
Qed.

(** ** Reading a window of the memory *)



Lemma seen_length m ptr e :
  0 <= ptr <= e -> e <= Z.of_nat (length m) ->
  Z.of_nat (length (seen m ptr e)) = e - ptr.
Proof.
  intros Hp He. unfold seen. rewrite length_take, length_drop. lia.
Qed.

Lemma seen_lookup m ptr e i :
  0 <= ptr -> 0 <= i < e - ptr ->
  m !! Z.to_nat (ptr + i) = seen m ptr e !! Z.to_nat i.
Proof.
  intros Hp Hi. unfold seen. rewrite lookup_take_lt by lia.
  rewrite lookup_drop. f_equal. lia.
Qed.

Lemma seen_rd m ptr e i :
  0 <= ptr -> 0 <= i < e - ptr ->
  rd m (ptr + i) = default 0 (seen m ptr e !! Z.to_nat i).
Proof. intros Hp Hi. unfold rd. rewrite (seen_lookup m ptr e) by lia. reflexivity. Qed.

Lemma seen_take_drop m ptr e j l :
  0 <= ptr -> 0 <= j -> 0 <= l -> j + l <= e - ptr ->
  take (Z.to_nat l) (drop (Z.to_nat (ptr + j)) m)
  = take (Z.to_nat l) (drop (Z.to_nat j) (seen m ptr e)).
Proof.
  intros Hp Hj Hl Hle. apply list_eq. intros i.
  destruct (decide (i < Z.to_nat l)%nat) as [Hi|Hi].
  - rewrite !lookup_take_lt by lia. rewrite !lookup_drop.
    replace (Z.to_nat (ptr + j) + i)%nat with (Z.to_nat (ptr + (j + Z.of_nat i))) by lia.
    rewrite (seen_lookup m ptr e) by lia. f_equal. lia.
  - rewrite !lookup_take_ge by lia. reflexivity.
Qed.

Lemma seen_shift m ptr e j :
  0 <= ptr -> 0 <= j <= e - ptr ->
  seen m (ptr + j) e = drop (Z.to_nat j) (seen m ptr e).
Proof.
  intros Hp Hj. apply list_eq. intros i. unfold seen at 1.
  rewrite lookup_drop.
  destruct (decide (i < Z.to_nat (e - (ptr + j)))%nat) as [Hi|Hi].
  - rewrite lookup_take_lt by lia. rewrite lookup_drop.
    replace (Z.to_nat (ptr + j) + i)%nat with (Z.to_nat (ptr + (j + Z.of_nat i))) by lia.
    rewrite (seen_lookup m ptr e) by lia. f_equal. lia.
  - rewrite lookup_take_ge by lia. unfold seen. rewrite lookup_take_ge by lia.
    reflexivity.
Qed.

(** [memchr] stops at the first occurrence. *)
Lemma memchr_first (mem : bytes) c (pre : bytes) : forall p n,
  0 <= p ->
  (forall i x, pre !! i = Some x ->
     mem !! (Z.to_nat p + i)%nat = Some x /\ x <> c) ->
  mem !! (Z.to_nat p + length pre)%nat = Some c ->
  (length pre < n)%nat ->
  memchr mem p c n = Ret (Some (p + Z.of_nat (length pre))).
Proof.
  induction pre as [|b pre IH]; intros p n Hp Hpre Hc Hn.
  - destruct n as [|n]; [cbn in Hn; lia|]. cbn [memchr length] in *.
    rewrite Nat.add_0_r in Hc. unfold peek.
    destruct (p <? 0) eqn:E; [apply Z.ltb_lt in E; lia|]. rewrite Hc.
    cbn [mbind res_mbind res_bind]. rewrite Z.eqb_refl. f_equal. f_equal. lia.
  - destruct n as [|n]; [cbn in Hn; lia|]. cbn [memchr length] in *.
    destruct (Hpre 0%nat b eq_refl) as [Hb Hne]. rewrite Nat.add_0_r in Hb.
    unfold peek. destruct (p <? 0) eqn:E; [apply Z.ltb_lt in E; lia|]. rewrite Hb.
    cbn [mbind res_mbind res_bind].
    destruct (b =? c) eqn:Ebc; [apply Z.eqb_eq in Ebc; contradiction|].
    rewrite (IH (p + 1) n); [f_equal; f_equal; lia|lia| | |lia].
    + intros i x Hi. replace (Z.to_nat (p + 1) + i)%nat with (Z.to_nat p + S i)%nat by lia.
      apply Hpre. exact Hi.
    + replace (Z.to_nat (p + 1) + length pre)%nat
        with (Z.to_nat p + S (length pre))%nat by lia. exact Hc.
Qed.

Lemma digits_value_app (ds tail : bytes) : forall acc,
  forallb is_digit ds = true ->
  match tail with [] => True | b :: _ => is_digit b = false end ->
  digits_value acc (ds ++ tail) = fold_left (fun a b => a * 10 + (b - 48)) ds acc.
Proof.
  induction ds as [|d ds IH]; intros acc Hds Ht.
  - cbn. destruct tail as [|b tail]; [reflexivity|]. cbn. rewrite Ht. reflexivity.
  - cbn [forallb] in Hds. apply andb_true_iff in Hds as [Hd Hds].
    cbn [app digits_value fold_left]. rewrite Hd. apply IH; assumption.
Qed.

(** [atoi] of the numeral of a length, whatever follows it that is no
    digit. *)
Lemma atoi_decimal n (tail : bytes) :
  Z.of_nat n < 2 ^ 31 ->
  match tail with [] => True | b :: _ => is_digit b = false end ->
  atoi (decimal_ascii n ++ tail) = Z.of_nat n.
Proof.
  intros Hn Ht.
  destruct (str_of_int_decimal (Z.of_nat n) ltac:(lia)) as (Hne & Hd & Hv).
  fold (decimal_ascii n) in Hne, Hd, Hv.
  unfold atoi, strtol.
  destruct (decimal_ascii n) as [|d ds] eqn:E; [congruence|].
  pose proof Hd as Hd'. cbn [forallb] in Hd'. apply andb_true_iff in Hd' as [Hd0 _].
  assert (Hsp : is_space d = false).
  { unfold is_digit in Hd0. unfold is_space. lia. }
  cbn [app skip_spaces]. rewrite Hsp.
  assert (d <> 45 /\ d <> 43) as [H45 H43] by (unfold is_digit in Hd0; lia).
  assert (Hval : digits_value 0 (d :: ds ++ tail) = Z.of_nat n).
  { change (d :: ds ++ tail) with ((d :: ds) ++ tail).
    rewrite digits_value_app by assumption. exact Hv. }
  assert (Hcases : d = 48 \/ d = 49 \/ d = 50 \/ d = 51 \/ d = 52 \/ d = 53
                   \/ d = 54 \/ d = 55 \/ d = 56 \/ d = 57)
    by (unfold is_digit in Hd0; lia).
  assert (Hm : match d :: ds ++ tail with
               | 45 :: s' => - digits_value 0 s'
               | 43 :: s' => digits_value 0 s'
               | _ => digits_value 0 (d :: ds ++ tail)
               end = Z.of_nat n).
  { destruct Hcases as [->|[->|[->|[->|[->|[->|[->|[->|[->| ->]]]]]]]]];
      exact Hval. }
  rewrite Hm. rewrite Z.min_r, Z.max_r by (unfold LONG_MAX, LONG_MIN; lia).
  apply wrap_int_small; lia.
Qed.


Lemma eol_cr e : eol_bytes e = cr e ++ [LF].
Proof. destruct e; reflexivity. Qed.

Lemma cr_length e : (length (cr e) <= 1)%nat.
Proof. destruct e; cbn; lia. Qed.

Lemma seen_at m ptr e (l1 : bytes) x (l2 : bytes) :
  0 <= ptr -> ptr <= e -> e <= Z.of_nat (length m) ->
  seen m ptr e = l1 ++ x :: l2 ->
  rd m (ptr + Z.of_nat (length l1)) = x.
Proof.
  intros Hp Hpe He Hs.
  pose proof (seen_length m ptr e ltac:(lia) He) as Hl.
  rewrite Hs, length_app in Hl. cbn [length] in Hl.
  rewrite (seen_rd m ptr e) by lia. rewrite Hs, Nat2Z.id.
  rewrite list_lookup_middle by reflexivity. reflexivity.
Qed.

Ltac reassoc :=
  repeat rewrite <- app_assoc; repeat rewrite <- app_comm_cons;
  repeat rewrite <- app_assoc; cbn [app]; reflexivity.

Lemma parse_step_blob m e ptr (t : bytes) e1 e2 (rest : bytes) :
  0 <= ptr -> ptr <= e -> e <= Z.of_nat (length m) -> e <= 2 * BUF_MAX_SIZE ->
  seen m ptr e = blob_wire t e1 e2 ++ rest ->
  parse_step m e ptr (e - ptr)
  = Ret (Next (ptr + Z.of_nat (length (blob_wire t e1 e2)))
           (e - (ptr + Z.of_nat (length (blob_wire t e1 e2)))) t).
Proof.
  intros Hp Hpe He Hmax Hs.
  pose proof (seen_length m ptr e ltac:(lia) He) as Hl.
  unfold blob_wire in *. rewrite !eol_cr in *.
  set (dec := decimal_ascii (length t)) in *.
  rewrite Hs in Hl. rewrite !length_app in Hl. cbn [length] in Hl.
  pose proof (cr_length e1) as Hc1. pose proof (cr_length e2) as Hc2.
  assert (Hn : Z.of_nat (length t) < 2 ^ 31) by (unfold BUF_MAX_SIZE in Hmax; lia).
  destruct (decimal_ascii_length (length t) Hn) as [Hd1 Hd10]. fold dec in Hd1, Hd10.
  destruct (str_of_int_decimal (Z.of_nat (length t)) ltac:(lia)) as (_ & Hdig & _).
  change (bytes_of_string (str_of_int (Z.of_nat (length t)))) with dec in Hdig.
  set (q := ptr + Z.of_nat (length dec) + Z.of_nat (length (cr e1))).
  assert (Hs1 : seen m ptr e
                = (dec ++ cr e1) ++ LF :: (t ++ cr e2 ++ LF :: rest)).
  { rewrite Hs. repeat rewrite <- app_assoc. reflexivity. }
  assert (Hmem : memchr m ptr LF (Z.to_nat (e - ptr)) = Ret (Some q)).
  { replace q with (ptr + Z.of_nat (length (dec ++ cr e1)))
      by (rewrite length_app; lia).
    apply memchr_first; [lia| | |rewrite length_app; lia].
    - intros i x Hi.
      assert (Hlt : (i < length (dec ++ cr e1))%nat) by (eapply lookup_lt_Some; eauto).
      rewrite length_app in Hlt. split.
      + replace (Z.to_nat ptr + i)%nat with (Z.to_nat (ptr + Z.of_nat i)) by lia.
        rewrite (seen_lookup m ptr e) by lia. rewrite Hs1, Nat2Z.id.
        apply lookup_app_l_Some. exact Hi.
      + apply lookup_app_Some in Hi as [Hi|[_ Hi]].
        * rewrite forallb_forall in Hdig.
          assert (Hx : is_digit x = true).
          { apply Hdig. apply list_elem_of_In. eapply list_elem_of_lookup_2; eauto. }
          unfold is_digit, LF in *. lia.
        * destruct e1; cbn in Hi; [rewrite lookup_nil in Hi; discriminate|].
          destruct (i - length dec)%nat; cbn in Hi; [|discriminate].
          injection Hi as <-. discriminate.
    - replace (Z.to_nat ptr + length (dec ++ cr e1))%nat
        with (Z.to_nat (ptr + Z.of_nat (length (dec ++ cr e1)))) by lia.
      rewrite (seen_lookup m ptr e) by (try rewrite length_app; lia).
      rewrite Hs1, Nat2Z.id. apply list_lookup_middle. reflexivity. }
  rewrite (parse_step_eval m e ptr q) by (unfold q; lia || exact Hmem).
  unfold blob_step.
  (* the first byte of the line *)
  assert (Hrd0 : is_digit (rd m ptr) = true).
  { destruct dec as [|d0 ds] eqn:Ed; [cbn in Hd1; lia|].
    replace ptr with (ptr + Z.of_nat (length (@nil Z))) by (cbn; lia).
    rewrite (seen_at m ptr e [] d0 (ds ++ cr e1 ++ LF :: t ++ cr e2 ++ LF :: rest));
      try lia.
    - cbn [forallb] in Hdig. apply andb_true_iff in Hdig as [H0 _]. exact H0.
    - rewrite Hs1. reassoc. }
  (* the size *)
  assert (Hsz : atoi (take (Z.to_nat (q + 1 - ptr - 1)) (drop (Z.to_nat ptr) m))
                = Z.of_nat (length t)).
  { replace (Z.to_nat ptr) with (Z.to_nat (ptr + 0)) by (f_equal; lia).
    rewrite (seen_take_drop m ptr e 0) by (unfold q; lia).
    rewrite Hs1. change (Z.to_nat 0) with 0%nat. rewrite drop_0.
    rewrite take_app_length' by (unfold q; rewrite length_app; lia).
    apply atoi_decimal; [exact Hn|]. destruct e1; cbn; auto. }
  rewrite Hsz.
  (* the line end after the blob *)
  set (p := q + 1 + Z.of_nat (length t)).
  assert (Hterm : terminator m e p = Z.of_nat (length (cr e2)) + 1).
  { unfold terminator.
    assert (Hp0 : p = ptr + Z.of_nat (length ((dec ++ cr e1) ++ LF :: t)))
      by (unfold p, q; rewrite !length_app; cbn [length]; lia).
    destruct (p <? e) eqn:Epe; [|apply Z.ltb_ge in Epe; unfold p, q in Epe; lia].
    destruct e2; cbn [cr length app] in *.
    - rewrite Hp0.
      rewrite (seen_at m ptr e _ LF rest); try lia.
      + reflexivity.
      + rewrite Hs1. reassoc.
    - assert (H0 : rd m p = CR).
      { rewrite Hp0. apply (seen_at m ptr e _ CR (LF :: rest)); try lia.
        rewrite Hs1. reassoc. }
      assert (H1 : rd m (p + 1) = LF).
      { replace (p + 1) with (ptr + Z.of_nat (length (((dec ++ cr e1) ++ LF :: t) ++ [CR])))
          by (rewrite Hp0, (length_app _ [CR]); cbn [length]; lia).
        apply (seen_at m ptr e _ LF rest); try lia.
        rewrite Hs1. reassoc. }
      rewrite H0, H1.
      destruct (p + 1 <? e) eqn:Ep1; [reflexivity|].
      apply Z.ltb_ge in Ep1. unfold p, q in Ep1. lia. }
  rewrite Hterm.
  assert (Hval : take (Z.to_nat (Z.of_nat (length t))) (drop (Z.to_nat (q + 1)) m) = t).
  { replace (q + 1) with (ptr + (q + 1 - ptr)) by lia.
    rewrite (seen_take_drop m ptr e) by (unfold q; lia).
    rewrite Hs1.
    replace (Z.to_nat (q + 1 - ptr)) with (length ((dec ++ cr e1) ++ [LF]))
      by (unfold q; rewrite !length_app; cbn [length]; lia).
    change (LF :: t ++ cr e2 ++ LF :: rest) with ([LF] ++ t ++ cr e2 ++ LF :: rest).
    rewrite (app_assoc _ [LF]). rewrite drop_app_length.
    rewrite Nat2Z.id. apply take_app_length. }
  rewrite Hval.
  unfold is_digit in Hrd0.
  repeat match goal with
         | |- context [if ?c then _ else _] =>
             let E := fresh "E" in
             destruct c eqn:E;
             [exfalso; unfold q, p, CR, BUF_MAX_SIZE in *; lia|clear E]
         end.
  f_equal. unfold p, q. rewrite !length_app. cbn [length]. f_equal; lia.
Qed.

Lemma parse_step_end m e ptr last (rest : bytes) :
  0 <= ptr -> ptr <= e -> e <= Z.of_nat (length m) -> e <= 2 * BUF_MAX_SIZE ->
  seen m ptr e = eol_bytes last ++ rest ->
  parse_step m e ptr (e - ptr)
  = Ret (Exit (Found (ptr + Z.of_nat (length (eol_bytes last))))).
Proof.
  intros Hp Hpe He Hmax Hs.
  pose proof (seen_length m ptr e ltac:(lia) He) as Hl.
  rewrite Hs, length_app in Hl.
  destruct last; cbn [eol_bytes app length] in *.
  - assert (Hmem : memchr m ptr LF (Z.to_nat (e - ptr)) = Ret (Some ptr)).
    { replace (Ret (Some ptr)) with (@Ret (option Z) (Some (ptr + Z.of_nat (length (@nil Z)))))
        by (cbn; do 2 f_equal; lia).
      apply memchr_first; [lia| | |cbn; lia].
      - intros i x Hi. rewrite lookup_nil in Hi. discriminate.
      - cbn [length]. replace (Z.to_nat ptr + 0)%nat with (Z.to_nat (ptr + 0)) by lia.
        rewrite (seen_lookup m ptr e) by lia. rewrite Hs. reflexivity. }
    rewrite (parse_step_eval m e ptr ptr) by (lia || exact Hmem).
    unfold blob_step. replace (ptr + 1 - ptr =? 1) with true by (symmetry; lia).
    reflexivity.
  - assert (Hmem : memchr m ptr LF (Z.to_nat (e - ptr)) = Ret (Some (ptr + 1))).
    { change 1 with (Z.of_nat (length [CR])) at 1.
      apply memchr_first; [lia| | |cbn; lia].
      - intros i x Hi. destruct i; [|destruct i; discriminate].
        injection Hi as <-. split; [|discriminate].
        replace (Z.to_nat ptr + 0)%nat with (Z.to_nat (ptr + 0)) by lia.
        rewrite (seen_lookup m ptr e) by lia. rewrite Hs. reflexivity.
      - cbn [length]. replace (Z.to_nat ptr + 1)%nat with (Z.to_nat (ptr + 1)) by lia.
        rewrite (seen_lookup m ptr e) by lia. rewrite Hs. reflexivity. }
    rewrite (parse_step_eval m e ptr (ptr + 1)) by (lia || exact Hmem).
    unfold blob_step.
    replace (ptr + 1 + 1 - ptr =? 1) with false by (symmetry; lia).
    replace (ptr + 1 + 1 - ptr =? 2) with true by (symmetry; lia).
    assert (H0 : rd m ptr = CR).
    { replace ptr with (ptr + Z.of_nat (length (@nil Z))) by (cbn; lia).
      apply (seen_at m ptr e [] CR (LF :: rest)); try lia. exact Hs. }
    rewrite H0. cbn. do 3 f_equal. lia.
Qed.

Lemma frame_wire_length blobs last :
  (length blobs < length (frame_wire blobs last))%nat.
Proof.
  induction blobs as [|[[t e1] e2] blobs IH]; cbn [frame_wire length].
  - destruct last; cbn; lia.
  - unfold blob_wire. rewrite !length_app. destruct e1, e2; cbn [eol_bytes length]; lia.
Qed.

(** The loop of [parse] on a frame in the wire format. *)
Lemma parse_loop_frame blobs last : forall fuel m e ptr vs (rest : bytes),
  0 <= ptr -> ptr <= e -> e <= Z.of_nat (length m) -> e <= 2 * BUF_MAX_SIZE ->
  seen m ptr e = frame_wire blobs last ++ rest ->
  (length blobs < fuel)%nat ->
  parse_loop fuel m e ptr (e - ptr) vs
  = Ret (Found (ptr + Z.of_nat (length (frame_wire blobs last))),
         vs ++ map (fun b => b.1.1) blobs).
Proof.
  induction blobs as [|[[t e1] e2] blobs IH];
    intros fuel m e ptr vs rest Hp Hpe He Hmax Hs Hfuel.
  - destruct fuel as [|fuel]; [cbn in Hfuel; lia|]. cbn [parse_loop frame_wire] in *.
    pose proof (seen_length m ptr e ltac:(lia) He) as Hl.
    rewrite Hs, length_app in Hl.
    assert (0 < length (eol_bytes last))%nat by (destruct last; cbn; lia).
    replace (0 <? e - ptr) with true by (symmetry; lia).
    rewrite (parse_step_end m e ptr last rest) by assumption.
    cbn [mbind res_mbind res_bind map]. rewrite app_nil_r. reflexivity.
  - destruct fuel as [|fuel]; [cbn in Hfuel; lia|]. cbn [parse_loop frame_wire] in *.
    pose proof (seen_length m ptr e ltac:(lia) He) as Hl.
    rewrite Hs, !length_app in Hl.
    pose proof (frame_wire_length blobs last) as Hfl.
    replace (0 <? e - ptr) with true by (symmetry; lia).
    rewrite <- app_assoc in Hs.
    rewrite (parse_step_blob m e ptr t e1 e2 _ Hp Hpe He Hmax Hs).
    cbn [mbind res_mbind res_bind map].
    set (len := Z.of_nat (length (blob_wire t e1 e2))) in *.
    rewrite (IH fuel m e (ptr + len) (vs ++ [t]) rest); try lia.
    + rewrite length_app. rewrite <- app_assoc. cbn [app fst]. do 3 f_equal. lia.
    + rewrite (seen_shift m ptr e len) by lia. rewrite Hs. unfold len.
      rewrite Nat2Z.id. rewrite drop_app_length. reflexivity.
    + cbn [length] in Hfuel. lia.
Qed.


Lemma seen_contents b : seen (data b) 0 (size b) = contents b.
Proof. unfold seen, contents. rewrite Z.sub_0_r. reflexivity. Qed.

(** [parse] on a buffer that begins with a frame. *)
Lemma parse_frame b blobs last (rest : bytes) :
  wf b ->
  contents b = frame_wire blobs last ++ rest ->
  parse b []
  = Ret (OK, remove b (Z.of_nat (length (frame_wire blobs last))), tokens_of blobs).
Proof.
  intros Hwf Hc. pose proof Hwf as (Hsz & Hlen & Hmax & Hcap).
  pose proof (contents_length _ Hwf) as Hcl. rewrite Hc, length_app in Hcl.
  pose proof (frame_wire_length blobs last) as Hfl.
  unfold parse.
  rewrite wrap_long_small by (unfold BUF_MAX_SIZE in Hmax; lia).
  pose proof (parse_loop_frame blobs last (S (Z.to_nat (size b)))
                (data b) (size b) 0 [] rest) as Hpl.
  rewrite Z.sub_0_r, seen_contents in Hpl.
  rewrite Hpl by (assumption || unfold BUF_MAX_SIZE in *; lia).
  cbn [mbind res_mbind res_bind app]. rewrite Z.add_0_l. reflexivity.
Qed.

(** Property X1.  When the buffer of a reader starts with a whole frame
    (blobs written as their length in decimal, a line end, the blob, a line
    end, either [\n] or [\r\n], and then an empty line), [get] returns the
    blobs of that frame in order, takes exactly the bytes of the frame off
    the buffer and leaves what follows, with the capacity unchanged. *)
Theorem get_frame r blobs last (rest : bytes) :
  wf (rbuf r) ->
  contents (rbuf r) = frame_wire blobs last ++ rest ->
  exists r',
    Reader_get r = (Ret (Some (tokens_of blobs)), r')
    /\ wf (rbuf r') /\ cap (rbuf r') = cap (rbuf r)
    /\ contents (rbuf r') = rest.
Proof.
  intros Hwf Hc.
  pose proof (contents_length _ Hwf) as Hcl. rewrite Hc, length_app in Hcl.
  unfold Reader_get. fold (rbuf r).
  rewrite (parse_frame (rbuf r) blobs last rest Hwf Hc).
  set (n := Z.of_nat (length (frame_wire blobs last))).
  destruct (remove_spec (rbuf r) n Hwf ltac:(unfold n; lia)) as (Hwf' & _ & Hcap' & Hc').
  eexists. split; [reflexivity|]. cbn [rbuf parser buf].
  split; [exact Hwf'|]. split; [exact Hcap'|].
  rewrite Hc', Hc. unfold n. rewrite Nat2Z.id. apply drop_app_length.
Qed.

Lemma get_frame_witness :
  let r := snd (Reader_feed Reader_new (wire "2\r\nok\n1\n7\r\n\r\n9\nnext")) in
  exists r',
    Reader_get r = (Ret (Some [wire "ok"; wire "7"]), r')
    /\ wf (rbuf r') /\ cap (rbuf r') = cap (rbuf r)
    /\ contents (rbuf r') = wire "9\nnext".
Proof.
  apply (get_frame _ [(wire "ok", CrLf, Lf); (wire "7", Lf, CrLf)] CrLf (wire "9\nnext")).
  - repeat split; vm_compute; congruence.
  - vm_compute. reflexivity.
Defined.

(** ** The encoder *)

















(** ** Malformed input *)

Lemma parse_bad_same b vs b' vs' :
  parse b vs = Ret (EBADFMT, b', vs') -> b' = b.
Proof.
  unfold parse.
  destruct (parse_loop _ _ _ _ _ _) as [[[k| |] vs0]|e| |];
    cbn [mbind res_mbind res_bind]; congruence.
Qed.

(** Property X5.  A [BadFormatError] of [get] does not go away: the
    failing [get] leaves the reader as it was, so the next [get] fails in
    the same way, and so does a [get] after more bytes have been fed. *)
Theorem bad_format_is_final r (src : bytes) n r1 :
  ready r -> Z.of_nat (length src) < 2 ^ 63 ->
  fst (Reader_get r) = Raise BadFormatError ->
  Reader_feed r src = (Ret n, r1) ->
  Reader_get r = (Raise BadFormatError, r)
  /\ Reader_get r1 = (Raise BadFormatError, r1).
Proof.
  intros Hr Hlen Hbad Hfeed.
  pose proof (Reader_feed_spec r src Hr Hlen) as Hspec.
  destruct (size (rbuf r) + Z.of_nat (length src) <=? BUF_MAX_SIZE) eqn:E.
  2: { rewrite Hfeed in Hspec. discriminate. }
  destruct Hspec as (n' & r' & Hf & [Hwf1 _] & Hc1).
  rewrite Hfeed in Hf. injection Hf as <- <-.
  destruct Hr as [Hwf _].
  pose proof (contents_length _ Hwf) as Hl.
  pose proof (contents_length _ Hwf1) as Hl1. rewrite Hc1, length_app in Hl1.
  assert (Hag : agree (size (rbuf r)) (data (rbuf r)) (data (rbuf r1))).
  { apply contents_agree; [assumption..| |lia].
    rewrite Hc1. rewrite take_app_length' by lia. reflexivity. }
  pose proof (parse_restrict (rbuf r) (rbuf r1) [] Hwf Hwf1 ltac:(lia) Hag) as Hres.
  pose proof (parse_restrict (rbuf r) (rbuf r) [] Hwf Hwf ltac:(lia)
                (agree_refl _ _)) as Hself.
  unfold Reader_get in *. fold (rbuf r) (rbuf r1) in *.
  destruct (parse (rbuf r) []) as [[[[] b] vs]|e| |] eqn:Ep; cbn [fst] in Hbad;
    try discriminate; [|contradiction].
  apply parse_bad_same in Ep as Hb. subst b.
  split; [f_equal; apply Reader_rebuild; reflexivity|].
  destruct (parse (rbuf r1) []) as [[[[] b1] vs1]|e| |] eqn:Ep1.
  - destruct Hres as (k & _ & _ & Hk). destruct (k <=? size (rbuf r)).
    + discriminate.
    + destruct Hk as [? Hk]. discriminate.
  - contradiction.
  - destruct Hres as [-> _]. f_equal. apply Reader_rebuild. reflexivity.
  - destruct Hres as [_ [? Hk]]. discriminate.
  - contradiction.
  - destruct Hres as [Hk|[? Hk]]; discriminate.
  - contradiction.
Qed.

Lemma bad_format_is_final_witness :
  let r := snd (Reader_feed Reader_new (wire "x\n")) in
  let r1 := snd (Reader_feed r (wire "2\nok\n\n")) in
  Reader_get r = (Raise BadFormatError, r)
  /\ Reader_get r1 = (Raise BadFormatError, r1).
Proof.
  apply (bad_format_is_final _ (wire "2\nok\n\n") 8).
  - repeat split; vm_compute; congruence.
  - vm_compute. reflexivity.
  - vm_compute. reflexivity.
  - vm_compute. reflexivity.
Defined.

(** The first line of the buffer, up to its line feed. *)
Lemma first_line_step b (line rest : bytes) :
  wf b -> contents b = line ++ LF :: rest -> Forall (fun x => x <> LF) line ->
  parse_step (data b) (size b) 0 (size b - 0)
  = blob_step (data b) (size b) 0 (Z.of_nat (length line))
  /\ (forall i, (i < length line)%nat ->
        rd (data b) (Z.of_nat i) = default 0 (line !! i))
  /\ take (length line) (data b) = line
  /\ Z.of_nat (length line) < size b.
Proof.
  intros Hwf Hc Hline. pose proof Hwf as (Hsz & Hlen & Hmax & Hcap).
  pose proof (contents_length _ Hwf) as Hcl. rewrite Hc, length_app in Hcl.
  cbn [length] in Hcl.
  assert (Hs : seen (data b) 0 (size b) = line ++ LF :: rest)
    by (rewrite seen_contents; exact Hc).
  assert (Hmem : memchr (data b) 0 LF (Z.to_nat (size b - 0))
                 = Ret (Some (Z.of_nat (length line)))).
  { rewrite <- (Z.add_0_l (Z.of_nat (length line))).
    apply memchr_first; [lia| | |lia].
    - intros i x Hi. split.
      + replace (Z.to_nat 0 + i)%nat with (Z.to_nat (0 + Z.of_nat i)) by lia.
        apply lookup_lt_Some in Hi as Hlt.
        rewrite (seen_lookup _ 0 (size b)) by lia. rewrite Hs, Nat2Z.id.
        apply lookup_app_l_Some. exact Hi.
      + rewrite Forall_forall in Hline. apply Hline.
        eapply list_elem_of_lookup_2; eauto.
    - replace (Z.to_nat 0 + length line)%nat
        with (Z.to_nat (0 + Z.of_nat (length line))) by lia.
      rewrite (seen_lookup _ 0 (size b)) by lia. rewrite Hs, Nat2Z.id.
      apply list_lookup_middle. reflexivity. }
  split; [|split; [|split]].
  - apply parse_step_eval; try (unfold BUF_MAX_SIZE in *; lia).
    rewrite Z.sub_0_r in *. exact Hmem.
  - intros i Hi. rewrite <- (Z.add_0_l (Z.of_nat i)).
    rewrite (seen_rd _ 0 (size b)) by lia. rewrite Hs, Nat2Z.id.
    rewrite lookup_app_l by lia. reflexivity.
  - replace (length line) with (Z.to_nat (Z.of_nat (length line))) at 1 by lia.
    change (data b) with (drop (Z.to_nat (0 + 0)) (data b)).
    rewrite (seen_take_drop _ 0 (size b)) by lia.
    rewrite Hs. change (Z.to_nat 0) with 0%nat. rewrite drop_0, Nat2Z.id.
    apply take_app_length.
  - lia.
Qed.

(** Property X6.  A buffer whose first line is not empty, is not a lone
    carriage return, and either does not start with a digit, has more than
    18 bytes, or has a negative value as [atoi] reads it, makes [get] raise
    [BadFormatError], with the reader unchanged. *)
Theorem bad_first_line r (line rest : bytes) :
  wf (rbuf r) ->
  contents (rbuf r) = line ++ LF :: rest ->
  Forall (fun x => x <> LF) line ->
  line <> [] -> line <> [CR] ->
  (is_digit (default 0 (head line)) = false
   \/ (18 < length line)%nat
   \/ atoi line < 0) ->
  Reader_get r = (Raise BadFormatError, r).
Proof.
  intros Hwf Hc Hline Hne Hcr Hbad.
  destruct (first_line_step (rbuf r) line rest Hwf Hc Hline)
    as (Hstep & Hrd & Htake & Hlt).
  pose proof Hwf as (Hsz & Hlen & Hmax & Hcap).
  assert (Hparse : parse (rbuf r) [] = Ret (EBADFMT, rbuf r, [])).
  { unfold parse. rewrite wrap_long_small by (unfold BUF_MAX_SIZE in Hmax; lia).
    cbn [parse_loop]. replace (0 <? size (rbuf r)) with true by (symmetry; lia).
    rewrite Z.sub_0_r in Hstep. rewrite Hstep. unfold blob_step.
    destruct line as [|x line']; [congruence|].
    specialize (Hrd 0%nat ltac:(cbn; lia)).
    change (rd (data (rbuf r)) 0 = x) in Hrd.
    rewrite Hrd. cbn [head default] in Hbad.
    replace (Z.of_nat (length (x :: line')) + 1 - 0 =? 1) with false
      by (symmetry; apply Z.eqb_neq; cbn [length]; lia).
    replace ((Z.of_nat (length (x :: line')) + 1 - 0 =? 2) && (x =? CR)) with false.
    2: { symmetry. apply andb_false_iff.
         destruct line' as [|y line'']; [|left; apply Z.eqb_neq; cbn [length]; lia].
         right. apply Z.eqb_neq. intros ->. apply Hcr. reflexivity. }
    change (Z.to_nat 0) with 0%nat. rewrite drop_0.
    replace (Z.to_nat (Z.of_nat (length (x :: line')) + 1 - 0 - 1))
      with (length (x :: line')) by lia.
    rewrite Htake.
    destruct ((x <? 48) || (57 <? x)) eqn:E1; [reflexivity|].
    destruct (19 <? Z.of_nat (length (x :: line')) + 1 - 0) eqn:E2; [reflexivity|].
    destruct (atoi (x :: line') <? 0) eqn:E3; [reflexivity|].
    exfalso. unfold is_digit, id in Hbad. cbn [length] in *.
    apply orb_false_iff in E1 as [E1a%Z.ltb_ge E1b%Z.ltb_ge].
    apply Z.ltb_ge in E2, E3.
    destruct Hbad as [Hb|[Hb|Hb]]; [|lia|lia].
    apply andb_false_iff in Hb as [Hb%Z.leb_gt|Hb%Z.leb_gt]; lia. }
  unfold Reader_get. fold (rbuf r). rewrite Hparse.
  f_equal. apply Reader_rebuild. reflexivity.
Qed.

Lemma bad_first_line_witness :
  let r := snd (Reader_feed Reader_new (wire "-1\nabc")) in
  Reader_get r = (Raise BadFormatError, r).
Proof.
  apply (bad_first_line _ (wire "-1") (wire "abc")).
  - repeat split; vm_compute; congruence.
  - vm_compute. reflexivity.
  - repeat constructor; discriminate.
  - discriminate.
  - discriminate.
  - left. reflexivity.
Defined.

(** Property X7.  A length line whose value fits a C [int] but, added to
    the length of its line, does not (for instance [2147483647]): the sum
    wraps to a negative number, the parser's pointer moves before the start
    of the buffer and the byte there is read.  [get] reads outside the
    buffer, its behaviour is undefined; it does not report an incomplete
    or a malformed frame. *)
Theorem oversized_blob_reads_outside r sz (rest : bytes) :
  wf (rbuf r) ->
  0 <= sz < 2 ^ 31 ->
  contents (rbuf r) = bytes_of_string (str_of_int sz) ++ LF :: rest ->
  2 ^ 31 <= Z.of_nat (length (bytes_of_string (str_of_int sz))) + 1 + sz ->
  Reader_get r = (Undef, r).
Proof.
  intros Hwf Hsz Hc Hover.
  set (line := bytes_of_string (str_of_int sz)) in *.
  assert (Hdec : line = decimal_ascii (Z.to_nat sz)).
  { unfold line, decimal_ascii. rewrite Z2Nat.id by lia. reflexivity. }
  destruct (str_of_int_decimal sz ltac:(lia)) as (Hne & Hdig & _). fold line in Hne, Hdig.
  destruct (decimal_ascii_length (Z.to_nat sz) ltac:(lia)) as [_ Hd10].
  rewrite <- Hdec in Hd10.
  assert (Hline : Forall (fun x => x <> LF) line).
  { rewrite Forall_forall. intros x Hx. rewrite forallb_forall in Hdig.
    apply list_elem_of_In in Hx.
    specialize (Hdig x Hx). unfold is_digit, LF in *. lia. }
  destruct (first_line_step (rbuf r) line rest Hwf Hc Hline)
    as (Hstep & Hrd & Htake & Hlt).
  pose proof Hwf as (Hs & Hlen & Hmax & Hcap).
  assert (Hparse : parse (rbuf r) [] = Undef).
  { unfold parse. rewrite wrap_long_small by (unfold BUF_MAX_SIZE in Hmax; lia).
    cbn [parse_loop]. replace (0 <? size (rbuf r)) with true by (symmetry; lia).
    rewrite Z.sub_0_r in Hstep. rewrite Hstep. unfold blob_step.
    destruct line as [|x line'] eqn:El; [congruence|].
    specialize (Hrd 0%nat ltac:(cbn; lia)).
    change (rd (data (rbuf r)) 0 = x) in Hrd. rewrite Hrd.
    cbn [forallb] in Hdig. apply andb_true_iff in Hdig as [Hx _].
    change (Z.to_nat 0) with 0%nat. rewrite drop_0.
    replace (Z.to_nat (Z.of_nat (length (x :: line')) + 1 - 0 - 1))
      with (length (x :: line')) by lia.
    rewrite Htake.
    assert (Hat : atoi (x :: line') = sz).
    { rewrite Hdec. rewrite <- (app_nil_r (decimal_ascii _)).
      rewrite atoi_decimal by (exact I || lia). lia. }
    rewrite Hat. unfold is_digit in Hx. apply andb_true_iff in Hx as [Hx1 Hx2].
    apply Z.leb_le in Hx1, Hx2. cbn [length] in *.
    bfalse (Z.of_nat (S (length line')) + 1 - 0 =? 1).
    replace (x =? CR) with false by (symmetry; apply Z.eqb_neq; unfold CR; lia).
    rewrite andb_false_r.
    bfalse (x <? 48). bfalse (57 <? x). cbn [orb].
    bfalse (19 <? Z.of_nat (S (length line')) + 1 - 0).
    bfalse (sz <? 0).
    btrue (2 ^ 31 <=? Z.of_nat (S (length line')) + 1 - 0 + sz).
    reflexivity. }
  unfold Reader_get. fold (rbuf r). rewrite Hparse. reflexivity.
Qed.

Lemma oversized_blob_reads_outside_witness :
  let r := snd (Reader_feed Reader_new (wire "2147483647\nabc")) in
  Reader_get r = (Undef, r).
Proof.
  apply (oversized_blob_reads_outside _ 2147483647 (wire "abc")).
  - repeat split; vm_compute; congruence.
  - lia.
  - vm_compute. reflexivity.
  - vm_compute. discriminate.
Defined.

End WireFacts.


(** * The shapes of the values of [wrap_response] *)

Module ResponseShapes.
Import Response.
Import ResponseFacts.



Tactic Notation "res_simpl" := cbn [mbind mret res_mbind res_mret res_bind].

(** The commands of a class, one by one. *)
Ltac each_member H :=
  unfold member at 1 in H;
  match type of H with existsb _ ?T = true => unfold T in H end;
  cbn [existsb] in H;
  repeat (apply orb_true_iff in H as [H|H]);
  try discriminate H; apply String.eqb_eq in H; subst.





Lemma member_str_map cmd :
  member cmd REQUEST_FOR_STR_MAP_RESPONSE = true ->
  member cmd REQUEST_FOR_NO_RESPONSE = false
  /\ member cmd REQUEST_FOR_INT_RESPONSE = false
  /\ member cmd REQUEST_FOR_FLOAT_RESPONSE = false
  /\ member cmd REQUEST_FOR_BYTE_RESPONSE = false
  /\ member cmd REQUEST_FOR_LIST_RESPONSE = false.
Proof. intros H. each_member H; vm_compute; tauto. Qed.



Section Interpreter.
Context {pyfloat : Type} (py_float : bytes -> option pyfloat).

(** A frame with the status [ok]: the choice by the class of the command. *)
Lemma wrap_response_ok cmd body :
  wrap_response py_float cmd (wire "ok" :: body)
  = if member cmd REQUEST_FOR_NO_RESPONSE then Ret VNone
    else if member cmd REQUEST_FOR_INT_RESPONSE then
      r0 ← item body 0; n ← py_int r0; Ret (VInt n)
    else if member cmd REQUEST_FOR_FLOAT_RESPONSE then
      r0 ← item body 0;
      match py_float r0 with
      | Some f => Ret (VFloat f)
      | None => Raise ValueError
      end
    else if member cmd REQUEST_FOR_BYTE_RESPONSE then
      r0 ← item body 0; Ret (VBytes r0)
    else if member cmd REQUEST_FOR_LIST_RESPONSE then Ret (VList body)
    else if member cmd REQUEST_FOR_STR_MAP_RESPONSE then
      d ← to_str_map body; Ret (VStrMap d)
    else if member cmd REQUEST_FOR_INT_MAP_RESPONSE then
      d ← to_int_map body; Ret (VIntMap d)
    else if member cmd REQUEST_FOR_STR_MAP_SCAN_RESPONSE then
      '(n, d) ← to_str_map_for_scan body; Ret (VStrScan n d)
    else if member cmd REQUEST_FOR_INT_MAP_SCAN_RESPONSE then
      '(n, d) ← to_int_map_for_scan body; Ret (VIntScan n d)
    else Raise (RuntimeError (cmd ++ " is unknown command")).
Proof.
  unfold wrap_response. cbn [length Z.of_nat].
  replace (Z.of_nat (S (length body)) =? 0) with false
    by (symmetry; apply Z.eqb_neq; lia).
  change (item (wire "ok" :: body) 0) with (@Ret bytes (wire "ok")).
  res_simpl.
  destruct (decide (wire "ok" = wire "not_found")) as [E|_]; [discriminate E|].
  destruct (decide (wire "ok" = wire "ok")) as [_|E]; [|done].
  reflexivity.
Qed.

(** Property X8.  For a command of [REQUEST_FOR_STR_MAP_RESPONSE] and the
    status [ok]: a body of odd length raises
    [RuntimeError("Invalid response")]; a body of even length gives the
    dict of its pairs, the keys in the order of their first occurrence,
    each with the value of its last occurrence. *)
Theorem str_map_shape cmd body :
  member cmd REQUEST_FOR_STR_MAP_RESPONSE = true ->
  (Z.of_nat (length body) mod 2 <> 0 ->
   wrap_response py_float cmd (wire "ok" :: body)
   = Raise (RuntimeError "Invalid response"))
  /\ (Z.of_nat (length body) mod 2 = 0 ->
      exists d,
        wrap_response py_float cmd (wire "ok" :: body) = Ret (VStrMap d)
        /\ dict_keys d = first_occurrences (map fst (pairs body))
        /\ forall k, dict_get k d = last_value k (pairs body)).
Proof.
  intros Hin. destruct (member_str_map cmd Hin) as (H1 & H2 & H3 & H4 & H5).
  rewrite wrap_response_ok, H1, H2, H3, H4, H5, Hin.
  unfold to_str_map. split.
  - intros Hodd. apply Z.eqb_neq in Hodd. rewrite Hodd. reflexivity.
  - intros Heven. pose proof Heven as He. apply Z.eqb_eq in He. rewrite He.
    cbn [negb].
    rewrite (fill_build Ret id body (fun v => eq_refl) Heven).
    eexists. split; [reflexivity|]. split.
    + rewrite build_keys. reflexivity.
    + intros k. rewrite build_get. cbn [dict_get].
      pose proof (last_value_fmap id k (pairs body) None) as Hl.
      rewrite !option_fmap_id in Hl. exact Hl.
Qed.
End Interpreter.

Lemma str_map_shape_witness :
  wrap_response (fun _ => @None unit) "hgetall"
    (map wire ["ok"; "a"; "1"; "b"; "x"; "a"; "2"])
  = Ret (VStrMap [(wire "a", wire "2"); (wire "b", wire "x")])
  /\ wrap_response (fun _ => @None unit) "hgetall" (map wire ["ok"; "a"])
     = Raise (RuntimeError "Invalid response").
Proof.
  destruct (str_map_shape (fun _ => @None unit) "hgetall"
              (map wire ["a"; "1"; "b"; "x"; "a"; "2"]) eq_refl) as [_ He].
  destruct (str_map_shape (fun _ => @None unit) "hgetall" (map wire ["a"]) eq_refl)
    as [Ho _].
  split; [|apply Ho; discriminate].
  destruct (He eq_refl) as (d & Hd & _).
  change (wire "ok" :: map wire ["a"; "1"; "b"; "x"; "a"; "2"])
    with (map wire ["ok"; "a"; "1"; "b"; "x"; "a"; "2"]) in Hd.
  rewrite Hd. vm_compute in Hd. injection Hd as <-. reflexivity.
Defined.


Section Interpreter.
Context {pyfloat : Type} (py_float : bytes -> option pyfloat).

End Interpreter.


Section Interpreter.
Context {pyfloat : Type} (py_float : bytes -> option pyfloat).

End Interpreter.


(** ** The command that the encoder renames *)

Section Interpreter.
Context {pyfloat : Type} (py_float : bytes -> option pyfloat).

(** Property X26.  A command that [encode_command] renames ([delete], sent
    as [del]) goes out as the request of its wire name, but
    [wrap_response] looks up the name it is given and has no class for it:
    the reply [ok] raises [RuntimeError] with "is unknown command", where
    the same reply to the wire name is read as an integer. *)
Theorem renamed_command_unknown cmd args body :
  Encode.wire_name cmd <> cmd ->
  Encode.encode_command cmd args
  = Encode.encode_command (Encode.wire_name cmd) args
  /\ wrap_response py_float cmd (wire "ok" :: body)
     = Raise (RuntimeError (cmd ++ " is unknown command"))
  /\ wrap_response py_float (Encode.wire_name cmd) (wire "ok" :: body)
     = (r0 ← item body 0; n ← py_int r0; Ret (VInt n)).
Proof.
  intros Hne.
  assert (Hcmd : cmd = "delete"%string).
  { unfold Encode.wire_name in Hne.
    destruct (String.eqb cmd "delete") eqn:E; [|congruence].
    apply String.eqb_eq in E. exact E. }
  subst cmd. split; [reflexivity|].
  rewrite !wrap_response_ok. split; reflexivity.
Qed.

End Interpreter.

Lemma renamed_command_unknown_witness :
  Encode.encode_command "delete" [PyStr "k"]
  = Encode.encode_command "del" [PyStr "k"]
  /\ wrap_response (fun _ => @None unit) "delete" (map wire ["ok"; "1"])
     = Raise (RuntimeError "delete is unknown command")
  /\ wrap_response (fun _ => @None unit) "del" (map wire ["ok"; "1"])
     = Ret (VInt 1).
Proof.
  apply (renamed_command_unknown (fun _ => @None unit) "delete" [PyStr "k"]
           [wire "1"]).
  discriminate.
Defined.

End ResponseShapes.


(** * The steps of a connection *)

Module StepsFacts.
Import Conn Steps.
Import ConnFacts.



Ltac n_simpl :=
  unfold mbind, mret, SM_mbind, SM_mret, sm_bind, sm_ret, gets, modify, raise,
    lift_res;
  cbn [fst snd conns oracle getpid next_sock io_log].


Lemma get_conn_at c n x : conns n !! c = Some x -> get_conn c n = (Ret x, n).
Proof. intros H. unfold get_conn. rewrite H. reflexivity. Qed.

Lemma update_conn_with c f n : update_conn c f n = (Ret tt, with_conn n c f).
Proof. reflexivity. Qed.

Lemma with_conn_at n c f x :
  conns n !! c = Some x -> conns (with_conn n c f) !! c = Some (f x).
Proof. intros H. cbn [with_conn conns]. rewrite list_lookup_alter_eq, H. reflexivity. Qed.

Lemma parser_get_at c n x :
  conns n !! c = Some x ->
  parser_get c n
  = (fst (Parser.Reader_get (parser x)),
     with_conn n c (fun y => set_parser y (snd (Parser.Reader_get (parser x))))).
Proof.
  intros H. unfold parser_get. n_simpl. rewrite (get_conn_at c n x H).
  destruct (Parser.Reader_get (parser x)) as [r p]. n_simpl.
  rewrite update_conn_with. cbn [fst snd]. reflexivity.
Qed.

(** Property X11.  [in_use] of a connection whose parser already holds a
    whole frame: it answers [True] without asking the socket, keeps the
    frame in [next_response], and the following [read_response] returns
    that frame, again without asking the socket. *)
Theorem probe_keeps_frame c n x frame p :
  conns n !! c = Some x ->
  next_response x = None ->
  Parser.Reader_get (parser x) = (Ret (Some frame), p) ->
  exists n1 n2,
    in_use c n = (Ret true, n1)
    /\ read_response c n1 = (Ret frame, n2)
    /\ io_log n2 = io_log n /\ oracle n2 = oracle n
    /\ conns n2 !! c = Some (set_parser x p).
Proof.
  intros Hc Hnone Hget.
  set (n1 := with_conn (with_conn n c (fun x => set_parser x p)) c
               (fun x => set_next_response x (Some frame))).
  assert (Hc1 : conns n1 !! c
                = Some (set_next_response (set_parser x p) (Some frame))).
  { unfold n1.
    apply (with_conn_at _ c (fun y => set_next_response y (Some frame))
             (set_parser x p)).
    apply (with_conn_at n c (fun y => set_parser y p) x Hc). }
  assert (Hin : in_use c n = (Ret true, n1)).
  { unfold in_use. unfold mbind at 1. unfold SM_mbind, sm_bind at 1.
    rewrite (get_conn_at c n x Hc). rewrite Hnone.
    rewrite bool_decide_eq_true_2 by reflexivity.
    unfold mbind at 1. unfold SM_mbind, sm_bind at 1.
    unfold mbind at 1. unfold SM_mbind, sm_bind at 1.
    rewrite (parser_get_at c n x Hc), Hget. cbn [fst snd].
    rewrite update_conn_with. fold n1.
    unfold mbind, SM_mbind, sm_bind.
    rewrite (get_conn_at c n1 _ Hc1). cbn [next_response set_next_response].
    rewrite bool_decide_eq_false_2 by discriminate. reflexivity. }
  exists n1. eexists. split; [exact Hin|].
  unfold read_response. n_simpl. rewrite (get_conn_at c n1 _ Hc1).
  cbn [next_response set_next_response]. rewrite update_conn_with.
  split; [reflexivity|]. cbn [with_conn io_log oracle conns].
  split; [reflexivity|]. split; [reflexivity|].
  rewrite list_lookup_alter_eq, Hc1. destruct x; cbn in *. subst. reflexivity.
Qed.

(** A connection whose parser holds a whole frame. *)
Lemma probe_keeps_frame_witness :
  let x := link0 (wire "2\nok\n\n") in
  let n := net1 100 (wire "2\nok\n\n") [] in
  exists n1 n2,
    in_use 0 n = (Ret true, n1)
    /\ read_response 0 n1 = (Ret [wire "ok"], n2)
    /\ io_log n2 = io_log n /\ oracle n2 = oracle n
    /\ conns n2 !! 0%nat
       = Some (set_parser x (snd (Parser.Reader_get (parser x)))).
Proof.
  intros x n. apply (probe_keeps_frame 0 n x [wire "ok"]).
  - reflexivity.
  - reflexivity.
  - vm_compute. reflexivity.
Defined.

Lemma with_conn_same n c f x :
  conns n !! c = Some x -> f x = x -> with_conn n c f = n.
Proof.
  intros Hc Hf. destruct n as [cs o g s l]. unfold with_conn. cbn in *. f_equal.
  apply list_eq. intros i. destruct (decide (i = c)) as [->|Hne].
  - rewrite list_lookup_alter_eq, Hc. cbn. rewrite Hf. reflexivity.
  - rewrite list_lookup_alter_ne by congruence. reflexivity.
Qed.

(** A parser that holds no complete frame. *)
Lemma parser_get_none c n x :
  conns n !! c = Some x ->
  Parser.Reader_get (parser x) = (Ret None, parser x) ->
  parser_get c n = (Ret None, n).
Proof.
  intros Hc Hget. rewrite (parser_get_at c n x Hc), Hget. cbn [fst snd].
  f_equal. apply (with_conn_same n c _ x Hc). destruct x; reflexivity.
Qed.


Lemma ask_done q n d rest :
  oracle n = Done d :: rest -> ask q n = (Ret d, asked n q).
Proof. intros H. unfold ask, asked. rewrite H. reflexivity. Qed.

Lemma ask_fails q n e rest :
  oracle n = Fails e :: rest -> ask q n = (Raise e, asked n q).
Proof. intros H. unfold ask, asked. rewrite H. reflexivity. Qed.

(** The first part of [in_use] when nothing is pending. *)
Lemma in_use_reads c n x :
  conns n !! c = Some x ->
  next_response x = None ->
  Parser.Reader_get (parser x) = (Ret None, parser x) ->
  in_use c n
  = try_except (read_from_socket c false) is_Exception
      (fun e => disconnect c;; raise e) n.
Proof.
  intros Hc Hnone Hget. unfold in_use.
  unfold mbind at 1. unfold SM_mbind, sm_bind at 1.
  rewrite (get_conn_at c n x Hc), Hnone.
  rewrite bool_decide_eq_true_2 by reflexivity.
  unfold mbind at 1. unfold SM_mbind, sm_bind at 1.
  unfold mbind at 1. unfold SM_mbind, sm_bind at 1.
  rewrite (parser_get_none c n x Hc Hget).
  rewrite update_conn_with.
  rewrite (with_conn_same n c _ x Hc) by (destruct x; cbn in *; subst; reflexivity).
  unfold mbind at 1. unfold SM_mbind, sm_bind at 1.
  rewrite (get_conn_at c n x Hc), Hnone.
  rewrite bool_decide_eq_true_2 by reflexivity. reflexivity.
Qed.

(** Property X12.  [in_use] of a connection with nothing pending and no
    whole frame in its parser asks for one read without waiting: a timeout
    gives [False]; data gives [True] and goes to the parser; an end of
    stream closes the connection in this process and raises
    [ConnectionError("Server closed")]. *)
Theorem probe_outcomes c n x sock :
  conns n !! c = Some x ->
  next_response x = None ->
  Parser.Reader_get (parser x) = (Ret None, parser x) ->
  reader x = Some sock ->
  let q := Read sock (socket_recv_size x) false in
  (* nothing to read: the connection is idle *)
  (forall rest, oracle n = Fails TimeoutError :: rest ->
     in_use c n = (Ret false, asked n q))
  (* data arrived: the connection is in use, the data is kept *)
  /\ (forall d rest, oracle n = Done d :: rest -> d <> [] ->
      Parser.ready (parser x) ->
      Parser.size (Parser.rbuf (parser x)) + Z.of_nat (length d)
        <= Parser.BUF_MAX_SIZE ->
      exists n1 x1,
        in_use c n = (Ret true, n1)
        /\ conns n1 !! c = Some x1
        /\ Parser.contents (Parser.rbuf (parser x1))
           = Parser.contents (Parser.rbuf (parser x)) ++ d
        /\ next_response x1 = None)
  (* the server has closed: the connection is dropped *)
  /\ (forall a rest w, oracle n = Done [] :: Done a :: rest ->
      writer x = Some w -> pid x = getpid n ->
      exists n1 x1,
        in_use c n = (Raise (ConnectionError "Server closed"), n1)
        /\ conns n1 !! c = Some x1 /\ is_connected x1 = false
        /\ io_log n1 = io_log n ++ [q; Close w]).
Proof.
  intros Hc Hnone Hget Hr q. rewrite (in_use_reads c n x Hc Hnone Hget).
  assert (Hgo : forall n0, conns n0 !! c = Some x ->
            (x ← get_conn c; sock ← attr (reader x);
             d ← ask (Read sock (socket_recv_size x) false);
             if bool_decide (d = []) then raise (ConnectionError "Server closed")
             else parser_feed c d;; mret true) n0
            = (d ← ask q;
               if bool_decide (d = []) then raise (ConnectionError "Server closed")
               else parser_feed c d;; mret true) n0).
  { intros n0 H0. unfold mbind at 1. unfold SM_mbind, sm_bind at 1.
    rewrite (get_conn_at c n0 x H0), Hr. reflexivity. }
  split; [|split].
  - intros rest Ho. unfold try_except at 1. unfold read_from_socket, try_except.
    rewrite (Hgo n Hc). unfold mbind, SM_mbind, sm_bind.
    rewrite (ask_fails q n TimeoutError rest Ho). reflexivity.
  - intros d rest Ho Hd Hready Hfit.
    pose proof (ParserFacts.Reader_feed_spec (parser x) d Hready
                  ltac:(unfold Parser.BUF_MAX_SIZE in Hfit;
                        destruct Hready as [((? & _) & _) _]; lia)) as Hfeed.
    replace (Parser.size (Parser.rbuf (parser x)) + Z.of_nat (length d)
             <=? Parser.BUF_MAX_SIZE) with true in Hfeed
      by (symmetry; apply Z.leb_le; exact Hfit).
    destruct Hfeed as (k & p' & Hfeed & _ & Hcont).
    exists (with_conn (asked n q) c (fun y => set_parser y p')), (set_parser x p').
    split; [|split; [|split]].
    + unfold try_except at 1. unfold read_from_socket, try_except.
      rewrite (Hgo n Hc). unfold mbind at 1. unfold SM_mbind, sm_bind at 1.
      rewrite (ask_done q n d rest Ho).
      rewrite bool_decide_eq_false_2 by exact Hd.
      unfold parser_feed. unfold mbind, SM_mbind, sm_bind.
      rewrite (get_conn_at c (asked n q) x Hc). rewrite Hfeed.
      rewrite update_conn_with. reflexivity.
    + apply (with_conn_at (asked n q) c (fun y => set_parser y p') x Hc).
    + destruct x; exact Hcont.
    + destruct x; exact Hnone.
  - intros a rest w Ho Hw Hpid.
    assert (Hconn : is_connected x = true).
    { unfold is_connected. rewrite Hr, Hw. reflexivity. }
    exists (with_conn (asked (asked n q) (Close w)) c
              (fun y => set_streams y None None)), (set_streams x None None).
    split; [|split; [|split]].
    + unfold try_except at 1. unfold read_from_socket, try_except.
      rewrite (Hgo n Hc). unfold mbind at 1. unfold SM_mbind, sm_bind at 1.
      rewrite (ask_done q n [] _ Ho).
      rewrite bool_decide_eq_true_2 by reflexivity.
      unfold raise at 1. cbn [is_Exception].
      unfold disconnect. unfold mbind, SM_mbind, sm_bind.
      rewrite (get_conn_at c (asked n q) x Hc), Hconn. cbn [negb].
      unfold gets. cbn [asked getpid].
      rewrite bool_decide_eq_true_2 by (symmetry; exact Hpid).
      unfold try_except. rewrite Hw. unfold attr, mret, SM_mret, sm_ret.
      rewrite (ask_done (Close w) (asked n q) a rest) by (cbn; rewrite Ho; reflexivity).
      rewrite update_conn_with. reflexivity.
    + apply (with_conn_at _ c (fun y => set_streams y None None) x Hc).
    + reflexivity.
    + cbn. rewrite <- app_assoc. reflexivity.
Qed.

(** An idle connection, at a timeout and at the end of the stream. *)
Lemma probe_outcomes_witness :
  in_use 0 (net1 100 [] [Fails TimeoutError])
  = (Ret false, asked (net1 100 [] [Fails TimeoutError]) (Read 0 65536 false))
  /\ exists n1 x1,
       in_use 0 (net1 100 [] [Done []; Done []])
       = (Raise (ConnectionError "Server closed"), n1)
       /\ conns n1 !! 0%nat = Some x1 /\ is_connected x1 = false
       /\ io_log n1 = [Read 0 65536 false; Close 0].
Proof.
  assert (Hget : Parser.Reader_get (parser (link0 []))
                 = (Ret None, parser (link0 []))) by (vm_compute; reflexivity).
  split.
  - exact (proj1 (probe_outcomes 0 (net1 100 [] [Fails TimeoutError]) (link0 [])
                    0%nat eq_refl eq_refl Hget eq_refl) [] eq_refl).
  - exact (proj2 (proj2 (probe_outcomes 0 (net1 100 [] [Done []; Done []])
                           (link0 []) 0%nat eq_refl eq_refl Hget eq_refl))
             [] [] 0%nat eq_refl eq_refl eq_refl).
Defined.

(** Property X13.  [disconnect]: a connection that is not connected is left
    alone; in another process than the one that made the connection the
    streams are dropped without a close; in its own process the close is
    asked and an [OSError] from it is dropped, any other exception is
    raised and leaves the streams in place; whenever [disconnect] returns,
    the connection is not connected. *)
Theorem disconnect_outcomes c n x :
  conns n !! c = Some x ->
  (* a connection that is not connected is left alone *)
  (is_connected x = false -> disconnect c n = (Ret tt, n))
  (* in another process than the one that made it: no close *)
  /\ (is_connected x = true -> pid x <> getpid n ->
      disconnect c n = (Ret tt, with_conn n c (fun y => set_streams y None None)))
  (* in its own process: the close is asked, an [OSError] from it dropped *)
  /\ (forall w a rest,
        is_connected x = true -> pid x = getpid n -> writer x = Some w ->
        oracle n = a :: rest ->
        match a with
        | Done _ =>
            disconnect c n
            = (Ret tt, with_conn (asked n (Close w)) c
                         (fun y => set_streams y None None))
        | Fails e =>
            if is_OSError e then
              disconnect c n
              = (Ret tt, with_conn (asked n (Close w)) c
                           (fun y => set_streams y None None))
            else disconnect c n = (Raise e, asked n (Close w))
        end)
  (* whenever it returns, the connection is not connected any more *)
  /\ (forall n', disconnect c n = (Ret tt, n') ->
        exists x', conns n' !! c = Some x' /\ is_connected x' = false).
Proof.
  intros Hc.
  assert (Hstart : disconnect c n
                   = (if negb (is_connected x) then mret tt
                      else
                        me ← gets getpid;
                        (if bool_decide (me = pid x) then
                           try_except
                             (w ← attr (writer x); ask (Close w);; mret tt)
                             is_OSError (fun _ => mret tt)
                         else mret tt);;
                        update_conn c (fun x => set_streams x None None)) n).
  { unfold disconnect. unfold mbind at 1. unfold SM_mbind, sm_bind at 1.
    rewrite (get_conn_at c n x Hc). reflexivity. }
  assert (H1 : is_connected x = false -> disconnect c n = (Ret tt, n)).
  { intros Hd. rewrite Hstart, Hd. reflexivity. }
  assert (H2 : is_connected x = true -> pid x <> getpid n ->
               disconnect c n
               = (Ret tt, with_conn n c (fun y => set_streams y None None))).
  { intros Hd Hpid. rewrite Hstart, Hd. cbn [negb]. n_simpl.
    rewrite bool_decide_eq_false_2 by congruence. reflexivity. }
  assert (H3 : forall w a rest,
        is_connected x = true -> pid x = getpid n -> writer x = Some w ->
        oracle n = a :: rest ->
        match a with
        | Done _ =>
            disconnect c n
            = (Ret tt, with_conn (asked n (Close w)) c
                         (fun y => set_streams y None None))
        | Fails e =>
            if is_OSError e then
              disconnect c n
              = (Ret tt, with_conn (asked n (Close w)) c
                           (fun y => set_streams y None None))
            else disconnect c n = (Raise e, asked n (Close w))
        end).
  { intros w a rest Hd Hpid Hw Ho. rewrite Hstart, Hd. cbn [negb]. n_simpl.
    rewrite bool_decide_eq_true_2 by congruence.
    unfold try_except. rewrite Hw. unfold attr. n_simpl.
    destruct a as [d|e].
    - rewrite (ask_done (Close w) n d rest Ho). reflexivity.
    - rewrite (ask_fails (Close w) n e rest Ho).
      destruct (is_OSError e) eqn:Ee; reflexivity. }
  split; [exact H1|]. split; [exact H2|]. split; [exact H3|].
  intros n' Hret. destruct (is_connected x) eqn:Hd.
  - assert (Hn' : exists n0, conns n0 !! c = Some x
                    /\ n' = with_conn n0 c (fun y => set_streams y None None)).
    { destruct (decide (pid x = getpid n)) as [Hpid|Hpid].
      - assert (Hw : exists w, writer x = Some w).
        { unfold is_connected in Hd. destruct (writer x) as [w|]; [eauto|].
          apply andb_true_iff in Hd as [_ Hd]. apply bool_decide_eq_true in Hd.
          contradiction. }
        destruct Hw as [w Hw].
        destruct (oracle n) as [|a rest] eqn:Ho.
        + rewrite Hstart in Hret. cbn [negb] in Hret. revert Hret. n_simpl.
          rewrite bool_decide_eq_true_2 by congruence.
          unfold try_except. rewrite Hw. unfold attr, ask. n_simpl. rewrite Ho.
          discriminate.
        + specialize (H3 w a rest eq_refl Hpid Hw eq_refl).
          destruct a as [d|e]; [|destruct (is_OSError e)];
            rewrite H3 in Hret; try discriminate;
            injection Hret as <-; exists (asked n (Close w)); split; auto.
      - rewrite (H2 eq_refl Hpid) in Hret. injection Hret as <-.
        exists n. split; auto. }
    destruct Hn' as (n0 & H0 & ->). exists (set_streams x None None).
    split; [|reflexivity].
    apply (with_conn_at n0 c (fun y => set_streams y None None) x H0).
  - rewrite (H1 eq_refl) in Hret. injection Hret as <-. exists x. auto.
Qed.

(** A connection closed in its own process, and one met in another. *)
Lemma disconnect_outcomes_witness :
  disconnect 0 (net1 100 [] [Done []])
  = (Ret tt, with_conn (asked (net1 100 [] [Done []]) (Close 0)) 0
               (fun y => set_streams y None None))
  /\ disconnect 0 (net1 101 [] [Done []])
     = (Ret tt, with_conn (net1 101 [] [Done []]) 0
                  (fun y => set_streams y None None)).
Proof.
  split.
  - exact (proj1 (proj2 (proj2 (disconnect_outcomes 0 (net1 100 [] [Done []])
                                  (link0 []) eq_refl)))
             0%nat (Done []) [] eq_refl eq_refl eq_refl eq_refl).
  - apply (proj1 (proj2 (disconnect_outcomes 0 (net1 101 [] [Done []])
                           (link0 []) eq_refl))); [reflexivity|discriminate].
Defined.

(** Property X24.  [connect] on a connection that is connected does nothing;
    otherwise it asks for one connection to [host] and [port]: when that
    fails, the exception is raised and the connection is as before; when
    it succeeds and no password is set, the connection holds the new
    streams and nothing more is sent or read. *)
Theorem connect_outcomes c n x :
  conns n !! c = Some x ->
  (is_connected x = true -> connect c n = (Ret tt, n))
  /\ (is_connected x = false ->
      forall e rest, oracle n = Fails e :: rest ->
        connect c n = (Raise e, asked n (Open (host x) (port x))))
  /\ (is_connected x = false -> password x = None ->
      forall d rest, oracle n = Done d :: rest ->
        exists n',
          connect c n = (Ret tt, n')
          /\ conns n' !! c
             = Some (set_streams x (Some (next_sock n)) (Some (next_sock n)))
          /\ io_log n' = io_log n ++ [Open (host x) (port x)]
          /\ oracle n' = rest
          /\ next_sock n' = S (next_sock n)).
Proof.
  intros Hc.
  assert (Hstart : connect c n
                   = (if is_connected x then mret tt
                      else
                        ask (Open (host x) (port x));;
                        s ← new_sock;
                        update_conn c (fun x => set_streams x (Some s) (Some s));;
                        match password x with
                        | Some pw =>
                            send_command c "auth" (PyStr pw);;
                            auth_reply c
                        | None => mret tt
                        end) n).
  { unfold connect. unfold mbind at 1. unfold SM_mbind, sm_bind at 1.
    rewrite (get_conn_at c n x Hc). reflexivity. }
  split; [|split].
  - intros Hd. rewrite Hstart, Hd. reflexivity.
  - intros Hd e rest Ho. rewrite Hstart, Hd.
    unfold mbind at 1. unfold SM_mbind, sm_bind at 1.
    rewrite (ask_fails _ n e rest Ho). reflexivity.
  - intros Hd Hpw d rest Ho. rewrite Hstart, Hd, Hpw.
    unfold mbind at 1. unfold SM_mbind, sm_bind at 1.
    rewrite (ask_done _ n d rest Ho).
    unfold new_sock. unfold mbind, SM_mbind, sm_bind.
    rewrite update_conn_with. unfold mret, SM_mret, sm_ret.
    eexists. split; [reflexivity|].
    cbn [with_conn asked conns oracle io_log next_sock].
    split; [|rewrite Ho; auto].
    rewrite list_lookup_alter_eq, Hc. reflexivity.
Qed.

(** A connection just made, when the network accepts it and when it does
    not. *)
Lemma connect_outcomes_witness :
  let n := snd (Connection_new ∅ (net0 [Done []])) in
  let n' := snd (Connection_new ∅ (net0 [Fails (OSError "refused")])) in
  (exists n1,
     connect 0 n = (Ret tt, n1)
     /\ conns n1 !! 0%nat
        = Some (mkConnection 100 (Some "localhost"%string) 7036 None false 65536
                  Parser.Reader_new (Some 0%nat) (Some 0%nat) None)
     /\ io_log n1 = [Open (Some "localhost"%string) 7036]
     /\ oracle n1 = []
     /\ next_sock n1 = 1%nat)
  /\ connect 0 n'
     = (Raise (OSError "refused"), asked n' (Open (Some "localhost"%string) 7036)).
Proof.
  intros n n'. split.
  - exact (proj2 (proj2 (connect_outcomes 0 n
                           (mkConnection 100 (Some "localhost"%string) 7036 None
                              false 65536 Parser.Reader_new None None None)
                           eq_refl))
             eq_refl eq_refl [] [] eq_refl).
  - exact (proj1 (proj2 (connect_outcomes 0 n'
                           (mkConnection 100 (Some "localhost"%string) 7036 None
                              false 65536 Parser.Reader_new None None None)
                           eq_refl))
             eq_refl (OSError "refused") [] eq_refl).
Defined.

(** ** Closing every connection *)

Lemma stays_closed_refl n : stays_closed n n.
Proof. split; [reflexivity|]. intros c x Hc. exists x. auto. Qed.

Lemma stays_closed_trans n1 n2 n3 :
  stays_closed n1 n2 -> stays_closed n2 n3 -> stays_closed n1 n3.
Proof.
  intros [Hg1 H1] [Hg2 H2]. split; [congruence|].
  intros c x Hc. destruct (H1 c x Hc) as (x' & Hx' & Hp' & Hk').
  destruct (H2 c x' Hx') as (x'' & Hx'' & Hp'' & Hk'').
  exists x''. split; [exact Hx''|]. split; [congruence|auto].
Qed.

(** [disconnect] in the process of the connection, when the network lets
    every close through. *)
Lemma disconnect_done c n x (ds : list bytes) :
  conns n !! c = Some x -> pid x = getpid n ->
  oracle n = map Done ds -> (0 < length ds)%nat ->
  exists n' ds' x',
    disconnect c n = (Ret tt, n')
    /\ oracle n' = map Done ds' /\ (length ds <= S (length ds'))%nat
    /\ conns n' !! c = Some x' /\ is_connected x' = false
    /\ stays_closed n n'.
Proof.
  intros Hc Hpid Ho Hlen.
  assert (Hstart : disconnect c n
                   = (if negb (is_connected x) then mret tt
                      else
                        me ← gets getpid;
                        (if bool_decide (me = pid x) then
                           try_except
                             (w ← attr (writer x); ask (Close w);; mret tt)
                             is_OSError (fun _ => mret tt)
                         else mret tt);;
                        update_conn c (fun x => set_streams x None None)) n).
  { unfold disconnect. unfold mbind at 1. unfold SM_mbind, sm_bind at 1.
    rewrite (get_conn_at c n x Hc). reflexivity. }
  destruct (is_connected x) eqn:Hd.
  - assert (Hw : exists w, writer x = Some w).
    { unfold is_connected in Hd. destruct (writer x) as [w|]; [eauto|].
      apply andb_true_iff in Hd as [_ Hd]. apply bool_decide_eq_true in Hd.
      contradiction. }
    destruct Hw as [w Hw]. destruct ds as [|d ds]; [cbn in Hlen; lia|].
    cbn [map] in Ho.
    exists (with_conn (asked n (Close w)) c (fun y => set_streams y None None)),
      ds, (set_streams x None None).
    split; [|split; [|split; [|split; [|split]]]].
    + rewrite Hstart. cbn [negb]. n_simpl.
      rewrite bool_decide_eq_true_2 by congruence.
      unfold try_except. rewrite Hw. unfold attr. n_simpl.
      rewrite (ask_done (Close w) n d (map Done ds) Ho). reflexivity.
    + cbn [with_conn asked oracle]. rewrite Ho. reflexivity.
    + cbn [length]. lia.
    + apply (with_conn_at _ c (fun y => set_streams y None None) x Hc).
    + reflexivity.
    + split; [reflexivity|]. intros c' y Hy. cbn [with_conn asked conns].
      destruct (decide (c' = c)) as [->|Hne].
      * rewrite list_lookup_alter_eq, Hy. eexists. split; [reflexivity|].
        split; [reflexivity|]. intros _. reflexivity.
      * rewrite list_lookup_alter_ne by congruence. exists y. auto.
  - exists n, ds, x. split; [rewrite Hstart; reflexivity|].
    split; [exact Ho|]. split; [lia|]. split; [exact Hc|]. split; [exact Hd|].
    apply stays_closed_refl.
Qed.

(** ** A reply that arrives in pieces *)

Section Reassembly.
Import Parser Encode Wire.
Import ParserFacts EncodeFacts WireFacts.



(** A buffer that holds a part of a frame, and not all of it. *)
Lemma parse_part b (pre suffix : bytes) blobs last :
  wf b -> contents b = pre -> suffix <> [] ->
  pre ++ suffix = frame_wire blobs last ->
  Z.of_nat (length (frame_wire blobs last)) <= BUF_MAX_SIZE ->
  incomplete b (parse b []).
Proof.
  intros Hwf Hc Hsuf HF Hmax.
  set (F := frame_wire blobs last) in *.
  set (b2 := {| data := F; size := Z.of_nat (length F); cap := Z.of_nat (length F) |}).
  assert (Hwf2 : wf b2).
  { unfold wf, b2. cbn [data size cap]. unfold BUF_MAX_SIZE in *. lia. }
  assert (Hc2 : contents b2 = F ++ []).
  { unfold contents, b2. cbn [data size]. rewrite Nat2Z.id, firstn_all, app_nil_r.
    reflexivity. }
  pose proof (parse_frame b2 blobs last [] Hwf2 Hc2) as Hp2. fold F in Hp2.
  pose proof (contents_length _ Hwf) as Hl. rewrite Hc in Hl.
  assert (HlF : length F = (length pre + length suffix)%nat)
    by (rewrite <- HF, length_app; reflexivity).
  assert (Hsl : (0 < length suffix)%nat) by (destruct suffix; [congruence|cbn; lia]).
  assert (Hag : agree (size b) (data b) (data b2)).
  { apply contents_agree; [assumption..| |cbn [b2 size]; lia].
    rewrite Hc, Hc2, app_nil_r, <- HF.
    rewrite take_app_length' by lia. reflexivity. }
  pose proof (parse_restrict b b2 [] Hwf Hwf2 ltac:(cbn [b2 size]; lia) Hag) as Hres.
  rewrite Hp2 in Hres. destruct Hres as (k & Hk & Hrem & Hres).
  assert (k = Z.of_nat (length F)).
  { apply (f_equal size) in Hrem. unfold remove in Hrem. cbn [b2 size] in *.
    rewrite Z.ltb_irrefl in Hrem.
    destruct (Z.of_nat (length F) <? k) eqn:E; cbn [size] in Hrem;
      [apply Z.ltb_lt in E|]; lia. }
  subst k. destruct (Z.of_nat (length F) <=? size b) eqn:E;
    [apply Z.leb_le in E; lia|exact Hres].
Qed.


Lemma Reader_get_part r (pre suffix : bytes) blobs last :
  wf (rbuf r) -> contents (rbuf r) = pre -> suffix <> [] ->
  pre ++ suffix = frame_wire blobs last ->
  Z.of_nat (length (frame_wire blobs last)) <= BUF_MAX_SIZE ->
  Reader_get r = (Ret None, r).
Proof.
  intros Hwf Hc Hs HF Hmax.
  destruct (parse_part (rbuf r) pre suffix blobs last Hwf Hc Hs HF Hmax) as [vs Hp].
  unfold Reader_get. fold (rbuf r). rewrite Hp. f_equal.
  apply Reader_rebuild. reflexivity.
Qed.

Lemma read_from_socket_at c n x sock wait :
  conns n !! c = Some x -> reader x = Some sock ->
  read_from_socket c wait n
  = try_except
      (d ← ask (Read sock (socket_recv_size x) wait);
       if bool_decide (d = []) then raise (ConnectionError "Server closed")
       else parser_feed c d;; mret true)
      (fun e => match e with TimeoutError => true | _ => false end)
      (fun _ => mret false) n.
Proof.
  intros Hc Hr. unfold read_from_socket, try_except.
  unfold mbind at 1. unfold SM_mbind, sm_bind at 1.
  rewrite (get_conn_at c n x Hc), Hr. reflexivity.
Qed.

(** A read that brings data: the data goes to the parser. *)
Lemma read_from_socket_data c n x sock wait (d : bytes) rest k p' :
  conns n !! c = Some x -> reader x = Some sock ->
  oracle n = Done d :: rest -> d <> [] ->
  Reader_feed (Conn.parser x) d = (Ret k, p') ->
  read_from_socket c wait n
  = (Ret true,
     with_conn (asked n (Read sock (socket_recv_size x) wait)) c
       (fun y => set_parser y p')).
Proof.
  intros Hc Hr Ho Hd Hfeed. rewrite (read_from_socket_at c n x sock wait Hc Hr).
  unfold try_except. unfold mbind at 1. unfold SM_mbind, sm_bind at 1.
  rewrite (ask_done _ n d rest Ho).
  rewrite bool_decide_eq_false_2 by exact Hd.
  unfold parser_feed. unfold mbind, SM_mbind, sm_bind.
  rewrite (get_conn_at c (asked n _) x Hc). rewrite Hfeed.
  rewrite update_conn_with. reflexivity.
Qed.

(** [read_response] from the first [get] on, while the socket delivers the
    rest of the frame. *)
Lemma read_loop_reassembles c sock recv (blobs : list (bytes * eol * eol)) last
    (rest : list answer) :
  Z.of_nat (length (frame_wire blobs last)) <= BUF_MAX_SIZE ->
  forall (chunks : list bytes) n x fuel,
  conns n !! c = Some x ->
  reader x = Some sock -> socket_recv_size x = recv ->
  ready (Conn.parser x) ->
  contents (rbuf (Conn.parser x)) ++ concat chunks = frame_wire blobs last ->
  Forall (fun d => d <> []) chunks ->
  oracle n = map Done chunks ++ rest ->
  (length chunks <= fuel)%nat ->
  exists n' x',
    (resp ← parser_get c; read_loop fuel c resp) n = (Ret (tokens_of blobs), n')
    /\ oracle n' = rest
    /\ io_log n' = io_log n ++ repeat (Read sock recv true) (length chunks)
    /\ conns n' !! c = Some x'
    /\ contents (rbuf (Conn.parser x')) = []
    /\ reader x' = reader x /\ writer x' = writer x
    /\ next_response x' = next_response x.
Proof.
  intros Hmax chunks.
  induction chunks as [|d chunks IH]; intros n x fuel Hc Hr Hrecv Hready HF Hne Ho Hfuel.
  - cbn [concat] in HF. rewrite app_nil_r in HF.
    destruct Hready as [Hwf Hcap].
    assert (HF' : contents (rbuf (Conn.parser x)) = frame_wire blobs last ++ [])
      by (rewrite app_nil_r; exact HF).
    pose proof (parse_frame _ blobs last [] Hwf HF') as Hp.
    pose proof (contents_length _ Hwf) as Hl. rewrite HF in Hl.
    destruct (remove_spec (rbuf (Conn.parser x))
                (Z.of_nat (length (frame_wire blobs last))) Hwf ltac:(lia))
      as (_ & _ & _ & Hc').
    unfold mbind, SM_mbind, sm_bind.
    rewrite (parser_get_at c n x Hc). unfold Reader_get. fold (rbuf (Conn.parser x)).
    rewrite Hp. cbn [fst snd].
    set (p' := {| Parser.parser :=
                   {| buf := remove (rbuf (Conn.parser x))
                               (Z.of_nat (length (frame_wire blobs last))) |} |}).
    exists (with_conn n c (fun y => set_parser y p')), (set_parser x p').
    split; [destruct fuel; reflexivity|].
    split; [exact Ho|]. split; [cbn; rewrite app_nil_r; reflexivity|].
    split; [apply (with_conn_at n c (fun y => set_parser y p') x Hc)|].
    split; [|auto].
    change (contents (remove (rbuf (Conn.parser x))
                        (Z.of_nat (length (frame_wire blobs last)))) = []).
    rewrite Hc', HF, Nat2Z.id. apply drop_all.
  - apply Forall_cons in Hne as [Hd Hne]. cbn [concat] in HF.
    destruct fuel as [|fuel]; [cbn in Hfuel; lia|].
    pose proof Hready as [Hwf Hcap].
    assert (Hsuf : d ++ concat chunks <> []) by (destruct d; [congruence|discriminate]).
    pose proof (Reader_get_part (Conn.parser x) _ _ blobs last Hwf eq_refl Hsuf HF Hmax)
      as Hget.
    unfold mbind at 1. unfold SM_mbind, sm_bind at 1.
    rewrite (parser_get_none c n x Hc Hget). cbn [read_loop].
    (* one read *)
    pose proof (contents_length _ Hwf) as Hl.
    assert (Hlen : Z.of_nat (length (frame_wire blobs last))
                   = size (rbuf (Conn.parser x)) + Z.of_nat (length d)
                     + Z.of_nat (length (concat chunks))).
    { rewrite <- HF, !length_app. lia. }
    pose proof (Reader_feed_spec (Conn.parser x) d Hready
                  ltac:(unfold BUF_MAX_SIZE in *; lia)) as Hfeed.
    replace (size (rbuf (Conn.parser x)) + Z.of_nat (length d) <=? BUF_MAX_SIZE)
      with true in Hfeed by (symmetry; apply Z.leb_le; lia).
    destruct Hfeed as (k & p' & Hfeed & Hready' & Hcont).
    set (q := Read sock recv true).
    set (n1 := with_conn (asked n q) c (fun y => set_parser y p')).
    assert (Hread : read_from_socket c true n = (Ret true, n1)).
    { unfold n1, q. rewrite <- Hrecv.
      apply (read_from_socket_data c n x sock true d (map Done chunks ++ rest) k p');
        assumption. }
    unfold mbind at 1. unfold SM_mbind, sm_bind at 1. rewrite Hread.
    assert (Hc1 : conns n1 !! c = Some (set_parser x p'))
      by apply (with_conn_at (asked n q) c (fun y => set_parser y p') x Hc).
    destruct (IH n1 (set_parser x p') fuel Hc1) as (n' & x' & Hrun & Ho' & Hlog & Hx' & Hcx' & Hrx & Hwx & Hnx).
    + exact Hr.
    + exact Hrecv.
    + exact Hready'.
    + change (contents (rbuf p') ++ concat chunks = frame_wire blobs last).
      rewrite Hcont, <- app_assoc. exact HF.
    + exact Hne.
    + cbn [n1 with_conn asked oracle]. rewrite Ho. reflexivity.
    + cbn [length] in Hfuel. lia.
    + exists n', x'. split; [exact Hrun|]. split; [exact Ho'|].
      split; [|split; [exact Hx'|split; [exact Hcx'|]]].
      * rewrite Hlog. cbn [n1 with_conn asked io_log length repeat].
        rewrite <- app_assoc. reflexivity.
      * auto.
Qed.

(** With nothing pending, [read_response] is the loop. *)
Lemma read_response_start c n x :
  conns n !! c = Some x -> next_response x = None ->
  read_response c n
  = (resp ← parser_get c; read_loop (S (length (oracle n))) c resp) n.
Proof.
  intros Hc Hnone. unfold read_response.
  unfold mbind at 1. unfold SM_mbind, sm_bind at 1.
  rewrite (get_conn_at c n x Hc), Hnone.
  unfold mbind, SM_mbind, sm_bind.
  rewrite (parser_get_at c n x Hc). cbn [fst snd].
  destruct (fst (Reader_get (Conn.parser x))); reflexivity.
Qed.

(** Property X14.  [read_response] puts a reply together from the reads:
    when what the parser holds followed by the pieces that the socket
    delivers is one frame, it returns the blobs of that frame after exactly
    one read per piece, however the frame is cut, and leaves the parser
    empty. *)
Theorem read_response_reassembles c n x sock (chunks : list bytes)
    (blobs : list (bytes * eol * eol)) last (rest : list answer) :
  conns n !! c = Some x ->
  next_response x = None ->
  reader x = Some sock ->
  ready (Conn.parser x) ->
  contents (rbuf (Conn.parser x)) ++ concat chunks = frame_wire blobs last ->
  Forall (fun d => d <> []) chunks ->
  Z.of_nat (length (frame_wire blobs last)) <= BUF_MAX_SIZE ->
  oracle n = map Done chunks ++ rest ->
  exists n' x',
    read_response c n = (Ret (tokens_of blobs), n')
    /\ oracle n' = rest
    /\ io_log n'
       = io_log n ++ repeat (Read sock (socket_recv_size x) true) (length chunks)
    /\ conns n' !! c = Some x'
    /\ contents (rbuf (Conn.parser x')) = []
    /\ next_response x' = None.
Proof.
  intros Hc Hnone Hr Hready HF Hne Hmax Ho.
  destruct (read_loop_reassembles c sock (socket_recv_size x) blobs last rest Hmax
              chunks n x (S (length (oracle n))) Hc Hr eq_refl Hready HF Hne Ho)
    as (n' & x' & Hrun & Ho' & Hlog & Hx' & Hcx' & _ & _ & Hnx).
  { rewrite Ho, length_app, length_map. lia. }
  exists n', x'. split; [|rewrite Hnx; auto].
  rewrite <- Hrun. apply (read_response_start c n x Hc Hnone).
Qed.

(** A reply of two blobs that arrives in three pieces, the first of them
    already in the parser. *)
Lemma read_response_reassembles_witness :
  let n := net1 100 (wire "2\no") [Done (wire "k\n1"); Done (wire "\nv\n\n")] in
  exists n' x',
    read_response 0 n = (Ret [wire "ok"; wire "v"], n')
    /\ oracle n' = []
    /\ io_log n' = [Read 0 65536 true; Read 0 65536 true]
    /\ conns n' !! 0%nat = Some x'
    /\ contents (rbuf (Conn.parser x')) = []
    /\ next_response x' = None.
Proof.
  intros n.
  apply (read_response_reassembles 0 n (link0 (wire "2\no")) 0%nat
           [wire "k\n1"; wire "\nv\n\n"]
           [(wire "ok", Lf, Lf); (wire "v", Lf, Lf)] Lf []).
  - reflexivity.
  - reflexivity.
  - reflexivity.
  - repeat split; vm_compute; congruence.
  - vm_compute. reflexivity.
  - repeat constructor; discriminate.
  - vm_compute. discriminate.
  - reflexivity.
Defined.

End Reassembly.

End StepsFacts.


(** * Leases of the pool *)

Module PoolFacts.
Import Conn Steps.
Import ConnFacts StepsFacts.



Ltac sm_simpl :=
  unfold mbind, mret, SM_mbind, SM_mret, sm_bind, sm_ret, gets, modify_pool,
    modify, raise, lift_res;
  cbn [fst snd pool net calls set_accounting
       pool_pid max_connections connection_kwargs created_connections
       available_connections in_use_connections].

(** The first block of [get_connection] in the process of the pool: what it
    returns and the state it leaves. *)
Lemma get_connection_locked_cases s :
  pool_pid (pool s) = getpid (net s) ->
  match reverse (available_connections (pool s)) with
  | c :: r =>
      get_connection_locked s
      = (Ret c,
         mkState (set_accounting (pool s) (created_connections (pool s))
                    (reverse r) ({[c]} ∪ in_use_connections (pool s)))
           (net s) (calls s))
  | [] =>
      if max_connections (pool s) <=? created_connections (pool s) then
        get_connection_locked s
        = (Raise (ConnectionError "Too many connections"), s)
      else
        forall a, bind_arguments (connection_kwargs (pool s)) = Ret a ->
        get_connection_locked s
        = (Ret (length (conns (net s))),
           mkState (set_accounting (pool s) (created_connections (pool s) + 1)
                      (available_connections (pool s))
                      ({[length (conns (net s))]} ∪ in_use_connections (pool s)))
             (snd (Connection_new (connection_kwargs (pool s)) (net s)))
             (calls s))
  end.
Proof.
  intros Hpid.
  pose proof (pop_last_snoc (available_connections (pool s))) as Hpop.
  unfold pop_last in Hpop.
  remember (get_connection_locked s) as out eqn:E.
  unfold get_connection_locked in E.
  unfold mbind at 1 in E. unfold SM_mbind, sm_bind at 1 in E.
  rewrite (checkpid_same s Hpid) in E. revert E. sm_simpl. unfold pop_last.
  destruct (reverse (available_connections (pool s))) as [|c r] eqn:Er.
  - rewrite Hpop. change (0 <? Z.of_nat (length (@nil nat))) with false.
    cbv beta iota. unfold make_connection. sm_simpl.
    destruct (max_connections (pool s) <=? created_connections (pool s)) eqn:Em.
    + intros ->. destruct s; reflexivity.
    + intros -> a Ha. unfold lift_net, Connection_new. sm_simpl.
      rewrite Ha. sm_simpl. rewrite ?Hpop. reflexivity.
  - rewrite Hpop, length_app. cbn [length].
    replace (0 <? Z.of_nat (length (reverse r) + 1)) with true
      by (symmetry; apply Z.ltb_lt; lia).
    sm_simpl. intros ->. reflexivity.
Qed.

(** Property X15.  [get_connection] when no connection is available and
    [max_connections] have been created raises
    [ConnectionError("Too many connections")] and changes nothing: no
    connection is made, none is put on lease, the network is not asked. *)
Theorem lease_at_limit s :
  pool_pid (pool s) = getpid (net s) ->
  available_connections (pool s) = [] ->
  max_connections (pool s) <= created_connections (pool s) ->
  get_connection s = (Raise (ConnectionError "Too many connections"), s).
Proof.
  intros Hpid Hav Hmax.
  pose proof (get_connection_locked_cases s Hpid) as Hl.
  rewrite Hav in Hl. cbn [reverse rev_append] in Hl.
  replace (max_connections (pool s) <=? created_connections (pool s)) with true in Hl
    by (symmetry; apply Z.leb_le; exact Hmax).
  unfold get_connection. unfold mbind, SM_mbind, sm_bind. rewrite Hl. reflexivity.
Qed.

(** A pool of at most one connection, its connection on lease. *)
Lemma lease_at_limit_witness :
  let s := snd (get_connection (fresh_state (pool0 1 ∅) (net0 answers_idle))) in
  get_connection s = (Raise (ConnectionError "Too many connections"), s).
Proof.
  intros s. apply (lease_at_limit s).
  - vm_compute. reflexivity.
  - vm_compute. reflexivity.
  - vm_compute. discriminate.
Defined.

(** Property X16.  [release] of a connection on lease appends it to the
    available ones, and the locked block of the next [get_connection] takes
    that same connection: the pool hands out the connection released
    last, and is then as it was before the release. *)
Theorem release_then_lease limit c s :
  pool_inv limit s -> c ∈ in_use_connections (pool s) ->
  exists s1,
    release c s = (Ret tt, s1)
    /\ available_connections (pool s1) = available_connections (pool s) ++ [c]
    /\ get_connection_locked s1 = (Ret c, s).
Proof.
  intros Hinv Hin. pose proof Hinv as (_ & _ & _ & Hpid & _ & _).
  rewrite (release_on_lease limit c s Hinv Hin).
  eexists. split; [reflexivity|]. split; [reflexivity|].
  match goal with |- get_connection_locked ?s1 = _ =>
    pose proof (get_connection_locked_cases s1 Hpid) as Hl end.
  cbn [pool net calls set_accounting available_connections] in Hl.
  rewrite reverse_app, reverse_singleton in Hl. cbn [app] in Hl.
  rewrite Hl. cbn [created_connections in_use_connections set_accounting
                   pool_pid max_connections connection_kwargs].
  rewrite reverse_involutive.
  replace ({[c]} ∪ in_use_connections (pool s) ∖ {[c]})
    with (in_use_connections (pool s)).
  - destruct s as [[] ? ?]; reflexivity.
  - apply set_eq. intros y. destruct (decide (y = c)); set_solver.
Qed.

Lemma release_then_lease_witness :
  let s := snd (get_connection (fresh_state (pool0 2 ∅) (net0 answers_idle))) in
  exists s1,
    release 0 s = (Ret tt, s1)
    /\ available_connections (pool s1) = available_connections (pool s) ++ [0%nat]
    /\ get_connection_locked s1 = (Ret 0%nat, s).
Proof.
  intros s. apply (release_then_lease 2 0%nat s).
  - apply (get_connection_inv 2).
    apply (fresh_state_inv 2 ∅ (pool0 2 ∅) (net0 answers_idle));
      [reflexivity|eexists; vm_compute; reflexivity].
  - eapply bool_decide_unpack. vm_compute. exact I.
Defined.

(** Property X17.  The connection that the locked block of
    [get_connection] hands out was not on lease before; afterwards it is
    on lease and not among the available ones. *)
Theorem lease_is_exclusive limit s c s' :
  pool_inv limit s ->
  get_connection_locked s = (Ret c, s') ->
  c ∉ in_use_connections (pool s)
  /\ in_use_connections (pool s') = {[c]} ∪ in_use_connections (pool s)
  /\ c ∉ available_connections (pool s').
Proof.
  intros Hinv Hget.
  pose proof Hinv as (_ & (_ & _ & Hdis) & Hnd & Hpid & [a Ha] & Hc).
  pose proof (get_connection_locked_cases s Hpid) as Hl.
  pose proof (pop_last_snoc (available_connections (pool s))) as Hpop.
  unfold pop_last in Hpop.
  destruct (reverse (available_connections (pool s))) as [|c0 r] eqn:Er.
  - destruct (max_connections (pool s) <=? created_connections (pool s)).
    + rewrite Hl in Hget. discriminate.
    + rewrite (Hl a Ha) in Hget. injection Hget as <- <-.
      cbn [pool set_accounting in_use_connections available_connections].
      assert (Hfresh : forall c', c' ∈ available_connections (pool s)
                        \/ c' ∈ in_use_connections (pool s) ->
                        c' <> length (conns (net s))).
      { intros c' Hc' ->. destruct (Hc _ Hc') as (x & Hx & _).
        apply lookup_lt_Some in Hx. lia. }
      split; [|split; [reflexivity|]].
      * intros Hin. exact (Hfresh _ (or_intror Hin) eq_refl).
      * intros Hin. exact (Hfresh _ (or_introl Hin) eq_refl).
  - rewrite Hl in Hget. injection Hget as <- <-.
    cbn [pool set_accounting in_use_connections available_connections].
    rewrite Hpop in Hnd, Hdis.
    apply NoDup_app in Hnd as (_ & Hnin & _).
    split; [|split; [reflexivity|]].
    + apply Hdis. set_solver.
    + intros Hin. apply (Hnin c0 Hin). set_solver.
Qed.

Lemma lease_is_exclusive_witness :
  let s := fresh_state (pool0 2 ∅) (net0 answers_idle) in
  let s' := snd (get_connection_locked s) in
  0%nat ∉ in_use_connections (pool s)
  /\ in_use_connections (pool s') = {[0%nat]} ∪ in_use_connections (pool s)
  /\ 0%nat ∉ available_connections (pool s').
Proof.
  intros s s'. apply (lease_is_exclusive 2 s 0%nat s').
  - apply (fresh_state_inv 2 ∅ (pool0 2 ∅) (net0 answers_idle));
      [reflexivity|eexists; vm_compute; reflexivity].
  - vm_compute. reflexivity.
Defined.

(** In another process than the pool's, [checkpid] empties the pool and
    keeps the [pid] it had. *)
Lemma checkpid_forked s :
  pool_pid (pool s) <> getpid (net s) ->
  checkpid s = (Ret tt, mkState (reset (pool s)) (net s) (calls s)).
Proof.
  intros Hpid. unfold checkpid, lift_net. sm_simpl.
  rewrite !bool_decide_eq_true_2 by exact Hpid. reflexivity.
Qed.

(** Property X18.  In a process other than the one that made the pool, the
    pool forgets its connections at every call and keeps the old [pid]: a
    lease makes a new connection and counts one, and the release of that
    connection, which the pool does not own, leaves the count at [-1] with
    nothing available and nothing on lease. *)
Theorem forked_pool_drops_connections s a :
  pool_pid (pool s) <> getpid (net s) ->
  bind_arguments (connection_kwargs (pool s)) = Ret a ->
  0 < max_connections (pool s) ->
  let c := length (conns (net s)) in
  exists s1 s2,
    get_connection_locked s = (Ret c, s1)
    /\ pool_pid (pool s1) = pool_pid (pool s)
    /\ created_connections (pool s1) = 1
    /\ available_connections (pool s1) = []
    /\ in_use_connections (pool s1) = {[c]}
    /\ release c s1 = (Ret tt, s2)
    /\ created_connections (pool s2) = -1
    /\ available_connections (pool s2) = []
    /\ in_use_connections (pool s2) = ∅.
Proof.
  intros Hpid Ha Hmax c.
  assert (Hget : get_connection_locked s
                 = (Ret c,
                    mkState (set_accounting (pool s) 1 [] {[c]})
                      (snd (Connection_new (connection_kwargs (pool s)) (net s)))
                      (calls s))).
  { unfold get_connection_locked.
    unfold mbind at 1. unfold SM_mbind, sm_bind at 1.
    rewrite (checkpid_forked s Hpid). sm_simpl. unfold reset. sm_simpl.
    change (0 <? Z.of_nat (length (@nil nat))) with false. cbv beta iota.
    unfold make_connection. sm_simpl.
    replace (max_connections (pool s) <=? 0) with false
      by (symmetry; apply Z.leb_gt; exact Hmax).
    unfold lift_net, Connection_new. sm_simpl. rewrite Ha. sm_simpl.
    f_equal. f_equal. f_equal. apply set_eq. set_solver. }
  eexists _, _. split; [exact Hget|].
  cbn [pool set_accounting pool_pid created_connections available_connections
       in_use_connections].
  do 4 (split; [reflexivity|]).
  set (s1 := mkState (set_accounting (pool s) 1 [] {[c]})
               (snd (Connection_new (connection_kwargs (pool s)) (net s)))
               (calls s)).
  assert (Hpid1 : pool_pid (pool s1) <> getpid (net s1)).
  { unfold s1, Connection_new. rewrite Ha. exact Hpid. }
  assert (Hrel : release c s1
                 = (Ret tt,
                    mkState (set_accounting (pool s) (-1) [] ∅) (net s1) (calls s))).
  { unfold release. unfold mbind at 1. unfold SM_mbind, sm_bind at 1.
    rewrite (checkpid_forked s1 Hpid1). sm_simpl. unfold reset. sm_simpl.
    rewrite bool_decide_eq_false_2 by set_solver. sm_simpl.
    unfold lift_net, get_conn. sm_simpl.
    unfold s1 at 1 2. unfold Connection_new. rewrite Ha. cbn [snd net conns].
    rewrite list_lookup_middle by reflexivity. sm_simpl.
    unfold owns_connection. cbn [pid pool_pid set_accounting].
    rewrite bool_decide_eq_false_2
      by (cbn; intros H; apply Hpid; symmetry; exact H).
    sm_simpl. unfold disconnect, get_conn. sm_simpl. cbn [conns].
    rewrite list_lookup_middle by reflexivity. sm_simpl.
    unfold s1, Connection_new. rewrite Ha. reflexivity. }
  rewrite Hrel. repeat split.
Qed.

(** A pool made by the process 100, used in the process 101. *)
Lemma forked_pool_drops_connections_witness :
  let s := fresh_state (pool0 2 ∅) (mkNet [] [] 101 0 []) in
  exists s1 s2,
    get_connection_locked s = (Ret 0%nat, s1)
    /\ pool_pid (pool s1) = 100
    /\ created_connections (pool s1) = 1
    /\ available_connections (pool s1) = []
    /\ in_use_connections (pool s1) = {[0%nat]}
    /\ release 0 s1 = (Ret tt, s2)
    /\ created_connections (pool s2) = -1
    /\ available_connections (pool s2) = []
    /\ in_use_connections (pool s2) = ∅.
Proof.
  intros s.
  eapply (forked_pool_drops_connections s).
  - vm_compute. discriminate.
  - vm_compute. reflexivity.
  - vm_compute. reflexivity.
Defined.

(** The disconnects of [gather], when the network lets every close
    through. *)
Lemma gather_disconnect_done cs :
  forall s (ds : list bytes),
    (forall c, c ∈ cs ->
       exists x, conns (net s) !! c = Some x /\ pid x = getpid (net s)) ->
    oracle (net s) = map Done ds -> (length cs <= length ds)%nat ->
    exists s',
      gather_disconnect cs s = (Ret (repeat None (length cs)), s')
      /\ pool s' = pool s
      /\ (forall c, c ∈ cs ->
            exists x', conns (net s') !! c = Some x' /\ is_connected x' = false)
      /\ stays_closed (net s) (net s').
Proof.
  induction cs as [|c cs IH]; intros s ds Hcs Ho Hlen.
  - exists s. split; [reflexivity|]. split; [reflexivity|].
    split; [intros c Hc; inversion Hc|apply stays_closed_refl].
  - destruct (Hcs c ltac:(left)) as (x & Hx & Hpid).
    cbn [length] in Hlen.
    destruct (disconnect_done c (net s) x ds Hx Hpid Ho ltac:(lia))
      as (n1 & ds1 & x1 & Hrun & Ho1 & Hl1 & Hx1 & Hd1 & Hk1).
    set (s1 := mkState (pool s) n1 (calls s)).
    assert (Hcs1 : forall c', c' ∈ cs ->
              exists y, conns (net s1) !! c' = Some y /\ pid y = getpid (net s1)).
    { intros c' Hc'. destruct (Hcs c' ltac:(right; exact Hc')) as (y & Hy & Hpy).
      destruct Hk1 as [Hg1 Hk1]. destruct (Hk1 c' y Hy) as (y' & Hy' & Hpy' & _).
      exists y'. cbn [s1 net]. split; [exact Hy'|congruence]. }
    destruct (IH s1 ds1 Hcs1 Ho1 ltac:(lia)) as (s' & Hrest & Hp' & Hall & Hk').
    exists s'. split; [|split; [exact Hp'|split]].
    + cbn [gather_disconnect]. unfold lift_net. rewrite Hrun. fold s1.
      unfold mbind, SM_mbind, sm_bind. rewrite Hrest. reflexivity.
    + intros c' Hc'. apply elem_of_cons in Hc' as [->|Hc']; [|apply Hall, Hc'].
      destruct Hk' as [_ Hk']. destruct (Hk' c x1 Hx1) as (x' & Hx' & _ & Hcl).
      exists x'. split; [exact Hx'|apply Hcl, Hd1].
    + apply (stays_closed_trans _ n1 _ Hk1 Hk').
Qed.

Lemma first_exception_none k : first_exception (repeat None k) = None.
Proof. induction k as [|k IH]; [reflexivity|exact IH]. Qed.

(** Property X25.  [disconnect] of the pool, when every close goes
    through: it returns, every connection of the pool, available or on
    lease, is closed, and the pool's accounting is what it was, so the
    connections on lease stay on lease. *)
Theorem pool_disconnect_closes_all limit s (ds : list bytes) :
  pool_inv limit s ->
  oracle (net s) = map Done ds ->
  (length (available_connections (pool s))
   + size (in_use_connections (pool s)) <= length ds)%nat ->
  exists s',
    Pool_disconnect s = (Ret tt, s')
    /\ pool s' = pool s
    /\ forall c,
         c ∈ available_connections (pool s) \/ c ∈ in_use_connections (pool s) ->
         exists x', conns (net s') !! c = Some x' /\ is_connected x' = false.
Proof.
  intros Hinv Ho Hlen.
  pose proof Hinv as (_ & _ & _ & Hpid & _ & Hc).
  set (cs := available_connections (pool s) ++ elements (in_use_connections (pool s))).
  assert (Hin : forall c, c ∈ cs <->
            c ∈ available_connections (pool s) \/ c ∈ in_use_connections (pool s)).
  { intros c. unfold cs. rewrite elem_of_app, elem_of_elements. reflexivity. }
  destruct (gather_disconnect_done cs s ds) as (s' & Hrun & Hp' & Hall & _).
  - intros c Hcin. destruct (Hc c (proj1 (Hin c) Hcin)) as (x & Hx & Hpx).
    exists x. split; [exact Hx|congruence].
  - exact Ho.
  - unfold cs. rewrite length_app. unfold size, set_size in Hlen. cbn in Hlen.
    exact Hlen.
  - exists s'. split; [|split; [exact Hp'|]].
    + unfold Pool_disconnect.
      unfold mbind at 1. unfold SM_mbind, sm_bind at 1.
      rewrite (checkpid_same s Hpid).
      unfold gets. unfold mbind, SM_mbind, sm_bind. fold cs. rewrite Hrun.
      rewrite first_exception_none. reflexivity.
    + intros c Hcin. apply Hall, Hin, Hcin.
Qed.

(** A pool with one connection available and one on lease. *)
Lemma pool_disconnect_closes_all_witness :
  let s := run [Lease; Lease; Release 0%nat]
             (fresh_state (pool0 2 ∅) (net0 (answers_idle ++ answers_idle ++ [Done []; Done []]))) in
  exists s',
    Pool_disconnect s = (Ret tt, s')
    /\ pool s' = pool s
    /\ forall c,
         c ∈ available_connections (pool s) \/ c ∈ in_use_connections (pool s) ->
         exists x', conns (net s') !! c = Some x' /\ is_connected x' = false.
Proof.
  intros s. apply (pool_disconnect_closes_all 2 s [[]; []]).
  - unfold s, run. cbn [fold_left].
    apply step_op_inv.
    + apply step_op_inv; [|exact I].
      apply step_op_inv; [|exact I].
      apply (fresh_state_inv 2 ∅ (pool0 2 ∅));
        [reflexivity|eexists; vm_compute; reflexivity].
    + cbn [on_lease]. eapply bool_decide_unpack. vm_compute. exact I.
  - vm_compute. reflexivity.
  - vm_compute. lia.
Defined.

End PoolFacts.


(** * The asyncio client *)

Module ClientFacts.
Import Conn Steps Wire Client.
Import ConnFacts WireFacts StepsFacts.

Ltac sm_simpl :=
  unfold mbind, mret, SM_mbind, SM_mret, sm_bind, sm_ret, gets, modify_pool,
    modify, raise, lift_res;
  cbn [fst snd pool net calls set_accounting
       pool_pid max_connections connection_kwargs created_connections
       available_connections in_use_connections].

(** Property X19.  The asyncio client does not pass its [password] on: the
    keyword arguments of its pool have no [password], so the connections of
    the pool are made without one, whatever password the client was given;
    a client just made has no pinned connection. *)
Theorem client_ignores_password host port password socket_keepalive
    socket_keepalive_options socket_recv_size max_connections single n k :
  SSDB_new host port password socket_keepalive socket_keepalive_options
    socket_recv_size max_connections single n = Ret k ->
  connection_kwargs (pool (world k)) !! "password" = None
  /\ (exists a, bind_arguments (connection_kwargs (pool (world k))) = Ret a
                /\ arg_password a = None)
  /\ connection k = None
  /\ exists limit, client_inv limit k.
Proof.
  unfold SSDB_new. intros H.
  destruct (arg_int port) as [p| | |] eqn:Ep; try discriminate.
  destruct (arg_int socket_recv_size) as [rs| | |] eqn:Ers; try discriminate.
  destruct (arg_int max_connections) as [mc| | |] eqn:Emc; try discriminate.
  cbn [mbind res_mbind res_bind] in H.
  destruct (arg_str host) as [h| | |] eqn:Eh; try discriminate.
  destruct (arg_str password) as [pw| | |] eqn:Epw; try discriminate.
  destruct (arg_dict socket_keepalive_options) as [[]| | |] eqn:Eopt; try discriminate.
  cbn [mbind res_mbind res_bind] in H.
  set (kw := <["host" := host]> _) in H.
  destruct (ConnectionPool_new (getpid n) mc kw) as [pl| | |] eqn:Epool;
    try discriminate.
  cbn [mbind res_mbind res_bind] in H. injection H as <-.
  cbn [world pool connection].
  assert (Hkw : connection_kwargs pl = kw).
  { unfold ConnectionPool_new in Epool.
    destruct ((- INT32_MAX - 1 <=? mc) && (mc <=? INT32_MAX)); [|discriminate].
    injection Epool as <-. reflexivity. }
  rewrite Hkw.
  assert (Hpw : kw !! "password" = None).
  { unfold kw, kwargs. rewrite !lookup_insert_ne by discriminate. apply lookup_empty. }
  assert (Hopt : socket_keepalive_options = PyNone)
    by (destruct socket_keepalive_options; try discriminate; reflexivity).
  assert (Hbind : bind_arguments kw
                  = Ret (mkArguments h p None (arg_bint socket_keepalive) rs)).
  { unfold bind_arguments.
    rewrite bool_decide_eq_true_2.
    2: { unfold kw, PARAMETERS, kwargs. rewrite !dom_insert_L, dom_empty_L.
         set_solver. }
    unfold kw, kwargs.
    repeat (rewrite ?lookup_insert_eq; rewrite ?lookup_insert_ne by discriminate).
    rewrite lookup_empty. cbn [default from_option id].
    assert (Hint : forall v z, arg_int v = Ret z -> arg_int (PyInt z) = Ret z).
    { intros v z Hv. destruct v as [|z'|[|]| | |]; cbn in Hv; try discriminate.
      - destruct ((- INT32_MAX - 1 <=? z') && (z' <=? INT32_MAX)) eqn:E;
          [|discriminate]. injection Hv as <-. cbn. rewrite E. reflexivity.
      - injection Hv as <-. reflexivity.
      - injection Hv as <-. reflexivity. }
    rewrite (Hint _ _ Ep), (Hint _ _ Ers). cbn [mbind res_mbind res_bind].
    rewrite Eh, Hopt. cbn [mbind res_mbind res_bind arg_str arg_dict arg_bint].
    reflexivity. }
  split; [exact Hpw|]. split; [eexists; split; [exact Hbind|reflexivity]|].
  split; [reflexivity|].
  exists (if 0 <? mc then mc else INT32_MAX). split.
  - apply (fresh_state_inv mc kw pl n Epool). eexists. exact Hbind.
  - intros c Hc. discriminate.
Qed.

Lemma client_ignores_password_witness :
  let k := client0 false [] in
  connection_kwargs (pool (world k)) !! "password" = None
  /\ (exists a, bind_arguments (connection_kwargs (pool (world k))) = Ret a
                /\ arg_password a = None)
  /\ connection k = None
  /\ exists limit, client_inv limit k.
Proof.
  intros k.
  apply (client_ignores_password (PyStr "localhost") (PyInt 7036) (PyStr "secret")
           (PyBool false) PyNone (PyInt 65536) (PyInt 0) (PyBool false) (net0 [])).
  vm_compute. reflexivity.
Defined.

(** The client [client0] keeps the invariant of a pool without a limit of
    its own. *)
Lemma client0_inv single answers : client_inv INT32_MAX (client0 single answers).
Proof.
  split.
  - apply (fresh_state_inv 0 (connection_kwargs (pool (world (client0 single answers))))
             (pool (world (client0 single answers))) (net0 answers)).
    + reflexivity.
    + eexists. vm_compute. reflexivity.
  - intros c H. discriminate H.
Qed.

(** A guarded piece that returns has not run its handler. *)
Lemma guarded_ret (body : M unit) c s :
  quiet body ->
  forall c',
    fst ((try_except body is_Exception
            (fun e => traced MRelease c show_unit (release c);; raise e);;
          mret c) s) = Ret c' ->
    c' = c
    /\ pool (snd ((try_except body is_Exception
                     (fun e => traced MRelease c show_unit (release c);; raise e);;
                   mret c) s)) = pool s.
Proof.
  intros Hq c'. unfold mbind, SM_mbind, sm_bind, try_except, mret, SM_mret, sm_ret, raise.
  destruct (Hq s) as [Hp Hn].
  destruct (body s) as [[[]|e| |] s2]; cbn [fst snd] in *; try discriminate.
  - intros [= <-]. auto.
  - destruct (is_Exception e); [|discriminate].
    destruct (traced MRelease c show_unit (release c) s2) as [[[]|e'| |] s3];
      discriminate.
Qed.

(** A lease that succeeds leaves its connection on lease. *)
Lemma get_connection_leased limit s :
  pool_inv limit s ->
  pool_inv limit (snd (get_connection s))
  /\ forall c, fst (get_connection s) = Ret c ->
       c ∈ in_use_connections (pool (snd (get_connection s))).
Proof.
  intros Hinv. split; [apply get_connection_inv; exact Hinv|].
  destruct (get_connection_locked_inv limit s Hinv) as [Hinv1 Hin1].
  unfold get_connection. unfold mbind, SM_mbind, sm_bind.
  destruct (get_connection_locked s) as [[c|e| |] s1]; cbn [fst snd] in *;
    try discriminate.
  specialize (Hin1 c eq_refl). intros c' Hret.
  destruct (guarded_ret _ c s1 (quiet_unlocked_body c) c' Hret) as [-> Hp].
  unfold get_connection_unlocked. rewrite Hp. exact Hin1.
Qed.

Lemma bind_run {S A B} (m : SM S A) (f : A -> SM S B) s :
  (m ≫= f) s
  = match m s with
    | (Ret a, s') => f a s'
    | (Raise e, s') => (Raise e, s')
    | (Undef, s') => (Undef, s')
    | (Hang, s') => (Hang, s')
    end.
Proof. reflexivity. Qed.

(** ** Rules for [triple] *)

Lemma triple_bind {S A B} (P : S -> Prop) (m : SM S A) (f : A -> SM S B)
    (Q : A -> S -> Prop) (Q' : B -> S -> Prop) (R : S -> Prop) :
  triple P m Q R -> (forall a, triple (Q a) (f a) Q' R) -> triple P (m ≫= f) Q' R.
Proof.
  intros Hm Hf s Hs. specialize (Hm s Hs).
  unfold mbind, SM_mbind, sm_bind.
  destruct (m s) as [[a|e| |] s1]; try exact Hm. apply (Hf a s1 Hm).
Qed.

Lemma triple_weaken {S A} (P P' : S -> Prop) (m : SM S A)
    (Q Q' : A -> S -> Prop) (R R' : S -> Prop) :
  triple P m Q R -> (forall s, P' s -> P s) -> (forall a s, Q a s -> Q' a s) ->
  (forall s, R s -> R' s) -> triple P' m Q' R'.
Proof.
  intros Hm HP HQ HR s Hs. specialize (Hm s (HP s Hs)).
  destruct (m s) as [[a|e| |] s1]; auto.
Qed.

Lemma triple_finally {S A} (P I Q : S -> Prop) (m : SM S A) (f : SM S unit) :
  triple P m (fun _ => I) I -> triple I f (fun _ => Q) Q -> (forall s, I s -> Q s) ->
  triple P (try_finally m f) (fun _ => Q) Q.
Proof.
  intros Hm Hf HIQ s Hs. specialize (Hm s Hs). unfold try_finally.
  destruct (m s) as [[a|e| |] s1]; auto.
  - specialize (Hf s1 Hm). destruct (f s1) as [[[]|e'| |] s2]; exact Hf.
  - specialize (Hf s1 Hm). destruct (f s1) as [[[]|e'| |] s2]; exact Hf.
Qed.

Lemma triple_snd {S A} (P Q : S -> Prop) (m : SM S A) s :
  triple P m (fun _ => Q) Q -> P s -> Q (snd (m s)).
Proof.
  intros Hm Hs. specialize (Hm s Hs). destruct (m s) as [[a|e| |] s1]; exact Hm.
Qed.

(** ** The client's steps *)

Section Client.
Variable limit : Z.

Lemma lift_pool_net_frame {A} (m : N A) k :
  stable m ->
  pool (world (snd (lift_pool (lift_net m) k))) = pool (world k)
  /\ net_le (net (world k)) (net (world (snd (lift_pool (lift_net m) k))))
  /\ connection (snd (lift_pool (lift_net m) k)) = connection k
  /\ single_connection_client (snd (lift_pool (lift_net m) k))
     = single_connection_client k.
Proof.
  intros Hm. unfold lift_pool.
  destruct (quiet_lift_net m Hm (world k)) as [Hp Hn].
  destruct (lift_net m (world k)) as [r s]. simpl in *. auto.
Qed.

Lemma lift_pool_net_leased {A} (m : N A) c :
  stable m -> triple (leased limit c) (lift_pool (lift_net m)) (fun _ => leased limit c) (leased limit c).
Proof.
  intros Hm k [[Hinv Hpin] Hin].
  destruct (lift_pool_net_frame m k Hm) as (Hp & Hn & Hc & _).
  assert (leased limit c (snd (lift_pool (lift_net m) k))).
  { split; [split|].
    - eapply pool_inv_frame; eassumption.
    - rewrite Hp, Hc. exact Hpin.
    - rewrite Hp. exact Hin. }
  destruct (lift_pool (lift_net m) k) as [[a|e| |] k1]; assumption.
Qed.

Lemma initialize_unfold k :
  initialize k
  = if single_connection_client k && bool_decide (connection k = None)
    then (c ← lift_pool get_connection; set_connection (Some c)) k
    else (Ret tt, k).
Proof.
  unfold initialize, gets, id. unfold mbind at 1. unfold SM_mbind, sm_bind at 1.
  cbv beta iota.
  destruct (single_connection_client k && bool_decide (connection k = None));
    reflexivity.
Qed.

Lemma initialize_inv :
  triple (client_inv limit) initialize (fun _ => client_inv limit) (client_inv limit).
Proof.
  intros k [Hinv Hpin]. rewrite initialize_unfold.
  destruct (single_connection_client k && bool_decide (connection k = None)) eqn:E;
    [|split; assumption].
  apply andb_true_iff in E as [_ E]. apply bool_decide_eq_true in E.
  unfold mbind, SM_mbind, sm_bind, lift_pool.
  destruct (get_connection_leased limit (world k) Hinv) as [Hinv1 Hin1].
  destruct (get_connection (world k)) as [[c|e| |] s1]; simpl in *.
  - split; [exact Hinv1|]. intros c' [= <-]. apply Hin1. reflexivity.
  - split; [exact Hinv1|]. rewrite E. discriminate.
  - split; [exact Hinv1|]. rewrite E. discriminate.
  - split; [exact Hinv1|]. rewrite E. discriminate.
Qed.

Lemma triple_gets {S} (P : S -> Prop) (R : S -> Prop) :
  triple P (gets id) (fun k0 k => P k /\ k = k0) R.
Proof. intros s Hs. unfold gets, id. auto. Qed.

(** [self.connection or await pool.get_connection()] *)
Lemma choose_connection_leased k0 :
  triple (fun k => client_inv limit k /\ k = k0)
    (match connection k0 with
     | Some c => mret c
     | None => lift_pool get_connection
     end)
    (leased limit) (client_inv limit).
Proof.
  intros k [[Hinv Hpin] ->].
  destruct (connection k0) as [c|] eqn:Ec.
  - simpl. split; [split; [exact Hinv|rewrite Ec; exact Hpin]|].
    apply Hpin. reflexivity.
  - unfold lift_pool.
    destruct (get_connection_leased limit (world k0) Hinv) as [Hinv1 Hin1].
    destruct (get_connection (world k0)) as [[c|e| |] s1]; simpl in *.
    + split; [split; [exact Hinv1|rewrite Ec; discriminate]|].
      apply Hin1. reflexivity.
    + split; [exact Hinv1|rewrite Ec; discriminate].
    + split; [exact Hinv1|rewrite Ec; discriminate].
    + split; [exact Hinv1|rewrite Ec; discriminate].
Qed.

(** The [finally] clause of [execute_command]. *)
Lemma give_back_inv c :
  triple (leased limit c)
    (k ← gets id;
     if bool_decide (connection k = None) then lift_pool (release c) else mret tt)
    (fun _ => client_inv limit) (client_inv limit).
Proof.
  intros k [[Hinv Hpin] Hin]. unfold gets, id.
  unfold mbind, SM_mbind, sm_bind. cbv beta iota.
  destruct (bool_decide (connection k = None)) eqn:Eb; [|split; assumption].
  apply bool_decide_eq_true in Eb. unfold lift_pool.
  pose proof (release_inv limit c (world k) Hinv Hin) as Hrel.
  destruct (release c (world k)) as [[[]|e| |] s4]; simpl in *;
    (split; [exact Hrel|rewrite Eb; discriminate]).
Qed.

Lemma close_inv :
  triple (client_inv limit) close
    (fun _ k => client_inv limit k /\ connection k = None)
    (fun k => client_inv limit k /\ connection k = None).
Proof.
  assert (Hk : forall b s, pool_inv limit s ->
            client_inv limit (mkSSDB None b s)
            /\ connection (mkSSDB None b s) = None)
    by (intros b s Hs; split; [split; [exact Hs|discriminate]|reflexivity]).
  assert (Hd : forall b s, pool_inv limit s ->
            match lift_pool Pool_disconnect (mkSSDB None b s) with
            | (_, k') => client_inv limit k' /\ connection k' = None
            end).
  { intros b s Hs. unfold lift_pool. simpl.
    pose proof (Pool_disconnect_inv limit s Hs) as Hdis.
    destruct (Pool_disconnect s) as [r s1]. apply Hk. exact Hdis. }
  intros k [Hinv Hpin]. unfold close, gets, id, set_connection, modify.
  unfold mbind, SM_mbind, sm_bind. cbv beta iota.
  destruct (connection k) as [c|] eqn:Ec.
  - unfold lift_pool at 1. simpl.
    pose proof (release_inv limit c (world k) Hinv (Hpin c eq_refl)) as Hrel.
    destruct (release c (world k)) as [[[]|e| |] s4]; simpl in *; auto.
    specialize (Hd (single_connection_client k) s4 Hrel).
    destruct (lift_pool Pool_disconnect _) as [[[]|e| |] k']; exact Hd.
  - specialize (Hd (single_connection_client k) (world k) Hinv).
    replace (mkSSDB None (single_connection_client k) (world k)) with k in Hd
      by (destruct k; simpl in *; congruence).
    unfold mret, SM_mret, sm_ret.
    destruct (lift_pool Pool_disconnect _) as [[[]|e| |] k']; exact Hd.
Qed.

End Client.

Section Interpreter.
Context {pyfloat : Type} (py_float : bytes -> option pyfloat).

Lemma execute_command_inv limit cmd args :
  triple (client_inv limit) (execute_command py_float cmd args)
    (fun _ => client_inv limit) (client_inv limit).
Proof.
  unfold execute_command.
  apply (triple_bind _ _ _ (fun _ => client_inv limit)); [apply initialize_inv|].
  intros _.
  apply (triple_bind _ _ _ (fun k0 k => client_inv limit k /\ k = k0));
    [apply triple_gets|].
  intros k0.
  apply (triple_bind _ _ _ (leased limit)); [apply choose_connection_leased|].
  intros c.
  assert (Hout : forall k, leased limit c k -> client_inv limit k)
    by (intros k [H _]; exact H).
  apply (triple_bind _ _ _ (fun _ => leased limit c)).
  { eapply triple_weaken;
      [apply (lift_pool_net_leased limit _ c (stable_send_command c cmd (PyTuple args)))
      |auto..]. }
  intros _.
  apply (triple_finally _ (leased limit c)); [|apply give_back_inv|exact Hout].
  apply (triple_bind _ _ _ (fun _ => leased limit c)).
  - apply (lift_pool_net_leased limit _ c (stable_read_response c)).
  - intros frame k Hk. unfold lift_res.
    destruct (Response.wrap_response py_float cmd frame); exact Hk.
Qed.

(** Property X20.  [initialize], [execute_command] and [close] keep the
    accounting of the pool and the lease of the pinned connection, however
    they end; after [close] no connection is pinned. *)
Theorem client_keeps_accounting limit cmd args k :
  client_inv limit k ->
  client_inv limit (snd (initialize k))
  /\ client_inv limit (snd (execute_command py_float cmd args k))
  /\ client_inv limit (snd (close k))
  /\ connection (snd (close k)) = None.
Proof.
  intros Hk. split; [|split].
  - apply (triple_snd _ _ _ _ (initialize_inv limit) Hk).
  - apply (triple_snd _ _ _ _ (execute_command_inv limit cmd args) Hk).
  - apply (triple_snd (client_inv limit)
             (fun k => client_inv limit k /\ connection k = None) close k
             (close_inv limit) Hk).
Qed.

(** The command of a client without a pinned connection, from the lease
    on. *)
Lemma execute_command_unpinned cmd args k c s1 :
  single_connection_client k = false -> connection k = None ->
  get_connection (world k) = (Ret c, s1) ->
  execute_command py_float cmd args k
  = (lift_pool (lift_net (send_command c cmd (PyTuple args)));;
     try_finally
       (frame ← lift_pool (lift_net (read_response c));
        lift_res (Response.wrap_response py_float cmd frame))
       (k ← gets id;
        if bool_decide (connection k = None) then lift_pool (release c)
        else mret tt)) (mkSSDB None false s1).
Proof.
  intros Hs Hn Hg. unfold execute_command.
  unfold mbind at 1. unfold SM_mbind, sm_bind at 1.
  rewrite initialize_unfold, Hs. cbn [andb].
  unfold mbind at 1. unfold SM_mbind, sm_bind at 1.
  change (gets id k) with (Ret k, k). cbv beta iota.
  unfold mbind at 1. unfold SM_mbind, sm_bind at 1.
  rewrite Hn. unfold lift_pool at 1. rewrite Hg. rewrite Hn, Hs. reflexivity.
Qed.

Lemma lift_pool_net_run {A} limit (m : N A) c k :
  stable m -> leased limit c k ->
  exists k',
    lift_pool (lift_net m) k = (fst (m (net (world k))), k')
    /\ leased limit c k' /\ pool (world k') = pool (world k)
    /\ connection k' = connection k.
Proof.
  intros Hm Hk. exists (snd (lift_pool (lift_net m) k)).
  destruct (lift_pool_net_frame m k Hm) as (Hp & _ & Hc & _).
  split; [|split; [|auto]].
  - unfold lift_pool, lift_net. destruct (m (net (world k))). reflexivity.
  - apply (triple_snd _ _ _ _ (lift_pool_net_leased limit m c Hm) Hk).
Qed.

(** The [finally] clause of a client without a pinned connection. *)
Lemma give_back_unpinned limit c k :
  leased limit c k -> connection k = None ->
  exists k',
    (k ← gets id;
     if bool_decide (connection k = None) then lift_pool (release c)
     else mret tt) k = (Ret tt, k')
    /\ pool (world k')
       = set_accounting (pool (world k)) (created_connections (pool (world k)))
           (available_connections (pool (world k)) ++ [c])
           (in_use_connections (pool (world k)) ∖ {[c]}).
Proof.
  intros [[Hinv _] Hin] Hn. unfold gets, id.
  unfold mbind, SM_mbind, sm_bind. cbv beta iota.
  rewrite bool_decide_eq_true_2 by exact Hn.
  unfold lift_pool. rewrite (release_on_lease limit c (world k) Hinv Hin).
  eexists. split; reflexivity.
Qed.

(** Property X21.  On a client without a pinned connection, a command
    that cannot be sent raises what [send_command] raised and leaves its
    connection on lease: the [release] of [execute_command] is not
    reached. *)
Theorem unsent_command_keeps_lease limit cmd args k c s1 e :
  client_inv limit k ->
  single_connection_client k = false -> connection k = None ->
  get_connection (world k) = (Ret c, s1) ->
  fst (send_command c cmd (PyTuple args) (net s1)) = Raise e ->
  fst (execute_command py_float cmd args k) = Raise e
  /\ pool (world (snd (execute_command py_float cmd args k))) = pool s1
  /\ c ∈ in_use_connections (pool s1)
  /\ c ∉ available_connections (pool s1).
Proof.
  intros [Hinv Hpin] Hs Hn Hg Hsend.
  rewrite (execute_command_unpinned cmd args k c s1 Hs Hn Hg).
  destruct (get_connection_leased limit (world k) Hinv) as [Hinv1 Hin1].
  rewrite Hg in Hinv1, Hin1. cbn [fst snd] in Hinv1, Hin1.
  specialize (Hin1 c eq_refl).
  assert (Hk1 : leased limit c (mkSSDB None false s1))
    by (split; [split; [exact Hinv1|discriminate]|exact Hin1]).
  destruct (lift_pool_net_run limit (send_command c cmd (PyTuple args)) c _
              (stable_send_command _ _ _) Hk1) as (k2 & E2 & _ & Hp2 & _).
  unfold mbind, SM_mbind, sm_bind. rewrite E2. cbn [world] in *. rewrite Hsend.
  cbn [fst snd]. split; [reflexivity|]. split; [exact Hp2|]. split; [exact Hin1|].
  destruct Hinv1 as (_ & (_ & _ & Hdisj) & _). intros Hav. apply (Hdisj c); assumption.
Qed.

(** Property X22.  On a client without a pinned connection, a command
    that was sent gives its connection back to the pool whether the reply
    is returned or an exception is raised; only a read that does not end
    keeps the lease. *)
Theorem sent_command_returns_lease limit cmd args k c s1 :
  client_inv limit k ->
  single_connection_client k = false -> connection k = None ->
  get_connection (world k) = (Ret c, s1) ->
  fst (send_command c cmd (PyTuple args) (net s1)) = Ret tt ->
  match fst (execute_command py_float cmd args k) with
  | Ret _ | Raise _ =>
      pool (world (snd (execute_command py_float cmd args k)))
      = set_accounting (pool s1) (created_connections (pool s1))
          (available_connections (pool s1) ++ [c])
          (in_use_connections (pool s1) ∖ {[c]})
  | Undef | Hang =>
      pool (world (snd (execute_command py_float cmd args k))) = pool s1
  end.
Proof.
  intros [Hinv Hpin] Hs Hn Hg Hsend.
  rewrite (execute_command_unpinned cmd args k c s1 Hs Hn Hg).
  destruct (get_connection_leased limit (world k) Hinv) as [Hinv1 Hin1].
  rewrite Hg in Hinv1, Hin1. cbn [fst snd] in Hinv1, Hin1.
  specialize (Hin1 c eq_refl).
  assert (Hk1 : leased limit c (mkSSDB None false s1))
    by (split; [split; [exact Hinv1|discriminate]|exact Hin1]).
  destruct (lift_pool_net_run limit (send_command c cmd (PyTuple args)) c _
              (stable_send_command _ _ _) Hk1) as (k2 & E2 & Hk2 & Hp2 & Hc2).
  rewrite bind_run, E2. cbn [world connection] in *. rewrite Hsend.
  destruct (lift_pool_net_run limit (read_response c) c k2
              (stable_read_response c) Hk2) as (k3 & E3 & Hk3 & Hp3 & Hc3).
  destruct (give_back_unpinned limit c k3 Hk3 ltac:(congruence)) as (k4 & E4 & Hp4).
  unfold try_finally. rewrite bind_run, E3. rewrite Hp3, Hp2 in Hp4.
  destruct (fst (read_response c (net (world k2)))) as [frame|e| |];
    cbn [fst snd]; [|rewrite E4; exact Hp4|congruence..].
  unfold lift_res.
  destruct (Response.wrap_response py_float cmd frame) as [v|e| |];
    cbn [fst snd]; [rewrite E4; exact Hp4|rewrite E4; exact Hp4|congruence..].
Qed.



End Interpreter.

Lemma client_keeps_accounting_witness :
  let k := client0 true answers_idle in
  client_inv INT32_MAX (snd (initialize k))
  /\ client_inv INT32_MAX
       (snd (execute_command (fun _ => @None unit) "get" [PyStr "k"] k))
  /\ client_inv INT32_MAX (snd (close k))
  /\ connection (snd (close k)) = None.
Proof.
  intros k.
  apply (client_keeps_accounting (fun _ => @None unit) INT32_MAX "get" [PyStr "k"] k).
  apply client0_inv.
Defined.

(** A command with [None] among its arguments, on a client whose lease
    finds the connection idle. *)
Lemma unsent_command_keeps_lease_witness :
  let k := client0 false answers_idle in
  let s1 := snd (get_connection (world k)) in
  let out := execute_command (fun _ => @None unit) "set" [PyStr "k"; PyNone] k in
  fst out = Raise TypeError
  /\ pool (world (snd out)) = pool s1
  /\ 0%nat ∈ in_use_connections (pool s1)
  /\ 0%nat ∉ available_connections (pool s1).
Proof.
  intros k s1.
  apply (unsent_command_keeps_lease (fun _ => @None unit) INT32_MAX "set"
           [PyStr "k"; PyNone] k 0%nat s1 TypeError).
  - apply client0_inv.
  - reflexivity.
  - reflexivity.
  - vm_compute. reflexivity.
  - vm_compute. reflexivity.
Defined.

(** A command that is sent and answered. *)
Lemma sent_command_returns_lease_witness :
  let k := client0 false
             (answers_idle ++ [Done []; Done (wire "2\nok\n1\nv\n\n")]) in
  let s1 := snd (get_connection (world k)) in
  let out := execute_command (fun _ => @None unit) "get" [PyStr "k"] k in
  match fst out with
  | Ret _ | Raise _ =>
      pool (world (snd out))
      = set_accounting (pool s1) (created_connections (pool s1))
          (available_connections (pool s1) ++ [0%nat])
          (in_use_connections (pool s1) ∖ {[0%nat]})
  | Undef | Hang => pool (world (snd out)) = pool s1
  end.
Proof.
  intros k s1.
  apply (sent_command_returns_lease (fun _ => @None unit) INT32_MAX "get"
           [PyStr "k"] k 0%nat s1).
  - apply client0_inv.
  - reflexivity.
  - reflexivity.
  - vm_compute. reflexivity.
  - vm_compute. reflexivity.
Defined.


End ClientFacts.
